(** * The visual-script compiler of dream-emulator

    A shallow embedding of [src/compiler/visual-script-compiler.ts]
    (class [VisualScriptCompiler]) and of the graph types it reads from
    [src/store/index.ts], followed by the properties of the compiler.

    Conventions of the embedding.
    - A JavaScript string is a sequence of code units; it is embedded as a
      [string], one [ascii] per code unit, so the ids, handles and labels
      covered are those whose code units are below 256.
    - A JavaScript [Map] is insertion ordered: it is embedded as an
      association list with unique keys, [set] overwriting in place or
      appending ([jsmap]).
    - The compiler object ([indentLevel], [output], [nodeOutputs]) is
      threaded explicitly, and an exception ends the run: [M A] is a state
      and error monad.  [RangeError] is what JavaScript raises when the
      call stack is exhausted (the [depth] argument of [compileNode] is the
      number of nested calls the stack can hold) and when
      [String.prototype.repeat] receives a negative count; [TypeError] is
      what it raises when a property of [undefined] is read.
    - The fields of a node that the compiler never reads ([position],
      [inputs], [outputs]) are left out; [data] keeps the three entries the
      compiler reads, each absent or of the type the compiler takes it to
      have (a string for [label] and [componentType], an array of strings
      for [components]).
    - An entry of the array [topologicalSort] returns is [nodeMap.get(id)!],
      a node or [undefined]: the array is a list of options
      ([topologicalSort_defined] shows that no entry is [undefined]). *)

From Stdlib Require Import String Ascii List ZArith Lia Bool Arith PeanoNat.
From Stdlib Require Import Permutation.
Import ListNotations.

Local Open Scope string_scope.
Local Open Scope list_scope.

(** String concatenation ([+] on strings, template literals); [++] is kept
    for lists. *)
Infix "+++" := String.append (right associativity, at level 60).

(* ================================================================== *)
(** ** JavaScript values used by the compiler *)

Module JS.

(** [a || b] on a string that may be [undefined] or [null]: the empty
    string is falsy as well. *)
Definition or_else (a : option string) (b : string) : string :=
  match a with
  | Some s => if String.eqb s "" then b else s
  | None => b
  end.

(** [a || null]. *)
Definition or_null (a : option string) : option string :=
  match a with
  | Some s => if String.eqb s "" then None else Some s
  | None => None
  end.

(** [`${a}`] for a string that may be [null]. *)
Definition interpolate (a : option string) : string :=
  match a with
  | Some s => s
  | None => "null"
  end.

(** Numbers as the topological sort meets them: integers, and [NaN]
    (what [undefined - 1] evaluates to). *)
Inductive num : Type :=
| Num (z : Z)
| NaN.

(** [x === 0]. *)
Definition is_zero (x : num) : bool :=
  match x with
  | Num z => Z.eqb z 0
  | NaN => false
  end.

(** [(x || 0) + 1] for [x] a number or [undefined]. *)
Definition or_zero_plus_one (x : option num) : num :=
  match x with
  | Some (Num z) => Num (z + 1)
  | Some NaN => Num 1
  | None => Num 1
  end.

(** [x - 1] for [x] a number or [undefined]. *)
Definition minus_one (x : option num) : num :=
  match x with
  | Some (Num z) => Num (z - 1)
  | Some NaN => NaN
  | None => NaN
  end.

(** [s.repeat(n)] for a count that is not negative. *)
Fixpoint repeat (s : string) (n : nat) : string :=
  match n with
  | O => ""
  | S k => s +++ repeat s k
  end.

(** [xs.join(sep)]. *)
Fixpoint join (sep : string) (xs : list string) : string :=
  match xs with
  | [] => ""
  | [x] => x
  | x :: rest => x +++ sep +++ join sep rest
  end.

End JS.

(* ================================================================== *)
(** ** Insertion-ordered maps ([Map<string, V>]) *)

Section JsMap.

Context {V : Type}.

Definition jsmap : Type := list (string * V).

Fixpoint map_get (m : jsmap) (k : string) : option V :=
  match m with
  | [] => None
  | (k', v) :: rest => if String.eqb k' k then Some v else map_get rest k
  end.

(** [m.set(k, v)]: an existing key keeps its place. *)
Fixpoint map_set (m : jsmap) (k : string) (v : V) : jsmap :=
  match m with
  | [] => [(k, v)]
  | (k', v') :: rest =>
      if String.eqb k' k then (k', v) :: rest
      else (k', v') :: map_set rest k v
  end.

Definition map_has (m : jsmap) (k : string) : bool :=
  match map_get m k with
  | Some _ => true
  | None => false
  end.

Definition map_keys (m : jsmap) : list string := List.map fst m.

End JsMap.

Arguments jsmap V : clear implicits.

(* ================================================================== *)
(** ** The graph model ([src/store/index.ts]) *)

Record NodeData : Type := mkData {
  label : option string;
  componentType : option string;
  components : option (list string)
}.

Record VisualScriptNode : Type := mkNode {
  id : string;
  type : string;
  data : NodeData
}.

Record VisualScriptConnection : Type := mkConn {
  conn_id : string;
  source : string;
  sourceHandle : string;
  target : string;
  targetHandle : string
}.

Record VisualScript : Type := mkScript {
  script_id : string;
  name : string;
  nodes : list VisualScriptNode;
  connections : list VisualScriptConnection
}.

Record CompiledSystem : Type := mkSystem {
  sys_name : string;
  code : string;
  dependencies : list string
}.

(* ================================================================== *)
(** ** Outcomes of a run

    A value, or the exception that ended the run.  [Diverged] is the
    answer of a loop that has used up the rounds it was given; it is what
    [kahn] returns then, and neither [topologicalSort] nor [compile] ever
    does ([topologicalSort_terminates], [compile_never_diverges]). *)

Inductive outcome (A : Type) : Type :=
| Ok (a : A)
| TypeError
| RangeError
| Diverged.

Arguments Ok {A} a.
Arguments TypeError {A}.
Arguments RangeError {A}.
Arguments Diverged {A}.

(* ================================================================== *)
(** ** [topologicalSort] *)

Module Topo.

Definition Graph : Type := jsmap (list string).
Definition InDegree : Type := jsmap JS.num.

(** First loop: one empty adjacency list and a zero per node. *)
Fixpoint initNodes (ns : list VisualScriptNode) (graph : Graph)
    (inDegree : InDegree) : Graph * InDegree :=
  match ns with
  | [] => (graph, inDegree)
  | node :: rest =>
      initNodes rest (map_set graph (id node) [])
                     (map_set inDegree (id node) (JS.Num 0))
  end.

(** Second loop: [graph.get(conn.source)!.push(conn.target)] reads
    [push] of [undefined] when the source has no adjacency list. *)
Fixpoint addEdges (cs : list VisualScriptConnection) (graph : Graph)
    (inDegree : InDegree) : outcome (Graph * InDegree) :=
  match cs with
  | [] => Ok (graph, inDegree)
  | conn :: rest =>
      match map_get graph (source conn) with
      | None => TypeError
      | Some out =>
          addEdges rest
            (map_set graph (source conn) (out ++ [target conn]))
            (map_set inDegree (target conn)
               (JS.or_zero_plus_one (map_get inDegree (target conn))))
      end
  end.

(** [new Map(nodes.map(n => [n.id, n]))]. *)
Fixpoint buildNodeMap (ns : list VisualScriptNode)
    (m : jsmap VisualScriptNode) : jsmap VisualScriptNode :=
  match ns with
  | [] => m
  | n :: rest => buildNodeMap rest (map_set m (id n) n)
  end.

(** Seeding the queue, in the iteration order of [inDegree]. *)
Fixpoint seed (entries : InDegree) : list string :=
  match entries with
  | [] => []
  | (nodeId, degree) :: rest =>
      if JS.is_zero degree then nodeId :: seed rest else seed rest
  end.

(** The inner [for (const neighbor of graph.get(nodeId)!)]. *)
Fixpoint relax (neighbors : list string) (inDegree : InDegree)
    (queue : list string) : InDegree * list string :=
  match neighbors with
  | [] => (inDegree, queue)
  | neighbor :: rest =>
      let degree := JS.minus_one (map_get inDegree neighbor) in
      let inDegree' := map_set inDegree neighbor degree in
      if JS.is_zero degree
      then relax rest inDegree' (queue ++ [neighbor])
      else relax rest inDegree' queue
  end.

(** [while (queue.length > 0)]; [fuel] bounds the number of rounds and
    [Diverged] is the answer when it is used up. *)
Fixpoint kahn (fuel : nat) (graph : Graph)
    (nodeMap : jsmap VisualScriptNode) (inDegree : InDegree)
    (queue : list string) (sorted : list (option VisualScriptNode))
    : outcome (list (option VisualScriptNode)) :=
  match queue with
  | [] => Ok sorted
  | nodeId :: queue' =>
      match fuel with
      | O => Diverged
      | S fuel' =>
          let sorted' := sorted ++ [map_get nodeMap nodeId] in
          match map_get graph nodeId with
          | None => TypeError
          | Some neighbors =>
              let '(inDegree', queue'') := relax neighbors inDegree queue' in
              kahn fuel' graph nodeMap inDegree' queue'' sorted'
          end
      end
  end.

(** The whole method.  A round of the loop takes one id off the queue
    and an id enters the queue only when its counter reaches zero from
    above, so the number of entries of [inDegree] bounds the rounds
    ([kahn_fuel] below). *)
Definition topologicalSort (ns : list VisualScriptNode)
    (cs : list VisualScriptConnection)
    : outcome (list (option VisualScriptNode)) :=
  let '(graph0, inDegree0) := initNodes ns [] [] in
  match addEdges cs graph0 inDegree0 with
  | Ok (graph, inDegree) =>
      kahn (S (length inDegree)) graph (buildNodeMap ns [])
           inDegree (seed inDegree) []
  | TypeError => TypeError
  | RangeError => RangeError
  | Diverged => Diverged
  end.

End Topo.

(* ================================================================== *)
(** ** The compiler object and its monad *)

Record Compiler : Type := mkCompiler {
  indentLevel : Z;
  output : list string;
  nodeOutputs : jsmap string
}.

Definition M (A : Type) : Type := Compiler -> outcome (A * Compiler).

Definition ret {A : Type} (a : A) : M A := fun c => Ok (a, c).

Definition bind {A B : Type} (m : M A) (k : A -> M B) : M B :=
  fun c =>
    match m c with
    | Ok (a, c') => k a c'
    | TypeError => TypeError
    | RangeError => RangeError
    | Diverged => Diverged
    end.

Definition lift {A : Type} (r : outcome A) : M A :=
  fun c =>
    match r with
    | Ok a => Ok (a, c)
    | TypeError => TypeError
    | RangeError => RangeError
    | Diverged => Diverged
    end.

Definition gets {A : Type} (f : Compiler -> A) : M A := fun c => Ok (f c, c).

Declare Scope comp_scope.
Delimit Scope comp_scope with comp.
Notation "x <- m ;; k" := (bind m (fun x => k))
  (at level 61, m at next level, right associativity) : comp_scope.
Notation "m ;; k" := (bind m (fun _ => k))
  (at level 61, right associativity) : comp_scope.
Local Open Scope comp_scope.

(* ================================================================== *)
(** ** The code emitter *)

Definition newline : string := String (ascii_of_nat 10) "".

Definition reset : M unit :=
  fun c => Ok (tt, mkCompiler 0 [] []).

(** ['    '.repeat(this.indentLevel)] raises a [RangeError] on a negative
    count. *)
Definition writeLine (line : string) : M unit :=
  fun c =>
    if (indentLevel c <? 0)%Z then RangeError
    else Ok (tt, mkCompiler (indentLevel c)
                   (output c ++ [JS.repeat "    " (Z.to_nat (indentLevel c)) +++ line])
                   (nodeOutputs c)).

Definition indent : M unit :=
  fun c => Ok (tt, mkCompiler (indentLevel c + 1) (output c) (nodeOutputs c)).

Definition dedent : M unit :=
  fun c => Ok (tt, mkCompiler (indentLevel c - 1) (output c) (nodeOutputs c)).

(** [this.nodeOutputs.set(key, symbol)]. *)
Definition bindSymbol (key symbol : string) : M unit :=
  fun c => Ok (tt, mkCompiler (indentLevel c) (output c)
                     (map_set (nodeOutputs c) key symbol)).

(* ================================================================== *)
(** ** Identifiers *)

Definition in_range (lo hi : nat) (c : ascii) : bool :=
  (lo <=? nat_of_ascii c)%nat && (nat_of_ascii c <=? hi)%nat.

(** The complement of the class [[^a-zA-Z0-9_]]. *)
Definition isIdChar (c : ascii) : bool :=
  in_range 97 122 c || in_range 65 90 c || in_range 48 57 c
  || Ascii.eqb c "_"%char.

(** [id.replace(/[^a-zA-Z0-9_]/g, '_')]. *)
Fixpoint sanitizeId (s : string) : string :=
  match s with
  | EmptyString => EmptyString
  | String c rest =>
      String (if isIdChar c then c else "_"%char) (sanitizeId rest)
  end.

(** The class [[\s-_]] on code units below 256: white space, [-] and [_]. *)
Definition isNameSeparator (c : ascii) : bool :=
  in_range 9 13 c || Nat.eqb (nat_of_ascii c) 32
  || Nat.eqb (nat_of_ascii c) 160
  || Ascii.eqb c "-"%char || Ascii.eqb c "_"%char.

(** [name.split(/[\s-_]+/)]: [cur] is the word being read and [inSep]
    tells that the previous code unit was a separator. *)
Fixpoint splitName (s : string) (cur : string) (inSep : bool) : list string :=
  match s with
  | EmptyString => [cur]
  | String c rest =>
      if isNameSeparator c
      then if inSep then splitName rest cur true
           else cur :: splitName rest "" true
      else splitName rest (cur +++ String c "") false
  end.

(** [toUpperCase] of a string of one code unit below 256, by the case
    mapping of Unicode: the letters 97 to 122, 224 to 246 and 248 to 254
    move down by 32, 223 (sharp s) becomes [SS], and every other code
    unit is its own upper case.  Two code units are the exception: the
    upper case of 181 (micro sign) and of 255 (y with diaeresis) is a
    code unit above 255 (U+039C and U+0178), which the strings of this
    embedding do not hold.  The script names covered are those no word
    of which starts with 181 or 255. *)
Definition toUpperCase (c : ascii) : string :=
  if in_range 97 122 c || in_range 224 246 c || in_range 248 254 c
  then String (ascii_of_nat (nat_of_ascii c - 32)) ""
  else if Nat.eqb (nat_of_ascii c) 223 then "SS"
  else String c "".

(** [word.charAt(0).toUpperCase() + word.slice(1)]; [charAt(0)] of the
    empty word is the empty string. *)
Definition capitalize (word : string) : string :=
  match word with
  | EmptyString => EmptyString
  | String c rest => toUpperCase c +++ rest
  end.

Definition toRustName (n : string) : string :=
  JS.join "" (List.map capitalize (splitName n "" false)).

(* ================================================================== *)
(** ** The connection index *)

Definition ConnectionMap : Type := jsmap (list VisualScriptConnection).

Definition connKey (conn : VisualScriptConnection) : string :=
  source conn +++ "_" +++ sourceHandle conn.

Fixpoint buildConnectionMapFrom (cs : list VisualScriptConnection)
    (m : ConnectionMap) : ConnectionMap :=
  match cs with
  | [] => m
  | conn :: rest =>
      let key := connKey conn in
      let m1 := if map_has m key then m else map_set m key [] in
      let bucket := match map_get m1 key with Some l => l | None => [] end in
      buildConnectionMapFrom rest (map_set m1 key (bucket ++ [conn]))
  end.

Definition buildConnectionMap (cs : list VisualScriptConnection)
    : ConnectionMap :=
  buildConnectionMapFrom cs [].

(** [connections.get(key) || []]. *)
Definition connectionsAt (m : ConnectionMap) (key : string)
    : list VisualScriptConnection :=
  match map_get m key with
  | Some l => l
  | None => []
  end.

Definition feedsInput (nodeId inputName : string)
    (conn : VisualScriptConnection) : bool :=
  String.eqb (target conn) nodeId && String.eqb (targetHandle conn) inputName.

(** The two nested loops of [getInputValue] visit the connections of
    every entry in turn and return at the first one that matches. *)
Definition allConnections (m : ConnectionMap) : list VisualScriptConnection :=
  List.concat (List.map snd m).

(** What [getInputValue] returns, given the compiler object it reads
    [nodeOutputs] from. *)
Definition inputValue (nodeId inputName : string) (m : ConnectionMap)
    (c : Compiler) : option string :=
  match List.find (feedsInput nodeId inputName) (allConnections m) with
  | Some conn => JS.or_null (map_get (nodeOutputs c) (source conn))
  | None => None
  end.

Definition getInputValue (nodeId inputName : string) (m : ConnectionMap)
    : M (option string) :=
  fun c => Ok (inputValue nodeId inputName m c, c).

(* ================================================================== *)
(** ** Node compilers *)

Definition compileUpdateEvent (node : VisualScriptNode) : M unit :=
  bindSymbol (id node) "dt".

Definition compileCollisionEvent (node : VisualScriptNode) : M unit :=
  writeLine "for (entity_a, entity_b) in physics.get_collision_pairs() {" ;;
  indent ;;
  bindSymbol (id node +++ "_a") "entity_a" ;;
  bindSymbol (id node +++ "_b") "entity_b".

Definition compileGetEntities (node : VisualScriptNode) : M unit :=
  let comps :=
    match components (data node) with
    | Some l => l
    | None => ["Transform"]
    end in
  let queryVar := "query_" +++ sanitizeId (id node) in
  let componentTypes := JS.join ", " (List.map (fun c => "&" +++ c) comps) in
  writeLine ("let " +++ queryVar +++ " = world.query::<(" +++ componentTypes
             +++ ")>();") ;;
  bindSymbol (id node) queryVar.

Definition compileGetComponent (node : VisualScriptNode)
    (conns : ConnectionMap) : M unit :=
  entityInput <- getInputValue (id node) "entity" conns ;;
  let cType := JS.or_else (componentType (data node)) "Transform" in
  let outputVar := "comp_" +++ sanitizeId (id node) in
  writeLine ("let " +++ outputVar +++ " = world.get_component::<" +++ cType
             +++ ">(" +++ JS.interpolate entityInput +++ ")?;") ;;
  bindSymbol (id node) outputVar.

Definition compileSetComponent (node : VisualScriptNode)
    (conns : ConnectionMap) : M unit :=
  entityInput <- getInputValue (id node) "entity" conns ;;
  componentInput <- getInputValue (id node) "component" conns ;;
  writeLine ("world.set_component(" +++ JS.interpolate entityInput +++ ", "
             +++ JS.interpolate componentInput +++ ");").

Definition compileMathOperation (node : VisualScriptNode)
    (conns : ConnectionMap) (operator : string) : M unit :=
  a <- getInputValue (id node) "a" conns ;;
  let leftInput := JS.or_else a "0.0" in
  b <- getInputValue (id node) "b" conns ;;
  let rightInput := JS.or_else b "0.0" in
  let outputVar := "result_" +++ sanitizeId (id node) in
  writeLine ("let " +++ outputVar +++ " = " +++ leftInput +++ " " +++ operator
             +++ " " +++ rightInput +++ ";") ;;
  bindSymbol (id node) outputVar.

(** [for (const conn of cs) { const targetNode = nodeMap.get(conn.target);
    if (targetNode) this.compileNode(targetNode, ...) }]; [self] is the
    recursive call. *)
Fixpoint compileTargets (self : VisualScriptNode -> M unit)
    (cs : list VisualScriptConnection) (nodeMap : jsmap VisualScriptNode)
    : M unit :=
  match cs with
  | [] => ret tt
  | conn :: rest =>
      match map_get nodeMap (target conn) with
      | Some targetNode => self targetNode
      | None => ret tt
      end ;;
      compileTargets self rest nodeMap
  end.

Definition compileIfStatement (self : VisualScriptNode -> M unit)
    (node : VisualScriptNode) (conns : ConnectionMap)
    (nodeMap : jsmap VisualScriptNode) : M unit :=
  cond <- getInputValue (id node) "condition" conns ;;
  let conditionInput := JS.or_else cond "false" in
  writeLine ("if " +++ conditionInput +++ " {") ;;
  indent ;;
  let thenConnections := connectionsAt conns (id node +++ "_then") in
  compileTargets self thenConnections nodeMap ;;
  dedent ;;
  let elseConnections := connectionsAt conns (id node +++ "_else") in
  match elseConnections with
  | [] => ret tt
  | _ :: _ =>
      writeLine "} else {" ;;
      indent ;;
      compileTargets self elseConnections nodeMap ;;
      dedent
  end ;;
  writeLine "}".

Definition compileForEach (self : VisualScriptNode -> M unit)
    (node : VisualScriptNode) (conns : ConnectionMap)
    (nodeMap : jsmap VisualScriptNode) : M unit :=
  arrayInput <- getInputValue (id node) "array" conns ;;
  let itemVar := "item_" +++ sanitizeId (id node) in
  writeLine ("for " +++ itemVar +++ " in " +++ JS.interpolate arrayInput
             +++ ".iter() {") ;;
  indent ;;
  bindSymbol (id node +++ "_item") itemVar ;;
  let bodyConnections := connectionsAt conns (id node +++ "_body") in
  compileTargets self bodyConnections nodeMap ;;
  dedent ;;
  writeLine "}".

(** The [switch (node.type)] of [compileNode]. *)
Definition dispatch (self : VisualScriptNode -> M unit)
    (node : VisualScriptNode) (conns : ConnectionMap)
    (nodeMap : jsmap VisualScriptNode) : M unit :=
  if String.eqb (type node) "event/update" then compileUpdateEvent node
  else if String.eqb (type node) "event/collision" then compileCollisionEvent node
  else if String.eqb (type node) "query/get_entities" then compileGetEntities node
  else if String.eqb (type node) "component/get" then compileGetComponent node conns
  else if String.eqb (type node) "component/set" then compileSetComponent node conns
  else if String.eqb (type node) "math/add" then compileMathOperation node conns "+"
  else if String.eqb (type node) "math/multiply" then compileMathOperation node conns "*"
  else if String.eqb (type node) "flow/if" then compileIfStatement self node conns nodeMap
  else if String.eqb (type node) "flow/foreach" then compileForEach self node conns nodeMap
  else writeLine ("// TODO: Implement node type " +++ type node).

(** [node.data.label || node.type]. *)
Definition nodeTitle (node : VisualScriptNode) : string :=
  JS.or_else (label (data node)) (type node).

(** [compileNode]; [depth] is the number of nested calls of [compileNode]
    that fit on the call stack. *)
Fixpoint compileNode (depth : nat) (node : VisualScriptNode)
    (conns : ConnectionMap) (nodeMap : jsmap VisualScriptNode) : M unit :=
  match depth with
  | O => fun _ => RangeError
  | S depth' =>
      writeLine ("// Node: " +++ nodeTitle node) ;;
      dispatch (fun n => compileNode depth' n conns nodeMap) node conns nodeMap ;;
      writeLine ""
  end.

(* ================================================================== *)
(** ** [extractDependencies] and [compile] *)

(** [deps.add(x)] on a [Set], which keeps insertion order. *)
Definition set_add (deps : list string) (x : string) : list string :=
  if List.existsb (String.eqb x) deps then deps else deps ++ [x].

Fixpoint extractDependenciesFrom (ns : list VisualScriptNode)
    (deps : list string) : list string :=
  match ns with
  | [] => deps
  | node :: rest =>
      let deps1 :=
        match componentType (data node) with
        | Some t => if String.eqb t "" then deps else set_add deps t
        | None => deps
        end in
      let deps2 :=
        if String.eqb (type node) "physics/raycast" then set_add deps1 "physics"
        else if String.eqb (type node) "audio/play" then set_add deps1 "audio"
        else deps1 in
      extractDependenciesFrom rest deps2
  end.

Definition extractDependencies (ns : list VisualScriptNode) : list string :=
  extractDependenciesFrom ns [].

(** [for (const node of sortedNodes) this.compileNode(node, ...)]; an
    [undefined] entry would fail on reading [node.data]. *)
Fixpoint compileSorted (depth : nat)
    (sortedNodes : list (option VisualScriptNode)) (conns : ConnectionMap)
    (nodeMap : jsmap VisualScriptNode) : M unit :=
  match sortedNodes with
  | [] => ret tt
  | Some node :: rest =>
      compileNode depth node conns nodeMap ;;
      compileSorted depth rest conns nodeMap
  | None :: _ => fun _ => TypeError
  end.

Definition compile (depth : nat) (script : VisualScript) : M CompiledSystem :=
  reset ;;
  let nodeMap := Topo.buildNodeMap (nodes script) [] in
  let connectionMap := buildConnectionMap (connections script) in
  sortedNodes <- lift (Topo.topologicalSort (nodes script) (connections script)) ;;
  writeLine ("pub struct " +++ toRustName (name script) +++ "System {") ;;
  indent ;;
  writeLine "// System state" ;;
  dedent ;;
  writeLine "}" ;;
  writeLine "" ;;
  writeLine ("impl System for " +++ toRustName (name script) +++ "System {") ;;
  indent ;;
  writeLine "fn execute(&mut self, world: &mut World, physics: &mut PhysicsWorld, dt: f32) {" ;;
  indent ;;
  compileSorted depth sortedNodes connectionMap nodeMap ;;
  dedent ;;
  writeLine "}" ;;
  dedent ;;
  writeLine "}" ;;
  out <- gets output ;;
  ret (mkSystem (name script) (JS.join newline out)
         (extractDependencies (nodes script))).

(** A fresh compiler object ([new VisualScriptCompiler()]). *)
Definition newCompiler : Compiler := mkCompiler 0 [] [].

(* ================================================================== *)
(** * Vocabulary of the properties *)

Import Topo.

(* ------------------------------------------------------------------ *)
(** ** The topological sort *)

Definition mem (x : string) (l : list string) : bool :=
  List.existsb (String.eqb x) l.

(** Connections into [v] whose source is not among [done]. *)
Definition pending (cs : list VisualScriptConnection) (done : list string)
    (v : string) : nat :=
  length (List.filter
            (fun c => String.eqb (target c) v && negb (mem (source c) done))
            cs).

(** Targets of the connections leaving [u], in declaration order. *)
Definition successors (cs : list VisualScriptConnection) (u : string)
    : list string :=
  List.map target (List.filter (fun c => String.eqb (source c) u) cs).

Definition occ (l : list string) (v : string) : nat :=
  List.count_occ string_dec l v.

(** The counters of [inDegree] are given by [f]; an id without a
    counter has none to give. *)
Definition counts (inDegree : InDegree) (f : string -> nat) : Prop :=
  forall v,
    match map_get inDegree v with
    | Some d => d = JS.Num (Z.of_nat (f v))
    | None => f v = 0%nat
    end.

Definition incoming (cs : list VisualScriptConnection) (v : string) : nat :=
  length (List.filter (fun c => String.eqb (target c) v) cs).

(** The invariant of the [while] loop of [topologicalSort]; [done] is the
    list of ids already moved to [sorted]. *)
Record Inv (cs : list VisualScriptConnection) (keys : list string)
    (inDeg : InDegree) (queue done : list string) : Prop := {
  inv_counts : counts inDeg (pending cs done);
  inv_keys : map_keys inDeg = keys;
  inv_nodup : NoDup (done ++ queue);
  inv_ready : forall x, In x (done ++ queue) -> pending cs done x = 0%nat;
  inv_complete : forall v, In v keys -> pending cs done v = 0%nat ->
                           In v (done ++ queue);
  inv_order : forall s1 v s2, done = s1 ++ v :: s2 -> pending cs s1 v = 0%nat;
  inv_in_keys : forall x, In x (done ++ queue) -> In x keys
}.

Definition nodeIds (ns : list VisualScriptNode) : list string :=
  List.map id ns.

(** [done] lists the ids of the result: no id twice, node ids only, the
    source of a connection before its target, and the id of a node or of
    the target of a connection is left out only when a connection into
    it comes from an id that is left out. *)
Record Sorted (ns : list VisualScriptNode)
    (cs : list VisualScriptConnection) (done : list string) : Prop := {
  sorted_nodup : NoDup done;
  sorted_ids : forall x, In x done -> In x (nodeIds ns);
  sorted_order : forall c, In c cs -> In (target c) done ->
    exists s1 s2, done = s1 ++ target c :: s2 /\ In (source c) s1;
  sorted_left_out : forall v,
    In v (nodeIds ns) \/ In v (List.map target cs) -> ~ In v done ->
    exists c, In c cs /\ target c = v /\ ~ In (source c) done
}.

(* ------------------------------------------------------------------ *)
(** ** Graphs *)

(** A connection leads from [u] to [v]. *)
Definition edge (cs : list VisualScriptConnection) (u v : string) : Prop :=
  exists c, In c cs /\ source c = u /\ target c = v.

(** A path of one connection or more. *)
Inductive reach (cs : list VisualScriptConnection) : string -> string -> Prop :=
| reach_edge u v : edge cs u v -> reach cs u v
| reach_step u w v : edge cs u w -> reach cs w v -> reach cs u v.

Definition onCycle (cs : list VisualScriptConnection) (v : string) : Prop :=
  reach cs v v.

Definition acyclic (cs : list VisualScriptConnection) : Prop :=
  forall v, ~ reach cs v v.

(** [v] is on a cycle or can be reached from one. *)
Definition behindCycle (cs : list VisualScriptConnection) (v : string) : Prop :=
  exists u, onCycle cs u /\ reach cs u v.

(** Every connection leaves a node of the graph. *)
Definition sourcesKnown (ns : list VisualScriptNode)
    (cs : list VisualScriptConnection) : Prop :=
  forall c, In c cs -> In (source c) (nodeIds ns).

(** The invariant of a connection in the data model: both ends are
    nodes of the graph. *)
Definition wellFormed (ns : list VisualScriptNode)
    (cs : list VisualScriptConnection) : Prop :=
  forall c, In c cs -> In (source c) (nodeIds ns) /\ In (target c) (nodeIds ns).

(** The synthetic handles are read as written: a connection whose key is
    the id of a node followed by [_then], [_else] or [_body] leaves that
    node.  (The key joins source and handle with [_], so an id or a handle
    with [_] in it can make the key of one node out of the connection of
    another.) *)
Definition handlesClear (ns : list VisualScriptNode)
    (cs : list VisualScriptConnection) : Prop :=
  forall conn n suffix,
    In conn cs -> In n ns -> In suffix ["_then"; "_else"; "_body"] ->
    connKey conn = id n +++ suffix -> source conn = id n.

(** [u] stands before [v] in [l]. *)
Definition before {A : Type} (l : list A) (u v : A) : Prop :=
  exists s1 s2 s3, l = s1 ++ u :: s2 ++ v :: s3.

(** Consecutive members are joined by a connection. *)
Inductive chain (cs : list VisualScriptConnection) : list string -> Prop :=
| chain_one v : chain cs [v]
| chain_cons u v p : edge cs u v -> chain cs (v :: p) -> chain cs (u :: v :: p).

(* ------------------------------------------------------------------ *)
(** ** Lines and runs *)

(** The indentation written in front of a line at level [k]. *)
Definition pad (k : Z) : string := JS.repeat "    " (Z.to_nat k).

(** The first line [compileNode] writes for [node] at level [k]. *)
Definition headerLine (k : Z) (node : VisualScriptNode) : string :=
  pad k +++ "// Node: " +++ nodeTitle node.

(** The run of [m] from [c] ends in [c'] and appends [lines]. *)
Definition emits (m : M unit) (c : Compiler) (lines : list string)
    (c' : Compiler) : Prop :=
  m c = Ok (tt, c') /\ output c' = output c ++ lines.

(** The runs of [self] on the targets of [cs], one after the other in
    the order of [cs]; a target that is not a node of the graph
    contributes no line. *)
Inductive emitsEach (self : VisualScriptNode -> M unit)
    (nodeMap : jsmap VisualScriptNode)
    : list VisualScriptConnection -> Compiler -> list (list string)
      -> Compiler -> Prop :=
| emitsEach_nil c : emitsEach self nodeMap [] c [] c
| emitsEach_node conn rest targetNode c blk c1 blks c2 :
    map_get nodeMap (target conn) = Some targetNode ->
    emits (self targetNode) c blk c1 ->
    emitsEach self nodeMap rest c1 blks c2 ->
    emitsEach self nodeMap (conn :: rest) c (blk :: blks) c2
| emitsEach_skip conn rest c blks c2 :
    map_get nodeMap (target conn) = None ->
    emitsEach self nodeMap rest c blks c2 ->
    emitsEach self nodeMap (conn :: rest) c ([] :: blks) c2.

(** The run ends with a value or with a [RangeError]. *)
Definition valueOrRange {A : Type} (r : outcome A) : Prop :=
  match r with
  | Ok _ | RangeError => True
  | TypeError | Diverged => False
  end.

(** [c'] has the lines of [c] and more, at a level that is not lower. *)
Definition grows (c c' : Compiler) : Prop :=
  (indentLevel c <= indentLevel c')%Z
  /\ exists lines, output c' = output c ++ lines.

(** The compiler object once [line] is written and the level raised. *)
Definition opened (c : Compiler) (line : string) : Compiler :=
  mkCompiler (indentLevel c + 1) (output c ++ [pad (indentLevel c) +++ line])
    (nodeOutputs c).

(** The compiler object once the header of [node] is written. *)
Definition headed (c : Compiler) (node : VisualScriptNode) : Compiler :=
  mkCompiler (indentLevel c)
    (output c ++ [headerLine (indentLevel c) node]) (nodeOutputs c).

(** The compiler object one level lower. *)
Definition lowered (c : Compiler) : Compiler :=
  mkCompiler (indentLevel c - 1) (output c) (nodeOutputs c).

(** The opening line of a [flow/if] node compiled from [c]. *)
Definition ifLine (node : VisualScriptNode) (conns : ConnectionMap)
    (c : Compiler) : string :=
  "if " +++ JS.or_else (inputValue (id node) "condition" conns c) "false"
  +++ " {".

(** The opening line of a [flow/foreach] node compiled from [c]. *)
Definition forLine (node : VisualScriptNode) (conns : ConnectionMap)
    (c : Compiler) : string :=
  "for " +++ ("item_" +++ sanitizeId (id node)) +++ " in "
  +++ JS.interpolate (inputValue (id node) "array" conns c) +++ ".iter() {".

(** A line without the indentation in front of it. *)
Fixpoint stripIndent (s : string) : string :=
  match s with
  | EmptyString => EmptyString
  | String ch rest => if Ascii.eqb ch " "%char then stripIndent rest else s
  end.

(** [line] is the header of [node], at whatever level. *)
Definition isHeaderOf (node : VisualScriptNode) (line : string) : bool :=
  String.eqb (stripIndent line) ("// Node: " +++ nodeTitle node).

(** How many headers of [node] the lines hold: one per call of
    [compileNode] on a node of this title. *)
Definition headerCount (node : VisualScriptNode) (lines : list string) : nat :=
  length (List.filter (isHeaderOf node) lines).

(* ------------------------------------------------------------------ *)
(** ** Nested nodes *)

(** The nodes [compileTargets] calls [compileNode] on. *)
Definition foundTargets (nodeMap : jsmap VisualScriptNode)
    (cs : list VisualScriptConnection) : list VisualScriptNode :=
  List.flat_map
    (fun conn => match map_get nodeMap (target conn) with
                 | Some n => [n]
                 | None => []
                 end) cs.

(** The nodes compiled inside the block of [node]. *)
Definition nested (conns : ConnectionMap) (nodeMap : jsmap VisualScriptNode)
    (node : VisualScriptNode) : list VisualScriptNode :=
  if String.eqb (type node) "flow/if"
  then foundTargets nodeMap (connectionsAt conns (id node +++ "_then"))
       ++ foundTargets nodeMap (connectionsAt conns (id node +++ "_else"))
  else if String.eqb (type node) "flow/foreach"
  then foundTargets nodeMap (connectionsAt conns (id node +++ "_body"))
  else [].

(** The blocks nested below [node] are at most [depth] deep, [node]
    included. *)
Fixpoint fits (depth : nat) (conns : ConnectionMap)
    (nodeMap : jsmap VisualScriptNode) (node : VisualScriptNode) : bool :=
  match depth with
  | O => false
  | S depth' =>
      List.forallb (fits depth' conns nodeMap) (nested conns nodeMap node)
  end.

(** No [event/collision] node is compiled by [compileNode depth] on
    [node], below it included. *)
Fixpoint calm (depth : nat) (conns : ConnectionMap)
    (nodeMap : jsmap VisualScriptNode) (node : VisualScriptNode) : bool :=
  match depth with
  | O => true
  | S depth' =>
      negb (String.eqb (type node) "event/collision")
      && List.forallb (calm depth' conns nodeMap) (nested conns nodeMap node)
  end.

(* ------------------------------------------------------------------ *)
(** ** The result of [compile] *)

(** The two maps [compile] builds from a script. *)
Definition nodeMapOf (script : VisualScript) : jsmap VisualScriptNode :=
  buildNodeMap (nodes script) [].

Definition connectionMapOf (script : VisualScript) : ConnectionMap :=
  buildConnectionMap (connections script).

(** [blk] is what one run of [compileNode] on [node] appends. *)
Definition blockOf (depth : nat) (conns : ConnectionMap)
    (nodeMap : jsmap VisualScriptNode) (node : VisualScriptNode)
    (blk : list string) : Prop :=
  exists c c', emits (compileNode depth node conns nodeMap) c blk c'.

(** The lines [compile] writes before the main pass. *)
Definition prelude (script : VisualScript) : list string :=
  [ pad 0 +++ "pub struct " +++ toRustName (name script) +++ "System {";
    pad 1 +++ "// System state";
    pad 0 +++ "}";
    pad 0 +++ "";
    pad 0 +++ "impl System for " +++ toRustName (name script) +++ "System {";
    pad 1 +++ "fn execute(&mut self, world: &mut World, physics: &mut PhysicsWorld, dt: f32) {" ].

(** The two closing lines [compile] writes after the main pass, which
    ends at level [k]. *)
Definition coda (k : Z) : list string :=
  [ pad (k - 1) +++ "}"; pad (k - 2) +++ "}" ].

(** The blocks of the main pass, each with the node it is the block of. *)
Definition mainBlocks (depth : nat) (script : VisualScript)
    (bs : list (VisualScriptNode * list string)) : Prop :=
  List.Forall
    (fun b => In (fst b) (nodes script)
              /\ blockOf depth (connectionMapOf script) (nodeMapOf script)
                   (fst b) (snd b)
              /\ exists k rest, snd b = headerLine k (fst b) :: rest) bs.

(* ------------------------------------------------------------------ *)
(** ** Identifiers and math nodes *)

(** The characters of the class [[A-Za-z0-9_]], written out. *)
Definition idAlphabet : list ascii :=
  list_ascii_of_string
    "ABCDEFGHIJKLMNOPQRSTUVWXYZabcdefghijklmnopqrstuvwxyz0123456789_".

Definition inAlphabet (c : ascii) : bool :=
  List.existsb (Ascii.eqb c) idAlphabet.

(** The operator [compileNode] passes to [compileMathOperation]. *)
Definition mathOperator (node : VisualScriptNode) : option string :=
  if String.eqb (type node) "math/add" then Some "+"
  else if String.eqb (type node) "math/multiply" then Some "*"
  else None.

(** No connection of the index ends at input [h] of node [nodeId]. *)
Definition unconnected (nodeId h : string) (conns : ConnectionMap) : Prop :=
  forall conn, In conn (allConnections conns) ->
               ~ (target conn = nodeId /\ targetHandle conn = h).

(** The symbol a math node binds. *)
Definition resultVar (node : VisualScriptNode) : string :=
  "result_" +++ sanitizeId (id node).

(* ------------------------------------------------------------------ *)
(** ** Scripts *)

(** Three nodes in a row, declared last to first. *)
Definition pipelineScript : VisualScript :=
  mkScript "s9" "pipeline"
    [ mkNode "B" "math/multiply" (mkData None None None);
      mkNode "A" "math/add" (mkData None None None);
      mkNode "U" "event/update" (mkData None None None) ]
    [ mkConn "c1" "A" "result" "B" "a";
      mkConn "c2" "U" "dt" "A" "a" ].

(** A branch with one node on each side. *)
Definition branchScript : VisualScript :=
  mkScript "s8" "branch"
    [ mkNode "I" "flow/if" (mkData None None None);
      mkNode "T" "math/add" (mkData (Some "then side") None None);
      mkNode "E" "math/multiply" (mkData (Some "else side") None None) ]
    [ mkConn "c1" "I" "then" "T" "exec";
      mkConn "c2" "I" "else" "E" "exec" ].

(** A node below a branch. *)
Definition nestedScript : VisualScript :=
  mkScript "s10" "nested"
    [ mkNode "I" "flow/if" (mkData (Some "branch") None None);
      mkNode "M" "math/add" (mkData (Some "sum") None None) ]
    [ mkConn "c1" "I" "then" "M" "exec" ].

(** Two nodes whose ids differ in one character outside the class, and
    a third that reads the first. *)
Definition clashScript : VisualScript :=
  mkScript "s1" "clash"
    [ mkNode "a.b" "math/add" (mkData None None None);
      mkNode "a_b" "math/add" (mkData None None None);
      mkNode "d" "math/add" (mkData None None None) ]
    [ mkConn "c1" "a.b" "result" "d" "a" ].

(** A script with one collision event. *)
Definition collisionScript : VisualScript :=
  mkScript "s2" "hit"
    [ mkNode "hit" "event/collision" (mkData None None None) ] [].

(** Two nodes, each reading the result of the other. *)
Definition cycleScript : VisualScript :=
  mkScript "s6" "cycle"
    [ mkNode "A" "math/add" (mkData None None None);
      mkNode "B" "math/add" (mkData None None None) ]
    [ mkConn "c1" "A" "result" "B" "a";
      mkConn "c2" "B" "result" "A" "a" ].

(** A cycle of two nodes behind a node that is free of it. *)
Definition halfCycleScript : VisualScript :=
  mkScript "s7" "half"
    [ mkNode "A" "math/add" (mkData None None None);
      mkNode "B" "math/add" (mkData None None None);
      mkNode "F" "event/update" (mkData None None None) ]
    [ mkConn "c1" "A" "result" "B" "a";
      mkConn "c2" "B" "result" "A" "a" ].

(** A connection to a node that does not exist, leaving a node that
    waits for itself. *)
Definition danglingScript : VisualScript :=
  mkScript "s3" "dangling"
    [ mkNode "A" "math/add" (mkData None None None) ]
    [ mkConn "c1" "A" "result" "A" "a";
      mkConn "c2" "A" "result" "ghost" "a" ].

(** A connection to a node that does not exist, leaving a node that is
    compiled. *)
Definition ghostTargetScript : VisualScript :=
  mkScript "s4" "ghost target"
    [ mkNode "A" "math/add" (mkData None None None) ]
    [ mkConn "c1" "A" "result" "ghost" "a" ].

(** A connection from a node that does not exist. *)
Definition ghostSourceScript : VisualScript :=
  mkScript "s5" "ghost source"
    [ mkNode "A" "math/add" (mkData None None None) ]
    [ mkConn "c1" "ghost" "result" "A" "a" ].

(** A branch whose [then] side leads into a cycle of two nodes. *)
Definition branchIntoCycleScript : VisualScript :=
  mkScript "s16" "into cycle"
    [ mkNode "F" "flow/if" (mkData None None None);
      mkNode "A" "math/add" (mkData None None None);
      mkNode "B" "math/add" (mkData None None None) ]
    [ mkConn "c0" "F" "then" "A" "exec";
      mkConn "c1" "A" "result" "B" "a";
      mkConn "c2" "B" "result" "A" "a" ].


(** A connection whose key reads as the [_then] handle of the node it
    ends at: source [a] and handle [b_then] give the key [a_b_then] of the
    node [a_b]. *)
Definition echoScript : VisualScript :=
  mkScript "s11" "echo"
    [ mkNode "a" "event/update" (mkData None None None);
      mkNode "a_b" "flow/if" (mkData None None None) ]
    [ mkConn "c1" "a" "b_then" "a_b" "exec" ].

(* ------------------------------------------------------------------ *)
(** ** Names and dependencies *)

(** Every code unit of [s] satisfies [p]. *)
Fixpoint allChars (p : ascii -> bool) (s : string) : bool :=
  match s with
  | EmptyString => true
  | String c rest => p c && allChars p rest
  end.

(** A code unit that [toRustName] does not split at. *)
Definition isWordChar (c : ascii) : bool := negb (isNameSeparator c).

(** [d] is asked for by a node of [ns]: it is the component type of a
    node, or the subsystem of a raycast or of a sound node. *)
Definition requires (ns : list VisualScriptNode) (d : string) : Prop :=
  (d <> "" /\ exists n, In n ns /\ componentType (data n) = Some d)
  \/ (d = "physics" /\ exists n, In n ns /\ type n = "physics/raycast")
  \/ (d = "audio" /\ exists n, In n ns /\ type n = "audio/play").

(* ------------------------------------------------------------------ *)
(** ** Inputs and symbols *)

(** The connections of [cs] that end at input [h] of node [nodeId]. *)
Definition feeders (nodeId h : string) (cs : list VisualScriptConnection)
    : list VisualScriptConnection :=
  List.filter (feedsInput nodeId h) cs.

(** The symbol [compileNode] binds to the id of a node that yields a
    value. *)
Definition producedSymbol (node : VisualScriptNode) : option string :=
  if String.eqb (type node) "event/update" then Some "dt"
  else if String.eqb (type node) "query/get_entities"
  then Some ("query_" +++ sanitizeId (id node))
  else if String.eqb (type node) "component/get"
  then Some ("comp_" +++ sanitizeId (id node))
  else if String.eqb (type node) "math/add"
  then Some ("result_" +++ sanitizeId (id node))
  else if String.eqb (type node) "math/multiply"
  then Some ("result_" +++ sanitizeId (id node))
  else None.

(** The node types [compileNode] has a case for. *)
Definition implementedTypes : list string :=
  [ "event/update"; "event/collision"; "query/get_entities"; "component/get";
    "component/set"; "math/add"; "math/multiply"; "flow/if"; "flow/foreach" ].

(** A Rust identifier: a letter or [_], then letters, digits and [_]. *)
Definition isIdentifier (s : string) : bool :=
  match s with
  | EmptyString => false
  | String c rest =>
      negb (in_range 48 57 c) && isIdChar c && allChars isIdChar rest
  end.

(** Every symbol of the table is an identifier. *)
Definition validSymbols (m : jsmap string) : Prop :=
  forall k v, map_get m k = Some v -> isIdentifier v = true.

(** A run of [m] that starts with identifiers in the symbol table ends
    with identifiers in it. *)
Definition keepsSymbols (m : M unit) : Prop :=
  forall c u c',
    m c = Ok (u, c') ->
    validSymbols (nodeOutputs c) -> validSymbols (nodeOutputs c').

(* ------------------------------------------------------------------ *)
(** ** Margins and roots *)

(** [line] starts with the indentation of level [k]. *)
Definition indentedAt (k : Z) (line : string) : Prop :=
  exists rest, line = pad k +++ rest.

(** A run of [m] appends lines that start with the indentation of the
    level it starts at. *)
Definition keepsMargin (m : M unit) : Prop :=
  forall c u c',
    m c = Ok (u, c') ->
    exists lines,
      output c' = output c ++ lines
      /\ List.Forall (indentedAt (indentLevel c)) lines.

(** No connection ends at [node]. *)
Definition isRoot (cs : list VisualScriptConnection) (node : VisualScriptNode)
    : bool :=
  Nat.eqb (incoming cs (id node)) 0.

(* ------------------------------------------------------------------ *)
(** ** More scripts *)

(** A cycle of two nodes, a node that reads one of them, and a node
    that is free of them. *)
Definition tailCycleScript : VisualScript :=
  mkScript "s12" "tail"
    [ mkNode "A" "math/add" (mkData None None None);
      mkNode "B" "math/add" (mkData None None None);
      mkNode "D" "math/multiply" (mkData None None None);
      mkNode "F" "event/update" (mkData None None None) ]
    [ mkConn "c1" "A" "result" "B" "a";
      mkConn "c2" "B" "result" "A" "a";
      mkConn "c3" "B" "result" "D" "a" ].

(** A query, a loop over its entities, and one node in the loop. *)
Definition loopScript : VisualScript :=
  mkScript "s13" "loop"
    [ mkNode "Q" "query/get_entities"
        (mkData None None (Some ["Transform"; "Velocity"]));
      mkNode "L" "flow/foreach" (mkData (Some "each entity") None None);
      mkNode "M" "math/add" (mkData (Some "step") None None) ]
    [ mkConn "c1" "Q" "entities" "L" "array";
      mkConn "c2" "L" "body" "M" "exec" ].

(** Three nodes and no connection. *)
Definition looseScript : VisualScript :=
  mkScript "s14" "loose ends"
    [ mkNode "S" "component/set" (mkData None None None);
      mkNode "K" "audio/play" (mkData None (Some "Sound") None);
      mkNode "G" "component/get" (mkData (Some "") None None) ]
    [].

(** Two nodes, each reading the other; one of them names a component
    type. *)
Definition idleCycleScript : VisualScript :=
  mkScript "s15" "idle cycle"
    [ mkNode "A" "component/get" (mkData None (Some "Health") None);
      mkNode "B" "math/add" (mkData None None None) ]
    [ mkConn "c1" "A" "value" "B" "a";
      mkConn "c2" "B" "result" "A" "entity" ].

(* ================================================================== *)
(** * Properties *)

(* ================================================================== *)
(** ** Facts about insertion-ordered maps *)

Section JsMapFacts.

Context {V : Type}.
Implicit Types (m : jsmap V) (k : string) (v : V).

Lemma map_get_set_same m k v : map_get (map_set m k v) k = Some v.
Proof.
  induction m as [|[k' v'] m IH]; simpl.
  - now rewrite String.eqb_refl.
  - destruct (String.eqb k' k) eqn:E; simpl; rewrite E; auto.
Qed.

Lemma map_get_set_other m k k' v :
  k <> k' -> map_get (map_set m k v) k' = map_get m k'.
Proof.
  intros Hne. induction m as [|[k0 v0] m IH]; simpl.
  - apply String.eqb_neq in Hne. now rewrite Hne.
  - destruct (String.eqb k0 k) eqn:E; simpl.
    + apply String.eqb_eq in E. subst k0.
      apply String.eqb_neq in Hne. now rewrite Hne.
    + now rewrite IH.
Qed.

Lemma map_get_In_keys m k :
  In k (map_keys m) <-> map_get m k <> None.
Proof.
  induction m as [|[k0 v0] m IH]; simpl.
  - split; [tauto | congruence].
  - destruct (String.eqb k0 k) eqn:E.
    + apply String.eqb_eq in E. split; [congruence | auto].
    + apply String.eqb_neq in E. rewrite <- IH. tauto.
Qed.

Lemma map_get_None_keys m k :
  map_get m k = None <-> ~ In k (map_keys m).
Proof.
  rewrite map_get_In_keys. destruct (map_get m k); split; intros H.
  - discriminate.
  - exfalso. apply H. discriminate.
  - intros H'. now apply H'.
  - reflexivity.
Qed.

Lemma map_keys_set_present m k v :
  map_get m k <> None -> map_keys (map_set m k v) = map_keys m.
Proof.
  induction m as [|[k0 v0] m IH]; simpl; [congruence|].
  destruct (String.eqb k0 k) eqn:E; simpl; intros H; [reflexivity|].
  now rewrite IH.
Qed.

Lemma map_keys_set_absent m k v :
  map_get m k = None -> map_keys (map_set m k v) = map_keys m ++ [k].
Proof.
  induction m as [|[k0 v0] m IH]; simpl; [reflexivity|].
  destruct (String.eqb k0 k) eqn:E; simpl; intros H; [discriminate|].
  now rewrite IH.
Qed.

Lemma map_keys_set_In m k v x :
  In x (map_keys (map_set m k v)) <-> In x (map_keys m) \/ x = k.
Proof.
  destruct (map_get m k) eqn:E.
  - rewrite map_keys_set_present by congruence.
    split; [tauto|]. intros [H| ->]; [assumption|].
    apply map_get_In_keys. congruence.
  - rewrite map_keys_set_absent by assumption.
    rewrite in_app_iff. simpl. intuition congruence.
Qed.

Lemma map_set_NoDup m k v :
  NoDup (map_keys m) -> NoDup (map_keys (map_set m k v)).
Proof.
  intros H. destruct (map_get m k) eqn:E.
  - rewrite map_keys_set_present by congruence. assumption.
  - rewrite map_keys_set_absent by assumption.
    apply NoDup_app; [assumption | constructor; [intros [] | constructor] |].
    intros a Ha [<-|[]]. apply map_get_None_keys in E. contradiction.
Qed.

End JsMapFacts.

Lemma map_get_In_entry {V : Type} (m : jsmap V) k v :
  map_get m k = Some v -> In (k, v) m.
Proof.
  induction m as [|[k0 v0] m IH]; simpl; [discriminate|].
  destruct (String.eqb k0 k) eqn:E.
  - apply String.eqb_eq in E. intros H. inversion H; subst. now left.
  - intros H. right. now apply IH.
Qed.

Lemma map_get_of_entry {V : Type} (m : jsmap V) k v :
  NoDup (map_keys m) -> In (k, v) m -> map_get m k = Some v.
Proof.
  induction m as [|[k0 v0] m IH]; simpl; [tauto|].
  intros Hn [E|Hin].
  - inversion E; subst. now rewrite String.eqb_refl.
  - inversion Hn as [|? ? Hk Hm]; subst.
    destruct (String.eqb k0 k) eqn:E; [|now apply IH].
    apply String.eqb_eq in E. subst k0. exfalso. apply Hk.
    apply in_map_iff. now exists (k, v).
Qed.

(* ================================================================== *)
(** ** The topological sort *)

Lemma mem_In x l : mem x l = true <-> In x l.
Proof.
  unfold mem. rewrite existsb_exists. split.
  - intros [y [Hy E]]. apply String.eqb_eq in E. now subst.
  - intros H. exists x. split; [assumption | apply String.eqb_refl].
Qed.

Lemma mem_not_In x l : mem x l = false <-> ~ In x l.
Proof.
  rewrite <- mem_In. destruct (mem x l); split; congruence.
Qed.

Lemma occ_cons_same l v : occ (v :: l) v = S (occ l v).
Proof. unfold occ. simpl. destruct (string_dec v v); congruence. Qed.

Lemma occ_cons_other l u v : u <> v -> occ (u :: l) v = occ l v.
Proof. unfold occ. simpl. destruct (string_dec u v); congruence. Qed.

Lemma occ_In l v : In v l <-> (0 < occ l v)%nat.
Proof. unfold occ. apply count_occ_In. Qed.

Lemma pending_cons c cs done v :
  pending (c :: cs) done v =
  ((if String.eqb (target c) v && negb (mem (source c) done) then 1 else 0)
   + pending cs done v)%nat.
Proof.
  unfold pending. simpl.
  destruct (String.eqb (target c) v && negb (mem (source c) done)); reflexivity.
Qed.

Lemma successors_cons c cs u :
  successors (c :: cs) u =
  if String.eqb (source c) u then target c :: successors cs u
  else successors cs u.
Proof.
  unfold successors. simpl. destruct (String.eqb (source c) u); reflexivity.
Qed.

Lemma pending_split cs done w v :
  mem w done = false ->
  pending cs done v = (pending cs (w :: done) v + occ (successors cs w) v)%nat.
Proof.
  intros Hw. induction cs as [|c cs IH]; [reflexivity|].
  rewrite !pending_cons, successors_cons, IH.
  change (mem (source c) (w :: done))
    with (String.eqb (source c) w || mem (source c) done).
  destruct (String.eqb (source c) w) eqn:Es.
  - apply String.eqb_eq in Es. rewrite Es, Hw.
    destruct (String.eqb (target c) v) eqn:Et.
    + apply String.eqb_eq in Et. rewrite Et, occ_cons_same. simpl. lia.
    + apply String.eqb_neq in Et. rewrite occ_cons_other by assumption.
      simpl. lia.
  - rewrite orb_false_l. lia.
Qed.

Lemma pending_zero cs done v :
  pending cs done v = 0%nat <->
  (forall c, In c cs -> target c = v -> In (source c) done).
Proof.
  induction cs as [|c cs IH].
  - split; [intros _ c [] | reflexivity].
  - rewrite pending_cons. split.
    + intros H c' [<-|Hin] Ht.
      * apply String.eqb_eq in Ht. rewrite Ht in H. simpl in H.
        destruct (mem (source c) done) eqn:E; [now apply mem_In|discriminate].
      * apply IH; [lia | assumption | assumption].
    + intros H.
      assert (Hrest : pending cs done v = 0%nat).
      { apply IH. intros c' Hin. apply H. now right. }
      rewrite Hrest.
      destruct (String.eqb (target c) v) eqn:Et; [|reflexivity].
      apply String.eqb_eq in Et.
      assert (Hin : In (source c) done) by (apply H; [now left|assumption]).
      apply mem_In in Hin. now rewrite Hin.
Qed.

Lemma pending_mono cs d1 d2 v :
  incl d1 d2 -> (pending cs d2 v <= pending cs d1 v)%nat.
Proof.
  intros Hi. induction cs as [|c cs IH]; [reflexivity|].
  rewrite !pending_cons.
  destruct (String.eqb (target c) v); simpl; [|assumption].
  destruct (mem (source c) d1) eqn:E1; simpl.
  - apply mem_In in E1. apply Hi in E1. apply mem_In in E1. now rewrite E1.
  - destruct (mem (source c) d2); simpl; lia.
Qed.

Lemma pending_ext cs d1 d2 v :
  (forall x, In x d1 <-> In x d2) -> pending cs d1 v = pending cs d2 v.
Proof.
  intros H. apply Nat.le_antisymm; apply pending_mono; intros x Hx; now apply H.
Qed.

Lemma pending_pos cs done v :
  pending cs done v <> 0%nat ->
  exists c, In c cs /\ target c = v /\ ~ In (source c) done.
Proof.
  induction cs as [|c cs IH]; [intros H; now elim H|].
  rewrite pending_cons.
  destruct (String.eqb (target c) v) eqn:Et; simpl.
  - destruct (mem (source c) done) eqn:Em; simpl.
    + intros H. destruct (IH H) as [c' [H1 H2]]. exists c'. split; [now right|auto].
    + intros _. exists c. split; [now left|]. split.
      * now apply String.eqb_eq.
      * now apply mem_not_In.
  - intros H. destruct (IH H) as [c' [H1 H2]]. exists c'. split; [now right|auto].
Qed.

Lemma successors_In cs u v :
  In v (successors cs u) <->
  exists c, In c cs /\ source c = u /\ target c = v.
Proof.
  unfold successors. rewrite in_map_iff. split.
  - intros [c [Ht Hc]]. apply filter_In in Hc. destruct Hc as [Hc Hs].
    apply String.eqb_eq in Hs. now exists c.
  - intros [c [Hc [Hs Ht]]]. exists c. split; [assumption|].
    apply filter_In. split; [assumption|]. now apply String.eqb_eq.
Qed.

(** *** The two loops that build [graph] and [inDegree] *)

Lemma initNodes_spec ns : forall g d g' d',
  initNodes ns g d = (g', d') ->
  (counts d (fun _ => 0%nat) -> counts d' (fun _ => 0%nat))
  /\ (forall x, In x (map_keys g') <-> In x (map_keys g) \/ In x (List.map id ns))
  /\ (forall x, In x (map_keys d') <-> In x (map_keys d) \/ In x (List.map id ns))
  /\ ((forall u l, map_get g u = Some l -> l = []) ->
      forall u l, map_get g' u = Some l -> l = []).
Proof.
  induction ns as [|n ns IH]; simpl; intros g d g' d' H.
  - inversion H; subst. simpl. repeat split; intros; try tauto; eauto.
  - apply IH in H. destruct H as (Hc & Hg & Hd & Hv).
    split; [|split; [|split]].
    + intros H0. apply Hc. intros v.
      destruct (string_dec (id n) v) as [->|Hne].
      * now rewrite map_get_set_same.
      * rewrite map_get_set_other by assumption. apply H0.
    + intros x. rewrite Hg, map_keys_set_In. intuition congruence.
    + intros x. rewrite Hd, map_keys_set_In. intuition congruence.
    + intros H0. apply Hv. intros u l.
      destruct (string_dec (id n) u) as [->|Hne].
      * rewrite map_get_set_same. congruence.
      * rewrite map_get_set_other by assumption. apply H0.
Qed.

Lemma incoming_pending cs v : incoming cs v = pending cs [] v.
Proof.
  unfold incoming, pending. f_equal. apply filter_ext. intros c.
  simpl. now rewrite andb_true_r.
Qed.

Lemma addEdges_spec cs : forall g d g' d' f,
  addEdges cs g d = Ok (g', d') ->
  counts d f ->
  counts d' (fun v => (f v + incoming cs v)%nat)
  /\ map_keys g' = map_keys g
  /\ (forall x, In x (map_keys d') <-> In x (map_keys d) \/ In x (List.map target cs))
  /\ (forall u l, map_get g u = Some l ->
                  map_get g' u = Some (l ++ successors cs u))
  /\ (forall c, In c cs -> In (source c) (map_keys g)).
Proof.
  induction cs as [|c cs IH]; simpl; intros g d g' d' f H Hc.
  - inversion H; subst. split; [|split; [|split; [|split]]].
    + intros v. specialize (Hc v). unfold incoming. simpl.
      now rewrite Nat.add_0_r.
    + reflexivity.
    + intros; tauto.
    + intros u l E. unfold successors. simpl. now rewrite app_nil_r.
    + intros c [].
  - destruct (map_get g (source c)) as [out|] eqn:Eg; [|discriminate].
    apply IH with (f := fun v => (f v + (if String.eqb (target c) v then 1 else 0))%nat)
      in H.
    + destruct H as (H1 & H2 & H3 & H4 & H5).
      split; [|split; [|split; [|split]]].
      * intros v. specialize (H1 v). simpl in H1.
        unfold incoming in *. simpl.
        destruct (String.eqb (target c) v); simpl;
          destruct (map_get d' v); try rewrite H1; try f_equal; lia.
      * rewrite H2. apply map_keys_set_present. congruence.
      * intros x. rewrite H3, map_keys_set_In. simpl. intuition congruence.
      * intros u l E. rewrite successors_cons.
        destruct (string_dec (source c) u) as [Hu|Hne].
        -- subst u. rewrite String.eqb_refl.
           rewrite Eg in E. inversion E; subst l.
           rewrite (H4 (source c) (out ++ [target c])).
           ++ now rewrite <- app_assoc.
           ++ apply map_get_set_same.
        -- assert (E' : String.eqb (source c) u = false)
             by now apply String.eqb_neq.
           rewrite E'. apply H4. now rewrite map_get_set_other.
      * intros c' [<-|Hin].
        -- apply map_get_In_keys. congruence.
        -- specialize (H5 c' Hin).
           rewrite map_keys_set_present in H5 by congruence. assumption.
    + intros v. specialize (Hc v).
      destruct (string_dec (target c) v) as [Hv|Hne].
      * subst v. rewrite map_get_set_same, String.eqb_refl.
        destruct (map_get d (target c)) as [x|]; simpl.
        -- subst x. simpl. f_equal. lia.
        -- rewrite Hc. reflexivity.
      * rewrite map_get_set_other by assumption.
        assert (E' : String.eqb (target c) v = false)
          by now apply String.eqb_neq.
        rewrite E'. destruct (map_get d v); [rewrite Hc; f_equal|]; lia.
Qed.

Lemma initNodes_NoDup ns : forall (g : Graph) (d : InDegree) g' d',
  initNodes ns g d = (g', d') ->
  NoDup (map_keys d) -> NoDup (map_keys d').
Proof.
  induction ns as [|n ns IH]; simpl; intros g d g' d' H Hn.
  - now inversion H; subst.
  - eapply IH; [exact H|]. now apply map_set_NoDup.
Qed.

Lemma addEdges_NoDup cs : forall (g : Graph) (d : InDegree) g' d',
  addEdges cs g d = Ok (g', d') ->
  NoDup (map_keys d) -> NoDup (map_keys d').
Proof.
  induction cs as [|c cs IH]; simpl; intros g d g' d' H Hn.
  - now inversion H; subst.
  - destruct (map_get g (source c)); [|discriminate].
    eapply IH; [exact H|]. now apply map_set_NoDup.
Qed.

Lemma addEdges_total cs : forall (g : Graph) (d : InDegree),
  (forall c, In c cs -> In (source c) (map_keys g)) ->
  exists g' d', addEdges cs g d = Ok (g', d').
Proof.
  induction cs as [|c cs IH]; simpl; intros g d H.
  - now exists g, d.
  - assert (Hs : In (source c) (map_keys g)) by (apply H; now left).
    apply map_get_In_keys in Hs.
    destruct (map_get g (source c)) as [out|] eqn:E; [|congruence].
    apply IH. intros c' Hc'.
    rewrite map_keys_set_present by congruence. apply H. now right.
Qed.

Lemma addEdges_dangling_source cs : forall (g : Graph) (d : InDegree) c,
  In c cs -> ~ In (source c) (map_keys g) ->
  addEdges cs g d = TypeError.
Proof.
  induction cs as [|c0 cs IH]; simpl; intros g d c Hin Hs; [tauto|].
  destruct (map_get g (source c0)) as [out|] eqn:E; [|reflexivity].
  destruct Hin as [->|Hin].
  - exfalso. apply Hs. apply map_get_In_keys. congruence.
  - apply (IH _ _ c Hin).
    rewrite map_keys_set_present by congruence. assumption.
Qed.

(** *** The node map *)

Lemma buildNodeMap_get ns : forall (m : jsmap VisualScriptNode) x n,
  map_get (buildNodeMap ns m) x = Some n ->
  (In n ns /\ id n = x) \/ map_get m x = Some n.
Proof.
  induction ns as [|n0 ns IH]; simpl; intros m x n H; [now right|].
  apply IH in H. destruct H as [[H1 H2]|H]; [left; tauto|].
  destruct (string_dec (id n0) x) as [E|E].
  - subst x. rewrite map_get_set_same in H. inversion H; subst. left. auto.
  - rewrite map_get_set_other in H by assumption. now right.
Qed.

Lemma buildNodeMap_keys ns : forall (m : jsmap VisualScriptNode) x,
  In x (map_keys (buildNodeMap ns m)) <->
  In x (map_keys m) \/ In x (List.map id ns).
Proof.
  induction ns as [|n0 ns IH]; simpl; intros m x; [tauto|].
  rewrite IH, map_keys_set_In. intuition congruence.
Qed.

Lemma buildNodeMap_skip ns : forall (m : jsmap VisualScriptNode) x,
  ~ In x (List.map id ns) ->
  map_get (buildNodeMap ns m) x = map_get m x.
Proof.
  induction ns as [|n0 ns IH]; simpl; intros m x H; [reflexivity|].
  rewrite IH by tauto. apply map_get_set_other. tauto.
Qed.

Lemma buildNodeMap_unique ns : forall (m : jsmap VisualScriptNode) n,
  NoDup (List.map id ns) -> In n ns ->
  map_get (buildNodeMap ns m) (id n) = Some n.
Proof.
  induction ns as [|n0 ns IH]; simpl; intros m n Hn Hin; [tauto|].
  inversion Hn as [|? ? Hk Hrest]; subst.
  destruct Hin as [->|Hin].
  - rewrite buildNodeMap_skip by assumption. apply map_get_set_same.
  - now apply IH.
Qed.

(** *** The inner loop *)

Lemma counts_ext d f g :
  (forall v, f v = g v) -> counts d f -> counts d g.
Proof. intros E H v. specialize (H v). now rewrite <- E. Qed.

Lemma relax_spec nbrs : forall inDeg queue inDeg' queue' base,
  counts inDeg (fun v => (base v + occ nbrs v)%nat) ->
  relax nbrs inDeg queue = (inDeg', queue') ->
  counts inDeg' base
  /\ map_keys inDeg' = map_keys inDeg
  /\ exists pushed,
       queue' = queue ++ pushed
       /\ NoDup pushed
       /\ (forall t, In t pushed <-> In t nbrs /\ base t = 0%nat).
Proof.
  induction nbrs as [|t rest IH]; intros inDeg queue inDeg' queue' base Hc H.
  - simpl in H. inversion H; subst. split; [|split].
    + eapply counts_ext; [|exact Hc]. intros v. simpl. apply Nat.add_0_r.
    + reflexivity.
    + exists []. rewrite app_nil_r. split; [reflexivity|].
      split; [constructor|]. intros t. simpl. tauto.
  - simpl in H.
    pose proof (Hc t) as Ht. cbv beta in Ht. rewrite occ_cons_same in Ht.
    destruct (map_get inDeg t) as [d|] eqn:Eg; [|lia]. subst d.
    simpl in H.
    set (inDeg1 := map_set inDeg t
                     (JS.Num (Z.of_nat (base t + S (occ rest t)) - 1))) in H.
    assert (Hc1 : counts inDeg1 (fun v => (base v + occ rest v)%nat)).
    { intros v. unfold inDeg1. destruct (string_dec t v) as [->|Hne].
      - rewrite map_get_set_same. f_equal. lia.
      - rewrite map_get_set_other by assumption.
        specialize (Hc v). cbv beta in Hc.
        rewrite occ_cons_other in Hc by assumption.
        exact Hc. }
    assert (Hk1 : map_keys inDeg1 = map_keys inDeg).
    { apply map_keys_set_present. congruence. }
    destruct (Z.of_nat (base t + S (occ rest t)) - 1 =? 0)%Z eqn:Ez.
    + apply Z.eqb_eq in Ez.
      destruct (IH _ _ _ _ _ Hc1 H) as (H1 & H2 & pushed & H3 & H4 & H5).
      split; [assumption|]. split; [congruence|].
      exists (t :: pushed). split; [|split].
      * rewrite H3, <- app_assoc. reflexivity.
      * constructor; [|assumption]. intros Hin. apply H5 in Hin.
        destruct Hin as [Hin _]. apply occ_In in Hin. lia.
      * intros x. simpl. rewrite H5. split.
        -- intros [<-|[Hx Hb]]; [split; [now left|lia] | split; [now right|assumption]].
        -- intros [[<-|Hx] Hb]; [now left | right; tauto].
    + apply Z.eqb_neq in Ez.
      destruct (IH _ _ _ _ _ Hc1 H) as (H1 & H2 & pushed & H3 & H4 & H5).
      split; [assumption|]. split; [congruence|].
      exists pushed. split; [assumption|]. split; [assumption|].
      intros x. rewrite H5. simpl. split.
      * intros [Hx Hb]. tauto.
      * intros [[<-|Hx] Hb]; [|tauto]. split; [|assumption].
        apply occ_In. lia.
Qed.

(** *** The [while] loop and its invariant *)

Lemma Inv_step cs keys inDeg w q done inDeg' q' :
  Inv cs keys inDeg (w :: q) done ->
  relax (successors cs w) inDeg q = (inDeg', q') ->
  Inv cs keys inDeg' q' (done ++ [w]).
Proof.
  intros [Hc Hk Hn Hr Hcomp Ho Hin] H.
  assert (Hw : ~ In w done).
  { apply NoDup_remove_2 in Hn. intros Hd. apply Hn.
    apply in_or_app. now left. }
  assert (Hsplit : forall v, pending cs done v
            = (pending cs (done ++ [w]) v + occ (successors cs w) v)%nat).
  { intros v. rewrite (pending_split cs done w v) by now apply mem_not_In.
    f_equal. apply pending_ext. intros x. rewrite in_app_iff. simpl. tauto. }
  assert (Hc0 : counts inDeg
            (fun v => (pending cs (done ++ [w]) v + occ (successors cs w) v)%nat)).
  { eapply counts_ext; [|exact Hc]. exact Hsplit. }
  destruct (relax_spec _ _ _ _ _ _ Hc0 H) as (H1 & H2 & pushed & H3 & H4 & H5).
  subst q'.
  assert (Hfresh : forall t, In t pushed -> ~ In t (done ++ w :: q)).
  { intros t Ht Hold. apply H5 in Ht. destruct Ht as [Ht _].
    apply occ_In in Ht. specialize (Hr t Hold). rewrite Hsplit in Hr. lia. }
  assert (Hl : (done ++ [w]) ++ q ++ pushed = (done ++ w :: q) ++ pushed).
  { rewrite <- !app_assoc. reflexivity. }
  constructor; rewrite ?Hl.
  - exact H1.
  - congruence.
  - apply NoDup_app; [exact Hn | exact H4 |].
    intros a Ha Hp. exact (Hfresh a Hp Ha).
  - intros x Hx. apply in_app_or in Hx. destruct Hx as [Hx|Hx].
    + specialize (Hr x Hx). rewrite Hsplit in Hr. lia.
    + apply H5 in Hx. tauto.
  - intros v Hv Hz. apply in_or_app.
    destruct (Nat.eq_dec (pending cs done v) 0) as [E|E].
    + left. exact (Hcomp v Hv E).
    + right. apply H5. split; [|assumption].
      apply occ_In. rewrite Hsplit in E. lia.
  - intros s1 v s2 E.
    destruct s2 as [|y s2 _] using rev_ind.
    + apply app_inj_tail in E. destruct E as [-> ->].
      apply Hr. apply in_or_app. right. now left.
    + rewrite app_comm_cons, app_assoc in E.
      apply app_inj_tail in E. destruct E as [E _].
      eapply Ho. exact E.
  - intros x Hx. apply in_app_or in Hx. destruct Hx as [Hx|Hx].
    + now apply Hin.
    + apply H5 in Hx. destruct Hx as [Hx _].
      rewrite <- Hk. apply map_get_In_keys.
      apply occ_In in Hx. specialize (Hc0 x). cbv beta in Hc0.
      destruct (map_get inDeg x); [discriminate|lia].
Qed.

Section Loop.

Variable cs : list VisualScriptConnection.
Variable graph : Graph.
Variable nodeMap : jsmap VisualScriptNode.
Variable keys : list string.

Hypothesis graph_ok :
  forall u l, map_get graph u = Some l -> l = successors cs u.

Lemma kahn_run fuel : forall inDeg queue done,
  Inv cs keys inDeg queue done ->
  (forall x, In x done -> map_get graph x <> None) ->
  (length keys < fuel + length done)%nat ->
  (exists done' inDeg',
      kahn fuel graph nodeMap inDeg queue (List.map (map_get nodeMap) done)
      = Ok (List.map (map_get nodeMap) done')
      /\ Inv cs keys inDeg' [] done'
      /\ (forall x, In x done' -> map_get graph x <> None))
  \/ (kahn fuel graph nodeMap inDeg queue (List.map (map_get nodeMap) done)
      = TypeError
      /\ exists x, In x keys /\ map_get graph x = None).
Proof.
  induction fuel as [|fuel IH]; intros inDeg queue done HI Hg Hf.
  - destruct queue as [|w q].
    + left. exists done, inDeg. simpl. auto.
    + exfalso.
      assert (Hle : (length (done ++ w :: q) <= length keys)%nat).
      { apply NoDup_incl_length; [apply (inv_nodup _ _ _ _ _ HI)|].
        intros x. apply (inv_in_keys _ _ _ _ _ HI). }
      rewrite length_app in Hle. simpl in Hle. lia.
  - destruct queue as [|w q].
    + left. exists done, inDeg. simpl. auto.
    + simpl. destruct (map_get graph w) as [nbrs|] eqn:Eg.
      * apply graph_ok in Eg as Hn. subst nbrs.
        destruct (relax (successors cs w) inDeg q) as [inDeg' q'] eqn:Er.
        pose proof (Inv_step _ _ _ _ _ _ _ _ HI Er) as HI'.
        specialize (IH inDeg' q' (done ++ [w]) HI').
        rewrite map_app in IH. simpl in IH. apply IH.
        -- intros x Hx. apply in_app_or in Hx.
           destruct Hx as [Hx|[<-|[]]]; [now apply Hg | congruence].
        -- rewrite length_app. simpl. lia.
      * right. split; [reflexivity|]. exists w. split; [|assumption].
        apply (inv_in_keys _ _ _ _ _ HI). apply in_or_app. right. now left.
Qed.

End Loop.

Lemma seed_In (m : InDegree) x :
  In x (seed m) <-> exists d, In (x, d) m /\ JS.is_zero d = true.
Proof.
  induction m as [|[k d] m IH]; simpl.
  - split; [tauto | intros [d [[] _]]].
  - destruct (JS.is_zero d) eqn:Ez; simpl; rewrite IH; split.
    + intros [<-|[d' [H1 H2]]]; [exists d; auto | exists d'; auto].
    + intros [d' [[E|H1] H2]]; [inversion E; now left | right; now exists d'].
    + intros [d' [H1 H2]]. exists d'; auto.
    + intros [d' [[E|H1] H2]]; [inversion E; congruence | now exists d'].
Qed.

Lemma seed_NoDup (m : InDegree) : NoDup (map_keys m) -> NoDup (seed m).
Proof.
  induction m as [|[k d] m IH]; simpl; intros H; [constructor|].
  inversion H as [|? ? Hk Hm]; subst.
  destruct (JS.is_zero d); [|auto].
  constructor; [|auto]. intros Hin. apply Hk.
  apply seed_In in Hin. destruct Hin as [d' [Hin _]].
  apply in_map_iff. now exists (k, d').
Qed.

Lemma Inv_initial cs (inDeg : InDegree) :
  NoDup (map_keys inDeg) ->
  counts inDeg (pending cs []) ->
  Inv cs (map_keys inDeg) inDeg (seed inDeg) [].
Proof.
  intros Hn Hc.
  assert (Hseed : forall x, In x (seed inDeg) ->
            In x (map_keys inDeg) /\ pending cs [] x = 0%nat).
  { intros x Hx. apply seed_In in Hx. destruct Hx as [d [Hin Hz]].
    split; [apply in_map_iff; now exists (x, d)|].
    apply map_get_of_entry in Hin; [|assumption].
    specialize (Hc x). rewrite Hin in Hc. subst d. simpl in Hz.
    apply Z.eqb_eq in Hz. lia. }
  constructor; simpl.
  - exact Hc.
  - reflexivity.
  - now apply seed_NoDup.
  - intros x Hx. now apply Hseed.
  - intros v Hv Hz. apply seed_In.
    apply map_get_In_keys in Hv.
    destruct (map_get inDeg v) as [d|] eqn:E; [|congruence].
    exists d. split; [now apply map_get_In_entry|].
    specialize (Hc v). rewrite E in Hc. subst d. rewrite Hz. reflexivity.
  - intros s1 v s2 E. destruct s1; discriminate.
  - intros x Hx. now apply Hseed.
Qed.

(** *** What [topologicalSort] returns *)

Lemma Inv_Sorted ns cs keys inDeg done :
  Inv cs keys inDeg [] done ->
  (forall x, In x done -> In x (nodeIds ns)) ->
  (forall x, In x (nodeIds ns) \/ In x (List.map target cs) -> In x keys) ->
  Sorted ns cs done.
Proof.
  intros HI Hids Hkeys. constructor.
  - pose proof (inv_nodup _ _ _ _ _ HI) as H. now rewrite app_nil_r in H.
  - exact Hids.
  - intros c Hc Ht. apply in_split in Ht. destruct Ht as [s1 [s2 E]].
    exists s1, s2. split; [assumption|].
    pose proof (inv_order _ _ _ _ _ HI _ _ _ E) as Hz.
    rewrite pending_zero in Hz. now apply Hz.
  - intros v Hv Hn. apply pending_pos. intros Hz.
    apply Hn. pose proof (inv_complete _ _ _ _ _ HI v (Hkeys v Hv) Hz) as H.
    now rewrite app_nil_r in H.
Qed.

Theorem topologicalSort_run ns cs :
  (forall c, In c cs -> In (source c) (nodeIds ns)) ->
  (exists done,
      topologicalSort ns cs
      = Ok (List.map (map_get (buildNodeMap ns [])) done)
      /\ Sorted ns cs done)
  \/ (topologicalSort ns cs = TypeError
      /\ exists c, In c cs /\ ~ In (target c) (nodeIds ns)).
Proof.
  intros Hsrc. unfold topologicalSort.
  destruct (initNodes ns [] []) as [g0 d0] eqn:Ei.
  destruct (initNodes_spec _ _ _ _ _ Ei) as (Hc0 & Hg0 & Hd0 & Hv0).
  assert (Hsrc0 : forall c, In c cs -> In (source c) (map_keys g0)).
  { intros c Hc. apply Hg0. right. now apply Hsrc. }
  destruct (addEdges_total cs g0 d0 Hsrc0) as [g [d Ea]].
  rewrite Ea.
  assert (Hcz : counts d0 (fun _ => 0%nat)).
  { apply Hc0. intros v. reflexivity. }
  destruct (addEdges_spec _ _ _ _ _ _ Ea Hcz) as (Hc & Hg & Hd & Hv & _).
  assert (Hnd : NoDup (map_keys d)).
  { eapply addEdges_NoDup; [exact Ea|].
    eapply initNodes_NoDup; [exact Ei | constructor]. }
  assert (Hcnt : counts d (pending cs [])).
  { eapply counts_ext; [|exact Hc]. intros v. simpl. apply incoming_pending. }
  assert (Hgraph : forall u l, map_get g u = Some l -> l = successors cs u).
  { intros u l E.
    assert (Hu : In u (map_keys g0)).
    { rewrite <- Hg. apply map_get_In_keys. congruence. }
    apply map_get_In_keys in Hu.
    destruct (map_get g0 u) as [l0|] eqn:E0; [|congruence].
    rewrite (Hv u l0 E0) in E. inversion E; subst.
    assert (Hnil : forall u' (l' : list string),
              map_get (@nil (string * list string)) u' = Some l' -> l' = [])
      by (intros; discriminate).
    now rewrite (Hv0 Hnil u l0 E0). }
  pose proof (Inv_initial cs d Hnd Hcnt) as HI.
  destruct (kahn_run cs g (buildNodeMap ns []) (map_keys d) Hgraph
              (S (length d)) d (seed d) [] HI)
    as [[done [d' (Hk & HI' & Hdone)]]|[Hk [x [Hx Hnone]]]].
  - intros x [].
  - unfold map_keys. rewrite length_map. simpl. lia.
  - left. exists done. simpl in Hk. split; [exact Hk|].
    eapply Inv_Sorted; [exact HI' | |].
    + intros x Hx. specialize (Hdone x Hx).
      apply map_get_In_keys in Hdone. rewrite Hg in Hdone.
      apply Hg0 in Hdone. destruct Hdone as [[]|H]; exact H.
    + intros x [Hx|Hx]; apply Hd; [left; apply Hd0; now right | now right].
  - right. simpl in Hk. split; [exact Hk|].
    apply Hd in Hx. apply map_get_None_keys in Hnone. rewrite Hg in Hnone.
    destruct Hx as [Hx|Hx].
    + exfalso. apply Hnone. apply Hg0. apply Hd0 in Hx. exact Hx.
    + apply in_map_iff in Hx. destruct Hx as [c [Ec Hc']].
      exists c. split; [assumption|]. intros Hin. apply Hnone.
      apply Hg0. right. now rewrite Ec in Hin.
Qed.

Theorem topologicalSort_dangling_source ns cs c :
  In c cs -> ~ In (source c) (nodeIds ns) ->
  topologicalSort ns cs = TypeError.
Proof.
  intros Hc Hs. unfold topologicalSort.
  destruct (initNodes ns [] []) as [g0 d0] eqn:Ei.
  destruct (initNodes_spec _ _ _ _ _ Ei) as (_ & Hg0 & _).
  rewrite (addEdges_dangling_source cs g0 d0 c Hc); [reflexivity|].
  intros Hin. apply Hg0 in Hin. destruct Hin as [[]|Hin]. now apply Hs.
Qed.

(** The ids of the result denote nodes of the script. *)
Lemma sorted_nodes ns cs done :
  Sorted ns cs done ->
  forall x, In x done ->
    exists n, map_get (buildNodeMap ns []) x = Some n /\ In n ns /\ id n = x.
Proof.
  intros HS x Hx. apply (sorted_ids _ _ _ HS) in Hx.
  assert (Hk : In x (map_keys (buildNodeMap ns []))).
  { apply buildNodeMap_keys. now right. }
  apply map_get_In_keys in Hk.
  destruct (map_get (buildNodeMap ns []) x) as [n|] eqn:E; [|congruence].
  exists n. split; [reflexivity|].
  apply buildNodeMap_get in E. destruct E as [E|E]; [assumption|discriminate].
Qed.

Lemma sources_known_or_not ns cs :
  sourcesKnown ns cs
  \/ exists conn, In conn cs /\ ~ In (source conn) (nodeIds ns).
Proof.
  induction cs as [|conn cs IH].
  - left. intros conn [].
  - destruct IH as [IH|(conn' & Hc & Hn)].
    + destruct (in_dec string_dec (source conn) (nodeIds ns)) as [Hs|Hs].
      * left. intros conn' [<-|Hc]; [assumption | now apply IH].
      * right. exists conn. split; [now left | assumption].
    + right. exists conn'. split; [now right | assumption].
Qed.

(** The loop of [topologicalSort] ends within the rounds it is given. *)
Theorem topologicalSort_terminates ns cs :
  (exists sorted, topologicalSort ns cs = Ok sorted)
  \/ topologicalSort ns cs = TypeError.
Proof.
  destruct (sources_known_or_not ns cs) as [Hs|(conn & Hc & Hn)].
  - destruct (topologicalSort_run ns cs Hs) as [(done & H & _)|[H _]].
    + left. eexists. exact H.
    + now right.
  - right. exact (topologicalSort_dangling_source ns cs conn Hc Hn).
Qed.

(** The order [topologicalSort] returns has a node at every place. *)
Lemma topologicalSort_defined ns cs sorted :
  topologicalSort ns cs = Ok sorted ->
  List.Forall (fun e => exists n, e = Some n /\ In n ns) sorted.
Proof.
  intros H.
  destruct (sources_known_or_not ns cs) as [Hs|(conn & Hc & Hn)].
  - destruct (topologicalSort_run ns cs Hs) as [(done & Hd & HS)|[Hd _]];
      [|congruence].
    rewrite Hd in H. inversion H; subst sorted.
    apply Forall_forall. intros e He. apply in_map_iff in He.
    destruct He as (x & <- & Hx).
    destruct (sorted_nodes _ _ _ HS x Hx) as (n & Hn & Hin & _).
    now exists n.
  - rewrite (topologicalSort_dangling_source ns cs conn Hc Hn) in H. discriminate.
Qed.

Lemma wellFormed_sources ns cs : wellFormed ns cs -> sourcesKnown ns cs.
Proof. intros H c Hc. now apply H. Qed.

Lemma topologicalSort_wellFormed ns cs :
  wellFormed ns cs ->
  exists done,
    topologicalSort ns cs = Ok (List.map (map_get (buildNodeMap ns [])) done)
    /\ Sorted ns cs done.
Proof.
  intros HW.
  destruct (topologicalSort_run ns cs (wellFormed_sources _ _ HW))
    as [H|[_ (conn & Hc & Hn)]]; [exact H|].
  exfalso. apply Hn. now apply HW.
Qed.

(** *** Order and cycles *)

Lemma NoDup_pivot {A : Type} (l x1 y1 x2 y2 : list A) (a : A) :
  NoDup l -> l = x1 ++ a :: y1 -> l = x2 ++ a :: y2 -> x1 = x2 /\ y1 = y2.
Proof.
  intros Hn E1 E2.
  assert (E : x1 ++ a :: y1 = x2 ++ a :: y2) by congruence.
  apply app_inj_pivot in E. destruct E as [[[H1 H2]|[H1 H2]]|E]; [| |exact E].
  - exfalso. rewrite E1 in Hn. apply NoDup_remove_2 in Hn. apply Hn.
    apply in_or_app. now left.
  - exfalso. rewrite E1 in Hn. apply NoDup_remove_2 in Hn. apply Hn.
    apply in_or_app. now right.
Qed.

Lemma before_trans {A : Type} (l : list A) (u v w : A) :
  NoDup l -> before l u v -> before l v w -> before l u w.
Proof.
  intros Hn (a1 & a2 & a3 & Ea) (b1 & b2 & b3 & Eb).
  assert (Ea' : l = (a1 ++ u :: a2) ++ v :: a3).
  { rewrite Ea, <- app_assoc. reflexivity. }
  destruct (NoDup_pivot _ _ _ _ _ _ Hn Ea' Eb) as [E1 E2].
  exists a1, (a2 ++ v :: b2), b3.
  rewrite Ea, E2, <- app_assoc. reflexivity.
Qed.

Lemma before_irrefl {A : Type} (l : list A) (v : A) :
  NoDup l -> ~ before l v v.
Proof.
  intros Hn (a1 & a2 & a3 & E). rewrite E in Hn.
  apply NoDup_remove_2 in Hn. apply Hn.
  apply in_or_app. right. apply in_or_app. right. now left.
Qed.

Lemma before_In_l {A : Type} (l : list A) (u v : A) : before l u v -> In u l.
Proof.
  intros (a1 & a2 & a3 & E). rewrite E. apply in_or_app. right. now left.
Qed.

Lemma before_In_r {A : Type} (l : list A) (u v : A) : before l u v -> In v l.
Proof.
  intros (a1 & a2 & a3 & E). rewrite E. apply in_or_app. right. right.
  apply in_or_app. right. now left.
Qed.

Lemma before_map_split {A B : Type} (f : A -> B) (l : list A) (u v : B) :
  before (List.map f l) u v ->
  exists l1 a l2 b l3,
    l = l1 ++ a :: l2 ++ b :: l3 /\ f a = u /\ f b = v.
Proof.
  intros (s1 & s2 & s3 & E).
  apply map_eq_app in E. destruct E as (l1 & r1 & -> & _ & E).
  destruct r1 as [|a r1]; [discriminate|]. simpl in E.
  injection E as Ha E'.
  apply map_eq_app in E'. destruct E' as (l2 & r2 & -> & _ & E'').
  destruct r2 as [|b l3]; [discriminate|]. simpl in E''.
  injection E'' as Hb _.
  now exists l1, a, l2, b, l3.
Qed.

Lemma Sorted_before ns cs done c :
  Sorted ns cs done -> In c cs -> In (target c) done ->
  before done (source c) (target c).
Proof.
  intros HS Hc Ht.
  destruct (sorted_order _ _ _ HS c Hc Ht) as (s1 & s2 & E & Hin).
  apply in_split in Hin. destruct Hin as (a1 & a2 & E1).
  exists a1, a2, s2. rewrite E, E1, <- app_assoc. reflexivity.
Qed.

Lemma reach_before ns cs done u v :
  Sorted ns cs done -> reach cs u v -> In v done -> before done u v.
Proof.
  intros HS Hr. induction Hr as [u v (c & Hc & <- & <-)|u w v (c & Hc & <- & <-) Hr IH];
    intros Hv.
  - now apply (Sorted_before ns cs).
  - specialize (IH Hv).
    apply (before_trans done (source c) (target c) v).
    + apply (sorted_nodup _ _ _ HS).
    + apply (Sorted_before ns cs); [assumption|assumption|].
      exact (before_In_l _ _ _ IH).
    + exact IH.
Qed.

(** An id on a cycle of connections is never part of the result. *)
Lemma cycle_left_out ns cs done v :
  Sorted ns cs done -> onCycle cs v -> ~ In v done.
Proof.
  intros HS Hc Hin.
  apply (before_irrefl done v (sorted_nodup _ _ _ HS)).
  exact (reach_before ns cs done v v HS Hc Hin).
Qed.

Lemma dup_split (l : list string) :
  ~ NoDup l -> exists x l1 l2 l3, l = l1 ++ x :: l2 ++ x :: l3.
Proof.
  induction l as [|a l IH]; intros H.
  - exfalso. apply H. constructor.
  - destruct (in_dec string_dec a l) as [Hin|Hnin].
    + apply in_split in Hin. destruct Hin as (l2 & l3 & E).
      exists a, [], l2, l3. simpl. now rewrite E.
    + destruct IH as (x & l1 & l2 & l3 & E).
      * intros Hn. apply H. now constructor.
      * exists x, (a :: l1), l2, l3. simpl. now rewrite E.
Qed.

Lemma chain_tail cs a p : chain cs (a :: p) -> p <> [] -> chain cs p.
Proof. intros H Hp. inversion H; subst; [congruence|assumption]. Qed.

Lemma chain_suffix cs l1 : forall l2, chain cs (l1 ++ l2) -> l2 <> [] -> chain cs l2.
Proof.
  induction l1 as [|a l1 IH]; simpl; intros l2 H Hp; [assumption|].
  apply IH; [|assumption]. apply (chain_tail cs a); [assumption|].
  destruct l1; simpl; [assumption|discriminate].
Qed.

Lemma chain_reach cs l2 : forall x y l3,
  chain cs (x :: l2 ++ y :: l3) -> reach cs x y.
Proof.
  induction l2 as [|z l2 IH]; simpl; intros x y l3 H.
  - inversion H; subst. now apply reach_edge.
  - inversion H; subst. eapply reach_step; [eassumption|]. eapply IH. eassumption.
Qed.

(** Ids that are left out can be followed backwards for ever. *)
Lemma left_out_chain ns cs done :
  Sorted ns cs done -> sourcesKnown ns cs ->
  forall v, In v (nodeIds ns) -> ~ In v done ->
  forall n, exists h t,
    length (h :: t) = S n /\ chain cs (h :: t)
    /\ (forall x, In x (h :: t) -> In x (nodeIds ns) /\ ~ In x done).
Proof.
  intros HS HW v Hv Hn n. induction n as [|n IH].
  - exists v, []. split; [reflexivity|]. split; [constructor|].
    intros x [<-|[]]. auto.
  - destruct IH as (h & t & Hl & Hc & Hall).
    destruct (Hall h (or_introl eq_refl)) as [Hh1 Hh2].
    destruct (sorted_left_out _ _ _ HS h (or_introl Hh1) Hh2)
      as (c & Hc1 & Hc2 & Hc3).
    exists (source c), (h :: t). split; [simpl in *; lia|]. split.
    + constructor; [|assumption]. now exists c.
    + intros x [<-|Hx]; [|now apply Hall].
      split; [|assumption]. now apply HW.
Qed.

(** Without a cycle, every node is part of the result. *)
Lemma acyclic_complete ns cs done :
  Sorted ns cs done -> sourcesKnown ns cs -> acyclic cs ->
  forall v, In v (nodeIds ns) -> In v done.
Proof.
  intros HS HW HA v Hv.
  destruct (in_dec string_dec v done) as [Hin|Hn]; [assumption|exfalso].
  destruct (left_out_chain ns cs done HS HW v Hv Hn (length (nodeIds ns)))
    as (h & t & Hl & Hc & Hall).
  assert (Hdup : ~ NoDup (h :: t)).
  { intros Hnd. apply NoDup_incl_length with (l' := nodeIds ns) in Hnd.
    - lia.
    - intros x Hx. now apply Hall. }
  apply dup_split in Hdup. destruct Hdup as (x & l1 & l2 & l3 & E).
  rewrite E in Hc. apply chain_suffix in Hc; [|discriminate].
  apply chain_reach in Hc. exact (HA x Hc).
Qed.

(** An id that is left out stands at the end of a path of ids that are
    left out, as long as may be. *)
Lemma left_out_chain_to ns cs done v :
  Sorted ns cs done -> sourcesKnown ns cs ->
  In v (nodeIds ns) -> ~ In v done ->
  forall n, exists p,
    length p = n /\ chain cs (p ++ [v])
    /\ (forall x, In x (p ++ [v]) -> In x (nodeIds ns) /\ ~ In x done).
Proof.
  intros HS HW Hv Hn n. induction n as [|n IH].
  - exists []. split; [reflexivity|]. split; [constructor|].
    intros x [<-|[]]. auto.
  - destruct IH as (p & Hl & Hc & Hall).
    destruct (p ++ [v]) as [|h t] eqn:E; [destruct p; discriminate|].
    destruct (Hall h (or_introl eq_refl)) as [Hh1 Hh2].
    destruct (sorted_left_out _ _ _ HS h (or_introl Hh1) Hh2)
      as (c & Hc1 & Hc2 & Hc3).
    exists (source c :: p). split; [simpl; now rewrite Hl|].
    simpl. rewrite E. split.
    + constructor; [|assumption]. now exists c.
    + intros x [<-|Hx]; [|now apply Hall].
      split; [|assumption]. now apply HW.
Qed.

(** An id that is left out is on a cycle or behind one. *)
Lemma left_out_behind_cycle ns cs done v :
  Sorted ns cs done -> sourcesKnown ns cs ->
  In v (nodeIds ns) -> ~ In v done ->
  exists u, onCycle cs u /\ reach cs u v.
Proof.
  intros HS HW Hv Hn.
  destruct (left_out_chain_to ns cs done v HS HW Hv Hn (length (nodeIds ns)))
    as (p & Hl & Hc & Hall).
  assert (Hdup : ~ NoDup (p ++ [v])).
  { intros Hnd. apply NoDup_incl_length with (l' := nodeIds ns) in Hnd.
    - rewrite length_app in Hnd. simpl in Hnd. lia.
    - intros x Hx. now apply Hall. }
  apply dup_split in Hdup. destruct Hdup as (x & l1 & l2 & l3 & E).
  rewrite E in Hc. apply chain_suffix in Hc; [|discriminate].
  assert (Hx : reach cs x x) by (apply chain_reach in Hc; exact Hc).
  exists x. split; [exact Hx|].
  destruct l3 as [|y l3].
  - assert (E' : p ++ [v] = (l1 ++ x :: l2) ++ [x])
      by (rewrite E, <- app_assoc; reflexivity).
    apply app_inj_tail in E'. destruct E' as [_ <-]. exact Hx.
  - destruct (@exists_last _ (y :: l3)) as (l3' & w & E3); [discriminate|].
    rewrite E3 in E, Hc.
    assert (E' : p ++ [v] = (l1 ++ x :: l2 ++ x :: l3') ++ [w]).
    { rewrite E, <- !app_assoc. simpl. rewrite <- !app_assoc. reflexivity. }
    apply app_inj_tail in E'. destruct E' as [_ <-].
    apply chain_suffix with (l1 := x :: l2) in Hc; [|discriminate].
    apply chain_reach in Hc. exact Hc.
Qed.

(** The ids of the result are those of the nodes that are neither on a
    cycle nor behind one. *)
Lemma Sorted_members ns cs done v :
  Sorted ns cs done -> sourcesKnown ns cs -> In v (nodeIds ns) ->
  (In v done <-> ~ behindCycle cs v).
Proof.
  intros HS HW Hv. split.
  - intros Hd (u & Hu & Huv).
    pose proof (reach_before _ _ _ _ _ HS Huv Hd) as Hb.
    apply before_In_l in Hb. exact (cycle_left_out _ _ _ _ HS Hu Hb).
  - intros Hn. destruct (in_dec string_dec v done) as [Hin|Hout]; [exact Hin|].
    exfalso. apply Hn. now apply (left_out_behind_cycle ns cs done).
Qed.

Lemma ranked_acyclic cs (rank : string -> nat) :
  (forall conn, In conn cs -> (rank (source conn) < rank (target conn))%nat) ->
  acyclic cs.
Proof.
  intros Hr.
  assert (H : forall u v, reach cs u v -> (rank u < rank v)%nat).
  { intros u v Huv.
    induction Huv as [u v (conn & Hc & <- & <-)|u w v (conn & Hc & <- & <-) _ IH].
    - now apply Hr.
    - specialize (Hr conn Hc). lia. }
  intros v Hv. specialize (H v v Hv). lia.
Qed.

Lemma dangling_target_detected ns cs conn :
  sourcesKnown ns cs -> acyclic cs ->
  In conn cs -> ~ In (target conn) (nodeIds ns) ->
  topologicalSort ns cs = TypeError.
Proof.
  intros Hs Ha Hc Ht.
  destruct (topologicalSort_run ns cs Hs) as [[done [_ HS]]|[H _]];
    [exfalso | exact H].
  assert (Hn : ~ In (target conn) done).
  { intros Hin. apply Ht. now apply (sorted_ids _ _ _ HS). }
  destruct (sorted_left_out _ _ _ HS (target conn)) as (c' & Hc' & _ & Hsrc).
  - right. now apply in_map.
  - exact Hn.
  - apply Hsrc. apply (acyclic_complete ns cs done HS Hs Ha). now apply Hs.
Qed.

(* ================================================================== *)
(** ** The emitter and the monad *)

Lemma bind_Ok {A B : Type} (m : M A) (k : A -> M B) c r :
  bind m k c = Ok r -> exists a c1, m c = Ok (a, c1) /\ k a c1 = Ok r.
Proof.
  unfold bind. destruct (m c) as [[a c1]| | |]; try discriminate.
  intros H. now exists a, c1.
Qed.

Lemma bind_run {A B : Type} (m : M A) (k : A -> M B) c a c1 :
  m c = Ok (a, c1) -> bind m k c = k a c1.
Proof. intros H. unfold bind. now rewrite H. Qed.

Lemma bind_assoc {A B C : Type} (m : M A) (k : A -> M B) (h : B -> M C) c :
  bind (bind m k) h c = bind m (fun a => bind (k a) h) c.
Proof. unfold bind. destruct (m c) as [[a c1]| | |]; reflexivity. Qed.

Lemma bind_RangeError {A B : Type} (m : M A) (k : A -> M B) c :
  m c = RangeError -> bind m k c = RangeError.
Proof. intros H. unfold bind. now rewrite H. Qed.

Lemma writeLine_Ok line c u c' :
  writeLine line c = Ok (u, c') ->
  (0 <= indentLevel c)%Z
  /\ c' = mkCompiler (indentLevel c) (output c ++ [pad (indentLevel c) +++ line])
            (nodeOutputs c).
Proof.
  unfold writeLine. destruct (indentLevel c <? 0)%Z eqn:E; [discriminate|].
  apply Z.ltb_ge in E. intros H. inversion H. auto.
Qed.

Lemma writeLine_run line c :
  (0 <= indentLevel c)%Z ->
  writeLine line c
  = Ok (tt, mkCompiler (indentLevel c)
              (output c ++ [pad (indentLevel c) +++ line]) (nodeOutputs c)).
Proof.
  intros H. unfold writeLine. apply Z.ltb_ge in H. now rewrite H.
Qed.

Lemma indent_Ok c u c' :
  indent c = Ok (u, c') ->
  c' = mkCompiler (indentLevel c + 1) (output c) (nodeOutputs c).
Proof. unfold indent. intros H. now inversion H. Qed.

Lemma dedent_Ok c u c' :
  dedent c = Ok (u, c') ->
  c' = mkCompiler (indentLevel c - 1) (output c) (nodeOutputs c).
Proof. unfold dedent. intros H. now inversion H. Qed.

Lemma bindSymbol_Ok key symbol c u c' :
  bindSymbol key symbol c = Ok (u, c') ->
  c' = mkCompiler (indentLevel c) (output c) (map_set (nodeOutputs c) key symbol).
Proof. unfold bindSymbol. intros H. now inversion H. Qed.

Lemma getInputValue_Ok nodeId inputName conns c v c' :
  getInputValue nodeId inputName conns c = Ok (v, c') ->
  v = inputValue nodeId inputName conns c /\ c' = c.
Proof. unfold getInputValue. intros H. now inversion H. Qed.

Lemma ret_Ok {A : Type} (a : A) c r c' : ret a c = Ok (r, c') -> r = a /\ c' = c.
Proof. unfold ret. intros H. now inversion H. Qed.

(** Takes a successful run apart, one call at a time. *)
Ltac run_inv H :=
  repeat
    (let a := fresh "a" in
     let c1 := fresh "c" in
     let H1 := fresh "Hrun" in
     apply bind_Ok in H; destruct H as (a & c1 & H1 & H);
     first
       [ apply writeLine_Ok in H1; destruct H1 as [? H1]; subst c1
       | apply indent_Ok in H1; subst c1
       | apply dedent_Ok in H1; subst c1
       | apply bindSymbol_Ok in H1; subst c1
       | apply getInputValue_Ok in H1; destruct H1 as [? ?]; subst a; subst c1
       | idtac ];
     cbn [indentLevel output nodeOutputs] in H);
  try first
    [ apply writeLine_Ok in H; destruct H as [? H]
    | apply indent_Ok in H
    | apply dedent_Ok in H
    | apply bindSymbol_Ok in H
    | apply ret_Ok in H; destruct H as [? H] ];
  cbn [indentLevel output nodeOutputs] in H.

Ltac run_line :=
  erewrite bind_run by (first [ apply writeLine_run;
                                cbn [indentLevel output nodeOutputs]; lia
                              | reflexivity ]);
  cbn [indentLevel output nodeOutputs].

Ltac run_leaf :=
  repeat run_line;
  first [ eexists; reflexivity
        | eexists; apply writeLine_run; cbn [indentLevel output nodeOutputs]; lia ].

(* ================================================================== *)
(** ** The node compilers *)

(** *** Each node compiler only appends lines, and never lowers the level it started from *)

Lemma grows_refl c : grows c c.
Proof. split; [lia|]. exists []. now rewrite app_nil_r. Qed.

Lemma grows_trans c1 c2 c3 : grows c1 c2 -> grows c2 c3 -> grows c1 c3.
Proof.
  intros [H1 [l1 E1]] [H2 [l2 E2]]. split; [lia|].
  exists (l1 ++ l2). now rewrite E2, E1, app_assoc.
Qed.

Lemma compileTargets_emitsEach self nodeMap cs :
  (forall n c u c', self n c = Ok (u, c') -> grows c c') ->
  forall c u c',
    compileTargets self cs nodeMap c = Ok (u, c') ->
    grows c c'
    /\ exists blocks,
         emitsEach self nodeMap cs c blocks c'
         /\ output c' = output c ++ List.concat blocks.
Proof.
  intros Hself. induction cs as [|conn rest IH]; simpl; intros c u c' H.
  - apply ret_Ok in H. destruct H as [_ ->]. split; [apply grows_refl|].
    exists []. split; [constructor|]. simpl. now rewrite app_nil_r.
  - apply bind_Ok in H. destruct H as (a & c1 & H1 & H2).
    destruct (IH _ _ _ H2) as [Hg (blks & He & Ho)].
    destruct (map_get nodeMap (target conn)) as [targetNode|] eqn:Et.
    + pose proof (Hself _ _ _ _ H1) as Hg1.
      split; [eapply grows_trans; eassumption|].
      destruct Hg1 as [_ [blk Eb]].
      exists (blk :: blks). split.
      * econstructor; [eassumption| |eassumption].
        split; [destruct a; assumption|assumption].
      * simpl. now rewrite Ho, Eb, app_assoc.
    + apply ret_Ok in H1. destruct H1 as [_ ->].
      split; [assumption|]. exists ([] :: blks). split.
      * now constructor.
      * simpl. assumption.
Qed.

Ltac grows_leaf H :=
  run_inv H; subst; split; cbn [indentLevel output nodeOutputs];
  [ lia
  | first [ exists []; rewrite app_nil_r; reflexivity
          | eexists; rewrite <- ?app_assoc; reflexivity ] ].

Lemma compileUpdateEvent_grows N c u c' :
  compileUpdateEvent N c = Ok (u, c') -> grows c c'.
Proof. unfold compileUpdateEvent. intros H. grows_leaf H. Qed.

Lemma compileCollisionEvent_grows N c u c' :
  compileCollisionEvent N c = Ok (u, c') -> grows c c'.
Proof. unfold compileCollisionEvent. intros H. grows_leaf H. Qed.

Lemma compileGetEntities_grows N c u c' :
  compileGetEntities N c = Ok (u, c') -> grows c c'.
Proof. unfold compileGetEntities. intros H. grows_leaf H. Qed.

Lemma compileGetComponent_grows N conns c u c' :
  compileGetComponent N conns c = Ok (u, c') -> grows c c'.
Proof. unfold compileGetComponent. intros H. grows_leaf H. Qed.

Lemma compileSetComponent_grows N conns c u c' :
  compileSetComponent N conns c = Ok (u, c') -> grows c c'.
Proof. unfold compileSetComponent. intros H. grows_leaf H. Qed.

Lemma compileMathOperation_grows N conns op c u c' :
  compileMathOperation N conns op c = Ok (u, c') -> grows c c'.
Proof. unfold compileMathOperation. intros H. grows_leaf H. Qed.

Lemma writeLine_grows line c u c' :
  writeLine line c = Ok (u, c') -> grows c c'.
Proof. intros H. grows_leaf H. Qed.

(** *** The shape of what a branch and a loop write *)

Lemma compileIfStatement_shape self N conns nodeMap :
  (forall n c u c', self n c = Ok (u, c') -> grows c c') ->
  forall c u c',
    compileIfStatement self N conns nodeMap c = Ok (u, c') ->
    (0 <= indentLevel c)%Z
    /\ exists thenBlocks c1,
        emitsEach self nodeMap (connectionsAt conns (id N +++ "_then"))
          (opened c (ifLine N conns c)) thenBlocks c1
        /\ (indentLevel c + 1 <= indentLevel c1)%Z
        /\ ((connectionsAt conns (id N +++ "_else") = []
             /\ c' = mkCompiler (indentLevel c1 - 1)
                      (output c ++ [pad (indentLevel c) +++ ifLine N conns c]
                       ++ List.concat thenBlocks
                       ++ [pad (indentLevel c1 - 1) +++ "}"])
                      (nodeOutputs c1))
            \/ (connectionsAt conns (id N +++ "_else") <> []
                /\ exists elseBlocks c2,
                    emitsEach self nodeMap
                      (connectionsAt conns (id N +++ "_else"))
                      (opened (mkCompiler (indentLevel c1 - 1) (output c1)
                                 (nodeOutputs c1)) "} else {")
                      elseBlocks c2
                    /\ (indentLevel c1 <= indentLevel c2)%Z
                    /\ c' = mkCompiler (indentLevel c2 - 1)
                             (output c ++ [pad (indentLevel c) +++ ifLine N conns c]
                              ++ List.concat thenBlocks
                              ++ [pad (indentLevel c1 - 1) +++ "} else {"]
                              ++ List.concat elseBlocks
                              ++ [pad (indentLevel c2 - 1) +++ "}"])
                             (nodeOutputs c2))).
Proof.
  intros Hself c u c' H. unfold compileIfStatement in H. run_inv H.
  split; [assumption|].
  match goal with
  | Ht : compileTargets _ _ _ _ = Ok (_, ?c1) |- _ =>
      destruct (compileTargets_emitsEach _ _ _ Hself _ _ _ Ht)
        as [[Hlev _] (thenBlocks & He & Ho)];
      exists thenBlocks, c1
  end.
  cbn [indentLevel output nodeOutputs] in *.
  split; [exact He|]. split; [exact Hlev|].
  destruct (connectionsAt conns (id N +++ "_else")) as [|e0 es] eqn:Ee.
  - left. split; [reflexivity|].
    match goal with
    | Hr : ret tt _ = Ok _ |- _ => apply ret_Ok in Hr; destruct Hr as [_ ->]
    end.
    cbn [indentLevel output nodeOutputs] in *. subst c'.
    rewrite Ho, <- !app_assoc. reflexivity.
  - right. split; [discriminate|].
    match goal with
    | Hr : _ = Ok (_, ?cz), Hz : c' = _ |- _ => run_inv Hr
    end.
    match goal with
    | Ht : compileTargets _ (e0 :: es) _ _ = Ok (_, ?c2) |- _ =>
        destruct (compileTargets_emitsEach _ _ _ Hself _ _ _ Ht)
          as [[Hlev2 _] (elseBlocks & He2 & Ho2)];
        exists elseBlocks, c2
    end.
    cbn [indentLevel output nodeOutputs] in *.
    split; [exact He2|]. split; [lia|]. subst.
    cbn [indentLevel output nodeOutputs] in *.
    rewrite Ho2, Ho, <- !app_assoc. reflexivity.
Qed.

Lemma compileForEach_shape self N conns nodeMap :
  (forall n c u c', self n c = Ok (u, c') -> grows c c') ->
  forall c u c',
    compileForEach self N conns nodeMap c = Ok (u, c') ->
    (0 <= indentLevel c)%Z
    /\ exists bodyBlocks c1,
        emitsEach self nodeMap (connectionsAt conns (id N +++ "_body"))
          (mkCompiler (indentLevel c + 1)
             (output c ++ [pad (indentLevel c) +++ forLine N conns c])
             (map_set (nodeOutputs c) (id N +++ "_item")
                ("item_" +++ sanitizeId (id N))))
          bodyBlocks c1
        /\ (indentLevel c + 1 <= indentLevel c1)%Z
        /\ c' = mkCompiler (indentLevel c1 - 1)
                 (output c ++ [pad (indentLevel c) +++ forLine N conns c]
                  ++ List.concat bodyBlocks
                  ++ [pad (indentLevel c1 - 1) +++ "}"])
                 (nodeOutputs c1).
Proof.
  intros Hself c u c' H. unfold compileForEach in H. run_inv H.
  split; [assumption|].
  match goal with
  | Ht : compileTargets _ _ _ _ = Ok (_, ?c1) |- _ =>
      destruct (compileTargets_emitsEach _ _ _ Hself _ _ _ Ht)
        as [[Hlev _] (bodyBlocks & He & Ho)];
      exists bodyBlocks, c1
  end.
  cbn [indentLevel output nodeOutputs] in *.
  split; [exact He|]. split; [exact Hlev|]. subst c'.
  rewrite Ho, <- !app_assoc. reflexivity.
Qed.

Lemma compileIfStatement_grows self N conns nodeMap :
  (forall n c u c', self n c = Ok (u, c') -> grows c c') ->
  forall c u c',
    compileIfStatement self N conns nodeMap c = Ok (u, c') -> grows c c'.
Proof.
  intros Hself c u c' H.
  destruct (compileIfStatement_shape _ _ _ _ Hself _ _ _ H)
    as (H0 & tb & c1 & _ & Hl & [[_ ->]|[_ (eb & c2 & _ & Hl2 & ->)]]);
    split; cbn [indentLevel output nodeOutputs]; try lia; eexists; reflexivity.
Qed.

Lemma compileForEach_grows self N conns nodeMap :
  (forall n c u c', self n c = Ok (u, c') -> grows c c') ->
  forall c u c',
    compileForEach self N conns nodeMap c = Ok (u, c') -> grows c c'.
Proof.
  intros Hself c u c' H.
  destruct (compileForEach_shape _ _ _ _ Hself _ _ _ H)
    as (H0 & bb & c1 & _ & Hl & ->);
    split; cbn [indentLevel output nodeOutputs]; try lia; eexists; reflexivity.
Qed.

(** *** [compileNode] *)

Lemma dispatch_grows self N conns nodeMap :
  (forall n c u c', self n c = Ok (u, c') -> grows c c') ->
  forall c u c', dispatch self N conns nodeMap c = Ok (u, c') -> grows c c'.
Proof.
  intros Hself c u c'. unfold dispatch.
  repeat match goal with
         | |- context [if ?b then _ else _] => destruct b
         end;
    eauto using compileUpdateEvent_grows, compileCollisionEvent_grows,
      compileGetEntities_grows, compileGetComponent_grows,
      compileSetComponent_grows, compileMathOperation_grows,
      compileIfStatement_grows, compileForEach_grows, writeLine_grows.
Qed.

Lemma dispatch_math self N conns nodeMap op :
  mathOperator N = Some op ->
  dispatch self N conns nodeMap = compileMathOperation N conns op.
Proof.
  unfold mathOperator, dispatch.
  destruct (String.eqb (type N) "math/add") eqn:E1.
  - intros H. inversion H; subst op. apply String.eqb_eq in E1.
    rewrite E1. reflexivity.
  - destruct (String.eqb (type N) "math/multiply") eqn:E2; [|discriminate].
    intros H. inversion H; subst op. apply String.eqb_eq in E2.
    rewrite E2. reflexivity.
Qed.

Lemma dispatch_if self N conns nodeMap :
  type N = "flow/if" ->
  dispatch self N conns nodeMap = compileIfStatement self N conns nodeMap.
Proof. intros H. unfold dispatch. rewrite H. reflexivity. Qed.

Lemma dispatch_foreach self N conns nodeMap :
  type N = "flow/foreach" ->
  dispatch self N conns nodeMap = compileForEach self N conns nodeMap.
Proof. intros H. unfold dispatch. rewrite H. reflexivity. Qed.

Lemma dispatch_collision self N conns nodeMap :
  type N = "event/collision" ->
  dispatch self N conns nodeMap = compileCollisionEvent N.
Proof. intros H. unfold dispatch. rewrite H. reflexivity. Qed.

Lemma compileNode_S depth N conns nodeMap :
  compileNode (S depth) N conns nodeMap
  = (writeLine ("// Node: " +++ nodeTitle N) ;;
     dispatch (fun n => compileNode depth n conns nodeMap) N conns nodeMap ;;
     writeLine "").
Proof. reflexivity. Qed.

(** A successful run of [compileNode] starts at a level that is not
    negative, writes the header of the node first, and only appends. *)
Lemma compileNode_header depth : forall N conns nodeMap c u c',
  compileNode depth N conns nodeMap c = Ok (u, c') ->
  (0 <= indentLevel c)%Z
  /\ (indentLevel c <= indentLevel c')%Z
  /\ exists rest,
       output c' = output c ++ headerLine (indentLevel c) N :: rest.
Proof.
  induction depth as [|depth IH]; intros N conns nodeMap c u c' H;
    [discriminate|].
  rewrite compileNode_S in H. run_inv H.
  assert (Hself : forall n x ux x',
             compileNode depth n conns nodeMap x = Ok (ux, x') -> grows x x').
  { intros n x ux x' Hn. destruct (IH _ _ _ _ _ _ Hn) as (_ & ? & rest & ?).
    split; [assumption | eexists; eassumption]. }
  match goal with
  | Hd : dispatch _ _ _ _ _ = Ok _ |- _ =>
      apply (dispatch_grows _ _ _ _ Hself) in Hd; destruct Hd as [Hl [lines Ho]]
  end.
  cbn [indentLevel output nodeOutputs] in *. subst c'.
  cbn [indentLevel output nodeOutputs].
  split; [assumption|]. split; [assumption|].
  rewrite Ho. unfold headerLine. rewrite <- !app_assoc.
  eexists. reflexivity.
Qed.

Lemma compileNode_grows depth N conns nodeMap c u c' :
  compileNode depth N conns nodeMap c = Ok (u, c') -> grows c c'.
Proof.
  intros H. destruct (compileNode_header _ _ _ _ _ _ _ H) as (_ & Hl & rest & Ho).
  split; [assumption|]. eexists. eassumption.
Qed.

(** *** The exceptions of a node compiler

    A node compiler returns, or runs out of stack; it reads no property
    of [undefined]. *)

Lemma valueOrRange_bind {A B : Type} (m : M A) (k : A -> M B) c :
  valueOrRange (m c) -> (forall a x, valueOrRange (k a x)) ->
  valueOrRange (bind m k c).
Proof.
  unfold bind. destruct (m c) as [[a c1]| | |]; simpl; auto.
Qed.

Lemma valueOrRange_writeLine line c : valueOrRange (writeLine line c).
Proof. unfold writeLine. destruct (indentLevel c <? 0)%Z; exact I. Qed.

Ltac range_only :=
  repeat first
    [ apply valueOrRange_writeLine
    | apply valueOrRange_bind; [|intros ? ?]
    | exact I
    | assumption ].

Lemma valueOrRange_compileTargets self nodeMap cs :
  (forall n x, valueOrRange (self n x)) ->
  forall c, valueOrRange (compileTargets self cs nodeMap c).
Proof.
  intros Hself. induction cs as [|conn rest IH]; intros c; [exact I|].
  simpl. apply valueOrRange_bind; [|intros ? ?; apply IH].
  destruct (map_get nodeMap (target conn)); [apply Hself | exact I].
Qed.

Lemma valueOrRange_dispatch self N conns nodeMap :
  (forall n x, valueOrRange (self n x)) ->
  forall c, valueOrRange (dispatch self N conns nodeMap c).
Proof.
  intros Hself c. unfold dispatch.
  repeat match goal with
         | |- context [if ?b then _ else _] => destruct b
         end;
    unfold compileUpdateEvent, compileCollisionEvent, compileGetEntities,
      compileGetComponent, compileSetComponent, compileMathOperation,
      compileIfStatement, compileForEach;
    repeat first
      [ apply valueOrRange_writeLine
      | apply valueOrRange_compileTargets; assumption
      | apply valueOrRange_bind; [|intros ? ?]
      | match goal with
        | |- valueOrRange (match ?l with [] => _ | _ :: _ => _ end _) =>
            destruct l
        end
      | exact I ].
Qed.

Lemma valueOrRange_compileNode depth : forall N conns nodeMap c,
  valueOrRange (compileNode depth N conns nodeMap c).
Proof.
  induction depth as [|depth IH]; intros N conns nodeMap c; [exact I|].
  rewrite compileNode_S.
  apply valueOrRange_bind; [apply valueOrRange_writeLine|intros ? ?].
  apply valueOrRange_bind; [|intros ? ?; apply valueOrRange_writeLine].
  apply valueOrRange_dispatch. intros n y. apply IH.
Qed.

(** *** Runs that succeed *)

Lemma foundTargets_cons nodeMap conn rest :
  foundTargets nodeMap (conn :: rest)
  = match map_get nodeMap (target conn) with
    | Some n => [n]
    | None => []
    end ++ foundTargets nodeMap rest.
Proof. reflexivity. Qed.

Lemma foundTargets_In nodeMap cs M :
  In M (foundTargets nodeMap cs) <->
  exists conn, In conn cs /\ map_get nodeMap (target conn) = Some M.
Proof.
  unfold foundTargets. rewrite in_flat_map. split.
  - intros (conn & Hc & Hm). exists conn. split; [assumption|].
    destruct (map_get nodeMap (target conn)); [|destruct Hm].
    destruct Hm as [->|[]]. reflexivity.
  - intros (conn & Hc & Hm). exists conn. split; [assumption|].
    rewrite Hm. now left.
Qed.

Lemma compileTargets_total self nodeMap cs :
  (forall n c u c', self n c = Ok (u, c') -> grows c c') ->
  (forall n c, In n (foundTargets nodeMap cs) -> (0 <= indentLevel c)%Z ->
               exists c', self n c = Ok (tt, c')) ->
  forall c, (0 <= indentLevel c)%Z ->
    exists c', compileTargets self cs nodeMap c = Ok (tt, c')
               /\ (indentLevel c <= indentLevel c')%Z.
Proof.
  intros Hg. induction cs as [|conn rest IH]; intros Ht c Hc.
  - exists c. split; [reflexivity|lia].
  - rewrite foundTargets_cons in Ht. simpl.
    destruct (map_get nodeMap (target conn)) as [n|] eqn:E.
    + destruct (Ht n c) as [c1 H1]; [now left | assumption |].
      pose proof (Hg _ _ _ _ H1) as [Hl _].
      destruct (IH (fun m x Hm => Ht m x (or_intror Hm)) c1) as [c2 [H2 Hl2]];
        [lia|].
      exists c2. rewrite (bind_run _ _ _ _ _ H1). split; [assumption|lia].
    + destruct (IH Ht c Hc) as [c2 [H2 Hl2]].
      exists c2. split; [|assumption].
      rewrite (bind_run _ _ c tt c) by reflexivity. assumption.
Qed.

Lemma compileIfStatement_total self N conns nodeMap :
  (forall n c u c', self n c = Ok (u, c') -> grows c c') ->
  (forall n c,
      In n (foundTargets nodeMap (connectionsAt conns (id N +++ "_then"))
            ++ foundTargets nodeMap (connectionsAt conns (id N +++ "_else"))) ->
      (0 <= indentLevel c)%Z -> exists c', self n c = Ok (tt, c')) ->
  forall c, (0 <= indentLevel c)%Z ->
    exists c', compileIfStatement self N conns nodeMap c = Ok (tt, c').
Proof.
  intros Hg Ht c Hc. unfold compileIfStatement. repeat run_line.
  match goal with
  | |- context [compileTargets self ?cs nodeMap] =>
      destruct (compileTargets_total self nodeMap cs Hg
                  (fun n x Hn => Ht n x (in_or_app _ _ _ (or_introl Hn)))
                  (mkCompiler (indentLevel c + 1)
                     (output c ++ [pad (indentLevel c) +++ ifLine N conns c])
                     (nodeOutputs c)))
        as [c1 [H1 Hl1]]; [cbn [indentLevel]; lia|]
  end.
  cbn [indentLevel] in Hl1.
  unfold ifLine in H1. rewrite (bind_run _ _ _ _ _ H1). repeat run_line.
  destruct (connectionsAt conns (id N +++ "_else")) as [|e0 es] eqn:Ee.
  - repeat run_line. run_leaf.
  - repeat (rewrite bind_assoc || run_line).
    cbn [indentLevel output nodeOutputs].
    match goal with
    | |- context [bind (compileTargets self (e0 :: es) nodeMap) _ ?x] =>
        destruct (compileTargets_total self nodeMap (e0 :: es) Hg
                    (fun n y Hn => Ht n y (in_or_app _ _ _ (or_intror Hn))) x)
          as [c2 [H2 Hl2]]; [cbn [indentLevel]; lia|]
    end.
    cbn [indentLevel] in Hl2.
    rewrite (bind_run _ _ _ _ _ H2). run_leaf.
Qed.

Lemma compileForEach_total self N conns nodeMap :
  (forall n c u c', self n c = Ok (u, c') -> grows c c') ->
  (forall n c,
      In n (foundTargets nodeMap (connectionsAt conns (id N +++ "_body"))) ->
      (0 <= indentLevel c)%Z -> exists c', self n c = Ok (tt, c')) ->
  forall c, (0 <= indentLevel c)%Z ->
    exists c', compileForEach self N conns nodeMap c = Ok (tt, c').
Proof.
  intros Hg Ht c Hc. unfold compileForEach. repeat run_line.
  cbn [indentLevel output nodeOutputs].
  match goal with
  | |- context [bind (compileTargets self ?cs nodeMap) _ ?x] =>
      destruct (compileTargets_total self nodeMap cs Hg Ht x)
        as [c1 [H1 Hl1]]; [cbn [indentLevel]; lia|]
  end.
  cbn [indentLevel] in Hl1.
  rewrite (bind_run _ _ _ _ _ H1). repeat run_line. run_leaf.
Qed.

Lemma dispatch_total self N conns nodeMap :
  (forall n c u c', self n c = Ok (u, c') -> grows c c') ->
  (forall n c, In n (nested conns nodeMap N) -> (0 <= indentLevel c)%Z ->
               exists c', self n c = Ok (tt, c')) ->
  forall c, (0 <= indentLevel c)%Z ->
    exists c', dispatch self N conns nodeMap c = Ok (tt, c').
Proof.
  intros Hg Ht c Hc. unfold dispatch, nested in *.
  destruct (String.eqb (type N) "event/update") eqn:E1;
    [unfold compileUpdateEvent; run_leaf|].
  destruct (String.eqb (type N) "event/collision") eqn:E2;
    [unfold compileCollisionEvent; run_leaf|].
  destruct (String.eqb (type N) "query/get_entities") eqn:E3;
    [unfold compileGetEntities; run_leaf|].
  destruct (String.eqb (type N) "component/get") eqn:E4;
    [unfold compileGetComponent; run_leaf|].
  destruct (String.eqb (type N) "component/set") eqn:E5;
    [unfold compileSetComponent; run_leaf|].
  destruct (String.eqb (type N) "math/add") eqn:E6;
    [unfold compileMathOperation; run_leaf|].
  destruct (String.eqb (type N) "math/multiply") eqn:E7;
    [unfold compileMathOperation; run_leaf|].
  destruct (String.eqb (type N) "flow/if") eqn:E8;
    [now apply compileIfStatement_total|].
  destruct (String.eqb (type N) "flow/foreach") eqn:E9;
    [now apply compileForEach_total|].
  run_leaf.
Qed.

(** With a level that is not negative and room on the stack for the
    nested blocks, [compileNode] returns. *)
Theorem compileNode_total depth : forall N conns nodeMap c,
  fits depth conns nodeMap N = true -> (0 <= indentLevel c)%Z ->
  exists c', compileNode depth N conns nodeMap c = Ok (tt, c').
Proof.
  induction depth as [|depth IH]; intros N conns nodeMap c Hf Hc;
    [discriminate|].
  simpl in Hf. rewrite forallb_forall in Hf.
  rewrite compileNode_S. run_line.
  match goal with
  | |- context [bind (dispatch ?self N conns nodeMap) _ ?x] =>
      destruct (dispatch_total self N conns nodeMap
                  (fun n => compileNode_grows depth n conns nodeMap)
                  (fun n y Hn Hy => IH n conns nodeMap y (Hf n Hn) Hy) x)
        as [c1 H1]; [cbn [indentLevel]; lia|];
      pose proof (dispatch_grows self N conns nodeMap
                    (fun n => compileNode_grows depth n conns nodeMap) _ _ _ H1)
        as [Hl _]
  end.
  cbn [indentLevel] in Hl.
  rewrite (bind_run _ _ _ _ _ H1). run_leaf.
Qed.

Lemma fits_mono k : forall k' conns nodeMap N,
  (k <= k')%nat -> fits k conns nodeMap N = true ->
  fits k' conns nodeMap N = true.
Proof.
  induction k as [|k IH]; intros k' conns nodeMap N Hle H; [discriminate|].
  destruct k' as [|k']; [lia|]. simpl in *.
  rewrite forallb_forall in *. intros M HM. apply IH; [lia | now apply H].
Qed.

(** *** Headers of nested nodes *)

Lemma stripIndent_pad k rest :
  stripIndent (pad k +++ "// Node: " +++ rest) = "// Node: " +++ rest.
Proof.
  unfold pad. induction (Z.to_nat k) as [|n IH]; [reflexivity|].
  simpl. exact IH.
Qed.

Lemma isHeaderOf_headerLine k n : isHeaderOf n (headerLine k n) = true.
Proof.
  unfold isHeaderOf, headerLine. rewrite stripIndent_pad. apply String.eqb_refl.
Qed.

Lemma headerCount_app n l1 l2 :
  headerCount n (l1 ++ l2) = (headerCount n l1 + headerCount n l2)%nat.
Proof. unfold headerCount. now rewrite filter_app, length_app. Qed.

Lemma headerCount_In n k l : In (headerLine k n) l -> (1 <= headerCount n l)%nat.
Proof.
  intros H. apply in_split in H. destruct H as (l1 & l2 & ->).
  rewrite headerCount_app. unfold headerCount at 2. simpl.
  rewrite isHeaderOf_headerLine. simpl. lia.
Qed.

Lemma emitsEach_found depth conns nodeMap cs : forall c blocks c' M,
  emitsEach (fun n => compileNode depth n conns nodeMap) nodeMap cs c blocks c' ->
  In M (foundTargets nodeMap cs) ->
  exists k, In (headerLine k M) (List.concat blocks).
Proof.
  intros c blocks c' M H. induction H as [c|conn rest T c blk c1 blks c2 Hm He _ IH
                                          |conn rest c blks c2 Hm _ IH];
    intros HM.
  - destruct HM.
  - rewrite foundTargets_cons, Hm in HM. destruct HM as [<-|HM].
    + destruct He as [Hrun Hout].
      destruct (compileNode_header _ _ _ _ _ _ _ Hrun) as (_ & _ & r & Ho).
      rewrite Ho in Hout. apply app_inv_head in Hout. subst blk.
      exists (indentLevel c). simpl. now left.
    + destruct (IH HM) as [k Hk]. exists k. simpl. apply in_or_app. now right.
  - rewrite foundTargets_cons, Hm in HM. simpl in HM.
    destruct (IH HM) as [k Hk]. exists k. exact Hk.
Qed.

(** What a run of [compileNode] appends holds a header of every node
    nested below the node. *)
Lemma nested_header depth I conns nodeMap c u c' M :
  compileNode depth I conns nodeMap c = Ok (u, c') ->
  In M (nested conns nodeMap I) ->
  exists k lines,
    output c' = output c ++ headerLine (indentLevel c) I :: lines
    /\ In (headerLine k M) lines.
Proof.
  intros Hrun HM. destruct depth as [|depth]; [discriminate|].
  unfold nested in HM. rewrite compileNode_S in Hrun.
  destruct (String.eqb (type I) "flow/if") eqn:Ei.
  - apply String.eqb_eq in Ei. rewrite (dispatch_if _ _ _ _ Ei) in Hrun.
    run_inv Hrun.
    match goal with
    | Hi : compileIfStatement _ _ _ _ _ = Ok _ |- _ =>
        destruct (compileIfStatement_shape _ _ _ _
                    (fun n => compileNode_grows depth n conns nodeMap) _ _ _ Hi)
          as (_ & tb & c1 & Hthen & Hl1
              & [[He Hc']|[He (eb & c2 & Helse & Hl2 & Hc')]])
    end;
      rewrite Hc' in Hrun; cbn [indentLevel output nodeOutputs] in Hrun;
      subst c'; cbn [indentLevel output nodeOutputs].
    + rewrite He in HM. simpl in HM. rewrite app_nil_r in HM.
      destruct (emitsEach_found _ _ _ _ _ _ _ _ Hthen HM) as [k Hk].
      exists k. eexists. split.
      * unfold headerLine. rewrite <- !app_assoc. simpl. reflexivity.
      * right. apply in_or_app. now left.
    + apply in_app_or in HM. destruct HM as [HM|HM].
      * destruct (emitsEach_found _ _ _ _ _ _ _ _ Hthen HM) as [k Hk].
        exists k. eexists. split.
        -- unfold headerLine. rewrite <- !app_assoc. simpl. reflexivity.
        -- right. apply in_or_app. now left.
      * destruct (emitsEach_found _ _ _ _ _ _ _ _ Helse HM) as [k Hk].
        exists k. eexists. split.
        -- unfold headerLine. rewrite <- !app_assoc. simpl. reflexivity.
        -- right. apply in_or_app. right. right. apply in_or_app. now left.
  - destruct (String.eqb (type I) "flow/foreach") eqn:Ef; [|destruct HM].
    apply String.eqb_eq in Ef. rewrite (dispatch_foreach _ _ _ _ Ef) in Hrun.
    run_inv Hrun.
    match goal with
    | Hi : compileForEach _ _ _ _ _ = Ok _ |- _ =>
        destruct (compileForEach_shape _ _ _ _
                    (fun n => compileNode_grows depth n conns nodeMap) _ _ _ Hi)
          as (_ & bb & c1 & Hbody & Hl1 & Hc')
    end.
    rewrite Hc' in Hrun; cbn [indentLevel output nodeOutputs] in Hrun;
      subst c'; cbn [indentLevel output nodeOutputs].
    destruct (emitsEach_found _ _ _ _ _ _ _ _ Hbody HM) as [k Hk].
    exists k. eexists. split.
    + unfold headerLine. rewrite <- !app_assoc. simpl. reflexivity.
    + right. apply in_or_app. now left.
Qed.

Lemma blockOf_header depth conns nodeMap n blk :
  blockOf depth conns nodeMap n blk ->
  exists k rest, blk = headerLine k n :: rest.
Proof.
  intros (c & c' & Hrun & Hout).
  destruct (compileNode_header _ _ _ _ _ _ _ Hrun) as (_ & _ & rest & Ho).
  rewrite Ho in Hout. apply app_inv_head in Hout.
  exists (indentLevel c), rest. now symmetry.
Qed.

(** *** Levels *)

(** A collision event leaves the level one higher than it found it. *)
Lemma compileNode_collision_level depth N conns nodeMap c u c' :
  type N = "event/collision" ->
  compileNode depth N conns nodeMap c = Ok (u, c') ->
  indentLevel c' = (indentLevel c + 1)%Z.
Proof.
  intros Ht H. destruct depth as [|depth]; [discriminate|].
  rewrite compileNode_S, (dispatch_collision _ _ _ _ Ht) in H.
  unfold compileCollisionEvent in H. run_inv H.
  match goal with
  | Hr : _ = Ok (_, _) |- _ => run_inv Hr
  end.
  subst. reflexivity.
Qed.

Lemma emitsEach_level self nodeMap cs : forall c blocks c',
  (forall n x ux x', In n (foundTargets nodeMap cs) ->
                     self n x = Ok (ux, x') -> indentLevel x' = indentLevel x) ->
  emitsEach self nodeMap cs c blocks c' ->
  indentLevel c' = indentLevel c.
Proof.
  intros c blocks c' Hself H.
  induction H as [c|conn rest T c blk c1 blks c2 Hm He _ IH
                  |conn rest c blks c2 Hm _ IH].
  - reflexivity.
  - rewrite foundTargets_cons, Hm in Hself. destruct He as [Hrun _].
    rewrite IH.
    + apply (Hself T c tt c1); [now left | exact Hrun].
    + intros n x ux x' Hn. apply Hself. now right.
  - rewrite foundTargets_cons, Hm in Hself. apply IH. exact Hself.
Qed.

(** Apart from collision events, every node compiler lowers the level
    as often as it raises it. *)
Lemma compileNode_calm depth : forall N conns nodeMap c u c',
  calm depth conns nodeMap N = true ->
  compileNode depth N conns nodeMap c = Ok (u, c') ->
  indentLevel c' = indentLevel c.
Proof.
  induction depth as [|depth IH]; intros N conns nodeMap c u c' Hcalm H;
    [discriminate|].
  simpl in Hcalm. apply andb_prop in Hcalm. destruct Hcalm as [Hno Hnest].
  apply negb_true_iff in Hno. rewrite forallb_forall in Hnest.
  assert (Hself : forall n x ux x',
             In n (nested conns nodeMap N) ->
             compileNode depth n conns nodeMap x = Ok (ux, x') ->
             indentLevel x' = indentLevel x).
  { intros n x ux x' Hn. apply IH. now apply Hnest. }
  rewrite compileNode_S in H. run_inv H. subst c'.
  cbn [indentLevel output nodeOutputs].
  match goal with
  | Hd : dispatch _ _ _ _ ?x = Ok (_, ?c1) |- _ =>
      change (indentLevel c) with (indentLevel x); revert Hd;
      generalize x; clear - Hno Hself
  end.
  intros x Hd. unfold dispatch in Hd. unfold nested in Hself. rewrite Hno in Hd.
  destruct (String.eqb (type N) "event/update");
    [unfold compileUpdateEvent in Hd; run_inv Hd; now subst|].
  destruct (String.eqb (type N) "query/get_entities");
    [unfold compileGetEntities in Hd; run_inv Hd; now subst|].
  destruct (String.eqb (type N) "component/get");
    [unfold compileGetComponent in Hd; run_inv Hd; now subst|].
  destruct (String.eqb (type N) "component/set");
    [unfold compileSetComponent in Hd; run_inv Hd; now subst|].
  destruct (String.eqb (type N) "math/add");
    [unfold compileMathOperation in Hd; run_inv Hd; now subst|].
  destruct (String.eqb (type N) "math/multiply");
    [unfold compileMathOperation in Hd; run_inv Hd; now subst|].
  destruct (String.eqb (type N) "flow/if").
  - destruct (compileIfStatement_shape _ _ _ _
                (fun n => compileNode_grows depth n conns nodeMap) _ _ _ Hd)
      as (_ & tb & c1 & Hthen & _
          & [[He ->]|[He (eb & c2 & Helse & _ & ->)]]);
      cbn [indentLevel].
    + apply emitsEach_level in Hthen.
      * cbn [indentLevel opened] in Hthen. lia.
      * intros n y uy y' Hn. apply Hself. apply in_or_app. now left.
    + apply emitsEach_level in Hthen.
      * apply emitsEach_level in Helse.
        -- cbn [indentLevel opened] in Hthen, Helse. lia.
        -- intros n y uy y' Hn. apply Hself. apply in_or_app. now right.
      * intros n y uy y' Hn. apply Hself. apply in_or_app. now left.
  - destruct (String.eqb (type N) "flow/foreach").
    + destruct (compileForEach_shape _ _ _ _
                  (fun n => compileNode_grows depth n conns nodeMap) _ _ _ Hd)
        as (_ & bb & c1 & Hbody & _ & ->).
      cbn [indentLevel]. apply emitsEach_level in Hbody.
      * cbn [indentLevel] in Hbody. lia.
      * exact Hself.
    + run_inv Hd. now subst.
Qed.

(* ================================================================== *)
(** ** The connection index *)

Lemma connectionsAt_set (m : ConnectionMap) key l k :
  connectionsAt (map_set m key l) k
  = if String.eqb key k then l else connectionsAt m k.
Proof.
  unfold connectionsAt. destruct (String.eqb key k) eqn:E.
  - apply String.eqb_eq in E. subst. now rewrite map_get_set_same.
  - apply String.eqb_neq in E. now rewrite map_get_set_other.
Qed.

(** An entry of the index lists the connections with that key, in the
    order of the connection array. *)
Lemma buildConnectionMapFrom_get cs : forall (m : ConnectionMap) k,
  connectionsAt (buildConnectionMapFrom cs m) k
  = connectionsAt m k
    ++ List.filter (fun c => String.eqb (connKey c) k) cs.
Proof.
  induction cs as [|conn rest IH]; intros m k; simpl.
  - now rewrite app_nil_r.
  - rewrite IH, connectionsAt_set.
    assert (H1 : forall k',
               connectionsAt (if map_has m (connKey conn) then m
                              else map_set m (connKey conn) []) k'
               = connectionsAt m k').
    { intros k'. unfold map_has.
      destruct (map_get m (connKey conn)) eqn:E; [reflexivity|].
      rewrite connectionsAt_set.
      destruct (String.eqb (connKey conn) k') eqn:E'; [|reflexivity].
      apply String.eqb_eq in E'. subst k'. unfold connectionsAt. now rewrite E. }
    fold (connectionsAt (if map_has m (connKey conn) then m
                         else map_set m (connKey conn) []) (connKey conn)).
    rewrite !H1.
    destruct (String.eqb (connKey conn) k) eqn:E.
    + apply String.eqb_eq in E. subst k. now rewrite <- app_assoc.
    + reflexivity.
Qed.

Lemma buildConnectionMap_get cs k :
  connectionsAt (buildConnectionMap cs) k
  = List.filter (fun c => String.eqb (connKey c) k) cs.
Proof. unfold buildConnectionMap. now rewrite buildConnectionMapFrom_get. Qed.

Lemma find_none_all {A : Type} (f : A -> bool) (l : list A) :
  (forall x, In x l -> f x = false) -> List.find f l = None.
Proof.
  induction l as [|a l IH]; intros H; [reflexivity|]. simpl.
  rewrite (H a (or_introl eq_refl)). apply IH. intros x Hx. apply H. now right.
Qed.

Lemma inputValue_unconnected nodeId h conns c :
  unconnected nodeId h conns -> inputValue nodeId h conns c = None.
Proof.
  intros H. unfold inputValue. rewrite find_none_all; [reflexivity|].
  intros conn Hin. specialize (H conn Hin). unfold feedsInput.
  destruct (String.eqb (target conn) nodeId) eqn:E1; [|reflexivity].
  destruct (String.eqb (targetHandle conn) h) eqn:E2; [|reflexivity].
  apply String.eqb_eq in E1, E2. tauto.
Qed.

Lemma nested_connection conns nodeMap N M :
  In M (nested conns nodeMap N) ->
  exists suffix conn,
    In suffix ["_then"; "_else"; "_body"]
    /\ In conn (connectionsAt conns (id N +++ suffix))
    /\ map_get nodeMap (target conn) = Some M.
Proof.
  unfold nested.
  destruct (String.eqb (type N) "flow/if").
  - intros H. apply in_app_or in H. destruct H as [H|H];
      apply foundTargets_In in H; destruct H as (conn & Hc & Hm).
    + exists "_then", conn. simpl. tauto.
    + exists "_else", conn. simpl. tauto.
  - destruct (String.eqb (type N) "flow/foreach"); [|intros []].
    intros H. apply foundTargets_In in H. destruct H as (conn & Hc & Hm).
    exists "_body", conn. simpl. tauto.
Qed.

(* ================================================================== *)
(** ** The main pass and [compile] *)

Lemma compileSorted_blocks depth conns nodeMap sorted : forall c u c',
  compileSorted depth sorted conns nodeMap c = Ok (u, c') ->
  grows c c'
  /\ exists bs : list (VisualScriptNode * list string),
       List.map (fun b => Some (fst b)) bs = sorted
       /\ (forall n blk, In (n, blk) bs -> blockOf depth conns nodeMap n blk)
       /\ output c' = output c ++ List.concat (List.map snd bs).
Proof.
  induction sorted as [|[n|] rest IH]; simpl; intros c u c' H.
  - apply ret_Ok in H. destruct H as [_ ->]. split; [apply grows_refl|].
    exists []. simpl. rewrite app_nil_r. repeat split. intros n blk [].
  - apply bind_Ok in H. destruct H as ([] & c1 & H1 & H2).
    pose proof (compileNode_grows _ _ _ _ _ _ _ H1) as Hg1.
    destruct (IH _ _ _ H2) as (Hg2 & bs & Hs & Hb & Ho).
    split; [eapply grows_trans; eassumption|].
    destruct Hg1 as [_ [blk Eb]].
    exists ((n, blk) :: bs). simpl. split; [now rewrite Hs|]. split.
    + intros n' blk' [E|Hin]; [|now apply Hb].
      inversion E; subst. exists c, c1. now split.
    + now rewrite Ho, Eb, <- app_assoc.
  - discriminate.
Qed.

Lemma compileSorted_total depth conns nodeMap sorted :
  (forall e, In e sorted ->
             exists n, e = Some n /\ fits depth conns nodeMap n = true) ->
  forall c, (0 <= indentLevel c)%Z ->
    exists c', compileSorted depth sorted conns nodeMap c = Ok (tt, c').
Proof.
  induction sorted as [|e rest IH]; intros Hf c Hc.
  - now exists c.
  - destruct (Hf e (or_introl eq_refl)) as (n & -> & Hn). simpl.
    destruct (compileNode_total depth n conns nodeMap c Hn Hc) as [c1 H1].
    rewrite (bind_run _ _ _ _ _ H1).
    apply IH.
    + intros e He. apply Hf. now right.
    + pose proof (compileNode_grows _ _ _ _ _ _ _ H1) as [Hl _]. lia.
Qed.

Lemma compileSorted_collision depth conns nodeMap sorted : forall c u c' N,
  In (Some N) sorted -> type N = "event/collision" ->
  compileSorted depth sorted conns nodeMap c = Ok (u, c') ->
  (indentLevel c + 1 <= indentLevel c')%Z.
Proof.
  induction sorted as [|[n|] rest IH]; simpl; intros c u c' N Hin Ht H.
  - destruct Hin.
  - apply bind_Ok in H. destruct H as (a & c1 & H1 & H2).
    pose proof (compileSorted_blocks _ _ _ _ _ _ _ H2) as [[Hl2 _] _].
    destruct Hin as [E|Hin].
    + inversion E; subst n.
      rewrite (compileNode_collision_level _ _ _ _ _ _ _ Ht H1) in Hl2. lia.
    + pose proof (compileNode_grows _ _ _ _ _ _ _ H1) as [Hl1 _].
      specialize (IH _ _ _ N Hin Ht H2). lia.
  - discriminate.
Qed.

Lemma compileSorted_calm depth conns nodeMap sorted : forall c u c',
  (forall N, In (Some N) sorted -> calm depth conns nodeMap N = true) ->
  compileSorted depth sorted conns nodeMap c = Ok (u, c') ->
  indentLevel c' = indentLevel c.
Proof.
  induction sorted as [|[n|] rest IH]; simpl; intros c u c' Hcalm H.
  - apply ret_Ok in H. destruct H as [_ ->]. reflexivity.
  - apply bind_Ok in H. destruct H as (a & c1 & H1 & H2).
    rewrite (IH _ _ _ (fun N HN => Hcalm N (or_intror HN)) H2).
    apply (compileNode_calm _ _ _ _ _ _ _ (Hcalm n (or_introl eq_refl)) H1).
  - discriminate.
Qed.

Lemma compile_reset depth script c :
  compile depth script c = compile depth script newCompiler.
Proof. reflexivity. Qed.

Lemma compile_sort_fails depth script c :
  topologicalSort (nodes script) (connections script) = TypeError ->
  compile depth script c = TypeError.
Proof.
  intros H. unfold compile. rewrite (bind_run _ _ c tt newCompiler) by reflexivity.
  unfold bind, lift. now rewrite H.
Qed.

(** The result of [compile]: the lines around the main pass, and one
    block per entry of the topological order. *)
Lemma compile_inv depth script c r c' :
  compile depth script c = Ok (r, c') ->
  exists sorted (bs : list (VisualScriptNode * list string)),
    topologicalSort (nodes script) (connections script) = Ok sorted
    /\ List.map (fun b => Some (fst b)) bs = sorted
    /\ (forall n blk, In (n, blk) bs ->
          blockOf depth (connectionMapOf script) (nodeMapOf script) n blk)
    /\ (0 <= indentLevel c')%Z
    /\ output c' = prelude script ++ List.concat (List.map snd bs)
                   ++ coda (indentLevel c' + 2)
    /\ r = mkSystem (name script) (JS.join newline (output c'))
             (extractDependencies (nodes script)).
Proof.
  intros H. unfold compile in H.
  apply bind_Ok in H. destruct H as (a & c0 & Hr & H).
  unfold reset in Hr. inversion Hr; subst a c0. clear Hr.
  apply bind_Ok in H. destruct H as (sorted & c1 & Hs & H).
  unfold lift in Hs.
  destruct (topologicalSort (nodes script) (connections script))
    as [sorted'| | |] eqn:Et; try discriminate.
  inversion Hs; subst sorted' c1. clear Hs.
  exists sorted.
  run_inv H.
  match goal with
  | Hc : compileSorted _ _ _ _ _ = Ok _ |- _ =>
      destruct (compileSorted_blocks _ _ _ _ _ _ _ Hc)
        as ([Hl _] & bs & Hb1 & Hb2 & Ho)
  end.
  cbn [indentLevel output nodeOutputs] in *.
  match goal with
  | Hg : gets output _ = Ok _ |- _ => unfold gets in Hg; inversion Hg; subst
  end.
  cbn [indentLevel output nodeOutputs] in *.
  exists bs. split; [reflexivity|]. split; [reflexivity|].
  split; [exact Hb2|]. split; [lia|]. split; [|reflexivity].
  rewrite Ho. unfold prelude, coda.
  replace (indentLevel c0 - 1 - 1 + 2 - 1)%Z with (indentLevel c0 - 1)%Z by lia.
  replace (indentLevel c0 - 1 - 1 + 2 - 2)%Z with (indentLevel c0 - 1 - 1)%Z by lia.
  rewrite <- !app_assoc. reflexivity.
Qed.

(** [compile] ends two levels below the level at the end of the main
    pass. *)
Lemma compile_main_pass depth script c r c' :
  compile depth script c = Ok (r, c') ->
  exists sorted c1,
    topologicalSort (nodes script) (connections script) = Ok sorted
    /\ compileSorted depth sorted (connectionMapOf script) (nodeMapOf script)
         (mkCompiler 2 (prelude script) []) = Ok (tt, c1)
    /\ indentLevel c' = (indentLevel c1 - 2)%Z.
Proof.
  intros H. unfold compile in H.
  apply bind_Ok in H. destruct H as (a & c0 & Hr & H).
  unfold reset in Hr. inversion Hr; subst a c0. clear Hr.
  apply bind_Ok in H. destruct H as (sorted & c1 & Hs & H).
  unfold lift in Hs.
  destruct (topologicalSort (nodes script) (connections script))
    as [sorted'| | |] eqn:Et; try discriminate.
  inversion Hs; subst sorted' c1. clear Hs.
  exists sorted. run_inv H.
  match goal with
  | Hc : compileSorted _ _ _ _ ?x = Ok (?v, ?c1) |- _ =>
      exists c1; split; [reflexivity|]; split;
      [ destruct v; exact Hc |]
  end.
  match goal with
  | Hg : gets output _ = Ok _ |- _ => unfold gets in Hg; inversion Hg; subst
  end.
  cbn [indentLevel]. lia.
Qed.

Lemma compile_total depth script c sorted :
  topologicalSort (nodes script) (connections script) = Ok sorted ->
  (forall e, In e sorted ->
     exists n, e = Some n
               /\ fits depth (connectionMapOf script) (nodeMapOf script) n = true) ->
  exists r c', compile depth script c = Ok (r, c').
Proof.
  intros Ht Hf. unfold compile.
  rewrite (bind_run _ _ c tt newCompiler) by reflexivity.
  unfold lift. rewrite Ht.
  rewrite (bind_run _ _ newCompiler sorted newCompiler) by reflexivity.
  repeat run_line. cbn [indentLevel output nodeOutputs].
  match goal with
  | |- context [bind (compileSorted depth sorted ?cm ?nm) _ ?x] =>
      destruct (compileSorted_total depth cm nm sorted Hf x) as [c1 H1];
        [cbn [indentLevel]; unfold newCompiler; cbn [indentLevel]; lia|];
      pose proof (compileSorted_blocks _ _ _ _ _ _ _ H1) as [[Hl _] _]
  end.
  cbn [indentLevel] in Hl. unfold newCompiler in Hl. cbn [indentLevel] in Hl.
  rewrite (bind_run _ _ _ _ _ H1). repeat run_line.
  eexists. eexists. reflexivity.
Qed.

Lemma blocks_ids (nm : jsmap VisualScriptNode) (ns : list VisualScriptNode) :
  (forall x n, map_get nm x = Some n -> In n ns /\ id n = x) ->
  forall (bs : list (VisualScriptNode * list string)) done,
    List.map (fun b => Some (fst b)) bs = List.map (map_get nm) done ->
    List.map (fun b => id (fst b)) bs = done
    /\ forall n blk, In (n, blk) bs -> In n ns.
Proof.
  intros Hnm. induction bs as [|[n blk] bs IH]; intros [|x done] H;
    try discriminate.
  - split; [reflexivity | intros n blk []].
  - simpl in H. inversion H as [[H1 H2]]. symmetry in H1.
    destruct (Hnm _ _ H1) as [Hin Hid]. destruct (IH _ H2) as [E Hall].
    split; [simpl; now rewrite Hid, E|].
    intros n' blk' [Eq|Hi]; [inversion Eq; now subst | eapply Hall; eassumption].
Qed.

Lemma nodeMapOf_get script x n :
  map_get (nodeMapOf script) x = Some n -> In n (nodes script) /\ id n = x.
Proof.
  intros H. apply buildNodeMap_get in H. destruct H as [H|H]; [exact H|discriminate].
Qed.

(** When the sort returns and the stack has room for every node of the
    order, [compile] returns, with one block per id of the order. *)
Lemma compile_sorted_run depth script c done :
  topologicalSort (nodes script) (connections script)
  = Ok (List.map (map_get (nodeMapOf script)) done) ->
  Sorted (nodes script) (connections script) done ->
  (forall n, In n (nodes script) -> In (id n) done ->
             fits depth (connectionMapOf script) (nodeMapOf script) n = true) ->
  exists r c' (bs : list (VisualScriptNode * list string)),
    compile depth script c = Ok (r, c')
    /\ List.map (fun b => id (fst b)) bs = done
    /\ (forall n blk, In (n, blk) bs ->
          In n (nodes script)
          /\ blockOf depth (connectionMapOf script) (nodeMapOf script) n blk)
    /\ (0 <= indentLevel c')%Z
    /\ output c' = prelude script ++ List.concat (List.map snd bs)
                   ++ coda (indentLevel c' + 2)
    /\ r = mkSystem (name script) (JS.join newline (output c'))
             (extractDependencies (nodes script)).
Proof.
  intros Ht HS Hfit.
  assert (Hall : forall e, In e (List.map (map_get (nodeMapOf script)) done) ->
            exists n, e = Some n
              /\ fits depth (connectionMapOf script) (nodeMapOf script) n = true).
  { intros e He. apply in_map_iff in He. destruct He as (x & <- & Hx).
    destruct (sorted_nodes _ _ _ HS x Hx) as (n & Hn & Hin & Hid).
    exists n. split; [exact Hn|]. apply Hfit; [assumption|]. now rewrite Hid. }
  destruct (compile_total depth script c _ Ht Hall) as (r & c' & Hrun).
  destruct (compile_inv _ _ _ _ _ Hrun)
    as (sorted & bs & Ht' & Hbs & Hblk & Hlev & Hout & Hr).
  rewrite Ht in Ht'. inversion Ht' as [Hs]. rewrite <- Hs in Hbs.
  destruct (blocks_ids (nodeMapOf script) (nodes script)
              (nodeMapOf_get script) bs done Hbs) as [Hids Hin].
  exists r, c', bs. repeat split; try assumption.
  - eapply Hin. eassumption.
  - now apply Hblk.
Qed.

(** [compile] returns or raises: the bound on the rounds of the sort is
    never what ends it. *)
Lemma bind_never_diverges {A B : Type} (m : M A) (k : A -> M B) c :
  m c <> Diverged -> (forall a x, k a x <> Diverged) -> bind m k c <> Diverged.
Proof.
  intros Hm Hk. unfold bind. destruct (m c) as [[a c1]| | |];
    [apply Hk | discriminate | discriminate | now elim Hm].
Qed.

Lemma compileSorted_never_diverges depth conns nodeMap sorted : forall c,
  compileSorted depth sorted conns nodeMap c <> Diverged.
Proof.
  induction sorted as [|[n|] rest IH]; intros c; simpl; try discriminate.
  apply bind_never_diverges; [|intros ? ?; apply IH].
  pose proof (valueOrRange_compileNode depth n conns nodeMap c) as H.
  intros E. rewrite E in H. exact H.
Qed.

Lemma compile_never_diverges depth script c :
  compile depth script c <> Diverged.
Proof.
  unfold compile.
  repeat (apply bind_never_diverges; [|intros ? ?]);
    try apply compileSorted_never_diverges;
    try (unfold writeLine;
         match goal with
         | |- context [if ?b then _ else _] => destruct b
         end);
    try discriminate.
  unfold lift.
  destruct (topologicalSort_terminates (nodes script) (connections script))
    as [[sorted ->]| ->]; discriminate.
Qed.

(** *** Scripts without cycles *)

(** With handles read as written, what is nested below a node is at the
    end of a connection that leaves it. *)
Lemma nested_edge script N M :
  handlesClear (nodes script) (connections script) ->
  In N (nodes script) ->
  In M (nested (connectionMapOf script) (nodeMapOf script) N) ->
  edge (connections script) (id N) (id M) /\ In M (nodes script).
Proof.
  intros Hh HN HM.
  destruct (nested_connection _ _ _ _ HM) as (suffix & conn & Hs & Hc & Hm).
  unfold connectionMapOf in Hc. rewrite buildConnectionMap_get in Hc.
  apply filter_In in Hc. destruct Hc as [Hc Hk]. apply String.eqb_eq in Hk.
  apply nodeMapOf_get in Hm. destruct Hm as [HMin HMid].
  split; [|assumption]. exists conn. split; [assumption|].
  split; [|now symmetry]. exact (Hh conn N suffix Hc HN Hs Hk).
Qed.

Lemma fits_by_order script done :
  Sorted (nodes script) (connections script) done ->
  handlesClear (nodes script) (connections script) ->
  (forall n, In n (nodes script) -> In (id n) done) ->
  forall k N s1 s2,
    In N (nodes script) -> done = s1 ++ id N :: s2 -> (length s2 < k)%nat ->
    fits k (connectionMapOf script) (nodeMapOf script) N = true.
Proof.
  intros HS Hh Hall. induction k as [|k IH]; intros N s1 s2 HN E Hlen; [lia|].
  simpl. apply forallb_forall. intros M HM.
  destruct (nested_edge script N M Hh HN HM) as [(conn & Hc & Hs & Ht) HMin].
  destruct (sorted_order _ _ _ HS conn Hc) as (a1 & a2 & Ea & Hin).
  { rewrite Ht. now apply Hall. }
  rewrite Hs in Hin. apply in_split in Hin. destruct Hin as (b1 & b2 & Eb).
  rewrite Eb, Ht, <- app_assoc in Ea. simpl in Ea.
  destruct (NoDup_pivot _ _ _ _ _ _ (sorted_nodup _ _ _ HS) E Ea) as [_ E2].
  apply (IH M (s1 ++ id N :: b2) a2 HMin).
  - rewrite Ea. destruct (NoDup_pivot _ _ _ _ _ _ (sorted_nodup _ _ _ HS) E Ea)
      as [-> _]. now rewrite <- app_assoc.
  - rewrite E2, length_app in Hlen. simpl in Hlen. lia.
Qed.

(** Without a cycle, and with handles read as written, a stack that
    holds as many calls as the script has nodes is enough. *)
Lemma acyclic_fits script done depth :
  Sorted (nodes script) (connections script) done ->
  sourcesKnown (nodes script) (connections script) ->
  acyclic (connections script) ->
  handlesClear (nodes script) (connections script) ->
  (length (nodes script) <= depth)%nat ->
  forall N, In N (nodes script) ->
    fits depth (connectionMapOf script) (nodeMapOf script) N = true.
Proof.
  intros HS Hsrc Ha Hh Hd N HN.
  assert (Hall : forall n, In n (nodes script) -> In (id n) done).
  { intros n Hn. apply (acyclic_complete _ _ _ HS Hsrc Ha). now apply in_map. }
  destruct (in_split _ _ (Hall N HN)) as (s1 & s2 & E).
  apply (fits_mono (S (length s2))).
  - assert (Hlen : (length done <= length (nodeIds (nodes script)))%nat).
    { apply NoDup_incl_length; [apply (sorted_nodup _ _ _ HS)|].
      intros x. apply (sorted_ids _ _ _ HS). }
    unfold nodeIds in Hlen. rewrite length_map in Hlen.
    rewrite E, length_app in Hlen. simpl in Hlen. lia.
  - apply (fits_by_order script done HS Hh Hall (S (length s2)) N s1 s2 HN E). lia.
Qed.

Lemma NoDup_ids_inj ns n m :
  NoDup (nodeIds ns) -> In n ns -> In m ns -> id n = id m -> n = m.
Proof.
  induction ns as [|a ns IH]; simpl; intros Hn Hi Hj E; [tauto|].
  inversion Hn as [|? ? Ha Hrest]; subst.
  destruct Hi as [->|Hi], Hj as [->|Hj]; auto.
  - exfalso. apply Ha. rewrite E. now apply in_map.
  - exfalso. apply Ha. rewrite <- E. now apply in_map.
Qed.

(** On a script without a cycle, the main pass has one block per node,
    in an order that follows the connections. *)
(** The main pass on a script without cycles: a block per node, the
    block of the source of a connection before that of its target. *)
Lemma main_pass_order_fits (depth : nat) (script : VisualScript) (c : Compiler) :
  wellFormed (nodes script) (connections script) ->
  NoDup (nodeIds (nodes script)) ->
  acyclic (connections script) ->
  (forall n, In n (nodes script) ->
     fits depth (connectionMapOf script) (nodeMapOf script) n = true) ->
  exists r c' bs,
    compile depth script c = Ok (r, c')
    /\ code r = JS.join newline (output c')
    /\ output c' = prelude script ++ List.concat (List.map snd bs)
                   ++ coda (indentLevel c' + 2)
    /\ topologicalSort (nodes script) (connections script)
       = Ok (List.map (fun b => Some (fst b)) bs)
    /\ mainBlocks depth script bs
    /\ (forall n, In n (nodes script) -> In n (List.map fst bs))
    /\ (forall conn A B,
          In conn (connections script) ->
          In A (nodes script) -> In B (nodes script) ->
          id A = source conn -> id B = target conn ->
          exists bs1 blkA bs2 blkB bs3,
            bs = bs1 ++ (A, blkA) :: bs2 ++ (B, blkB) :: bs3).
Proof.
  intros HW Hnd Ha Hfit.
  pose proof (wellFormed_sources _ _ HW) as Hsrc.
  destruct (topologicalSort_wellFormed _ _ HW) as (done & Ht & HS).
  destruct (compile_sorted_run depth script c done Ht HS)
    as (r & c' & bs0 & Hrun & _).
  { intros n Hn _. now apply Hfit. }
  destruct (compile_inv _ _ _ _ _ Hrun)
    as (sorted & bs & Hs & Hbs & Hblk0 & _ & Hout & Hr).
  assert (Hsorted : List.map (fun b => Some (fst b)) bs
                    = List.map (map_get (nodeMapOf script)) done).
  { rewrite Hbs. unfold nodeMapOf. congruence. }
  destruct (blocks_ids (nodeMapOf script) (nodes script)
              (nodeMapOf_get script) bs done Hsorted) as [Hids Hnodes].
  assert (Hblk : forall n blk, In (n, blk) bs ->
            In n (nodes script)
            /\ blockOf depth (connectionMapOf script) (nodeMapOf script) n blk).
  { intros n blk Hb. split; [exact (Hnodes n blk Hb) | exact (Hblk0 n blk Hb)]. }
  exists r, c', bs.
  split; [exact Hrun|]. split; [now subst r|]. split; [exact Hout|].
  split; [now rewrite Hbs|].
  split; [|split].
  - apply Forall_forall. intros [n blk] Hb. simpl.
    destruct (Hblk n blk Hb) as [Hn Hbl].
    split; [exact Hn|]. split; [exact Hbl|].
    exact (blockOf_header _ _ _ _ _ Hbl).
  - intros n Hn.
    assert (Hd' : In (id n) done).
    { apply (acyclic_complete _ _ _ HS Hsrc Ha). now apply in_map. }
    rewrite <- Hids in Hd'. apply in_map_iff in Hd'.
    destruct Hd' as ([m blk] & Em & Hm). simpl in Em.
    apply in_map_iff. exists (m, blk). split; [|exact Hm]. simpl.
    apply (NoDup_ids_inj (nodes script)); try assumption.
    now apply (Hblk m blk).
  - intros conn A B Hc HA HB EA EB.
    assert (Hbefore : before (List.map (fun b => id (fst b)) bs)
                        (source conn) (target conn)).
    { rewrite Hids. apply (Sorted_before _ _ _ _ HS Hc).
      apply (acyclic_complete _ _ _ HS Hsrc Ha). now apply HW. }
    apply before_map_split in Hbefore.
    destruct Hbefore as (bs1 & [a blkA] & bs2 & [b blkB] & bs3 & Ebs & Ea & Eb).
    simpl in Ea, Eb.
    assert (Hina : In (a, blkA) bs).
    { rewrite Ebs. apply in_or_app. right. now left. }
    assert (Hinb : In (b, blkB) bs).
    { rewrite Ebs. apply in_or_app. right. right. apply in_or_app. right. now left. }
    assert (a = A).
    { apply (NoDup_ids_inj (nodes script)); try assumption; [|congruence].
      now apply (Hblk a blkA). }
    assert (b = B).
    { apply (NoDup_ids_inj (nodes script)); try assumption; [|congruence].
      now apply (Hblk b blkB). }
    subst a b. now exists bs1, blkA, bs2, blkB, bs3.
Qed.

Lemma main_pass_order (depth : nat) (script : VisualScript) (c : Compiler) :
  wellFormed (nodes script) (connections script) ->
  NoDup (nodeIds (nodes script)) ->
  acyclic (connections script) ->
  handlesClear (nodes script) (connections script) ->
  (length (nodes script) <= depth)%nat ->
  exists r c' bs,
    compile depth script c = Ok (r, c')
    /\ code r = JS.join newline (output c')
    /\ output c' = prelude script ++ List.concat (List.map snd bs)
                   ++ coda (indentLevel c' + 2)
    /\ mainBlocks depth script bs
    /\ (forall n, In n (nodes script) -> In n (List.map fst bs))
    /\ (forall conn A B,
          In conn (connections script) ->
          In A (nodes script) -> In B (nodes script) ->
          id A = source conn -> id B = target conn ->
          exists bs1 blkA bs2 blkB bs3,
            bs = bs1 ++ (A, blkA) :: bs2 ++ (B, blkB) :: bs3).
Proof.
  intros HW Hnd Ha Hh Hd.
  destruct (topologicalSort_wellFormed _ _ HW) as (done & _ & HS).
  destruct (main_pass_order_fits depth script c HW Hnd Ha)
    as (r & c' & bs & Hrun & Hcode & Hout & _ & Hmain & Hall & Hord).
  { intros n Hn.
    exact (acyclic_fits script done depth HS (wellFormed_sources _ _ HW)
             Ha Hh Hd n Hn). }
  exists r, c', bs. auto 10.
Qed.

(** *** The level after [compile] *)

(** Every script that has an [event/collision] node in its topological
    order ends above level 0. *)
Theorem collision_leaves_level_raised depth script c r c' sorted N :
  topologicalSort (nodes script) (connections script) = Ok sorted ->
  In (Some N) sorted -> type N = "event/collision" ->
  compile depth script c = Ok (r, c') ->
  (1 <= indentLevel c')%Z.
Proof.
  intros Ht Hin Hty H.
  destruct (compile_main_pass _ _ _ _ _ H) as (sorted' & c1 & Ht' & Hc & Hl).
  rewrite Ht in Ht'. inversion Ht'; subst sorted'.
  pose proof (compileSorted_collision _ _ _ _ _ _ _ N Hin Hty Hc) as Hc1.
  cbn [indentLevel] in Hc1. lia.
Qed.

(** A script that compiles no [event/collision] node ends at level 0. *)
Theorem calm_script_level depth script c r c' sorted :
  topologicalSort (nodes script) (connections script) = Ok sorted ->
  (forall N, In (Some N) sorted ->
     calm depth (connectionMapOf script) (nodeMapOf script) N = true) ->
  compile depth script c = Ok (r, c') ->
  indentLevel c' = 0%Z.
Proof.
  intros Ht Hcalm H.
  destruct (compile_main_pass _ _ _ _ _ H) as (sorted' & c1 & Ht' & Hc & Hl).
  rewrite Ht in Ht'. inversion Ht'; subst sorted'.
  rewrite (compileSorted_calm _ _ _ _ _ _ _ Hcalm Hc) in Hl.
  cbn [indentLevel] in Hl. lia.
Qed.

(* ================================================================== *)
(** ** Identifiers *)

Lemma isIdChar_alphabet c : isIdChar c = inAlphabet c.
Proof.
  destruct c as [[] [] [] [] [] [] [] []]; vm_compute; reflexivity.
Qed.

Lemma sanitizeId_length s : String.length (sanitizeId s) = String.length s.
Proof. induction s as [|c s IH]; simpl; congruence. Qed.

Lemma sanitizeId_get s : forall i c,
  String.get i s = Some c ->
  String.get i (sanitizeId s) = Some (if inAlphabet c then c else "_"%char).
Proof.
  induction s as [|a s IH]; intros i c H; [destruct i; discriminate|].
  destruct i as [|i]; simpl in *.
  - inversion H; subst. now rewrite isIdChar_alphabet.
  - now apply IH.
Qed.

Lemma sanitizeId_idempotent s : sanitizeId (sanitizeId s) = sanitizeId s.
Proof.
  induction s as [|c s IH]; simpl; [reflexivity|]. rewrite IH. f_equal.
  destruct (isIdChar c) eqn:E; [now rewrite E | reflexivity].
Qed.

(* ================================================================== *)
(** ** Examples *)

Example pipeline_output :
  exists r c',
    compile 3 pipelineScript newCompiler = Ok (r, c')
    /\ output c'
       = prelude pipelineScript
         ++ [ "        // Node: event/update";
              "        ";
              "        // Node: math/add";
              "        let result_A = dt + 0.0;";
              "        ";
              "        // Node: math/multiply";
              "        let result_B = result_A * 0.0;";
              "        " ]
         ++ coda 2.
Proof. eexists. eexists. split; vm_compute; reflexivity. Qed.

Example ghost_target_type_error :
  compile 1 ghostTargetScript newCompiler = TypeError.
Proof. reflexivity. Qed.

Lemma echo_overflows depth : forall c,
  compileNode depth (mkNode "a_b" "flow/if" (mkData None None None))
    (connectionMapOf echoScript) (nodeMapOf echoScript) c = RangeError.
Proof.
  induction depth as [|depth IH]; intros c; [reflexivity|].
  rewrite compileNode_S.
  destruct (writeLine ("// Node: " +++ nodeTitle
              (mkNode "a_b" "flow/if" (mkData None None None))) c)
    as [[[] c1]| | |] eqn:E1.
  - rewrite (bind_run _ _ _ _ _ E1). apply bind_RangeError.
    rewrite dispatch_if by reflexivity. unfold compileIfStatement.
    rewrite (bind_run _ _ c1 _ c1) by reflexivity.
    apply writeLine_Ok in E1. destruct E1 as [H0 ->].
    repeat run_line. apply bind_RangeError.
    change (connectionsAt (connectionMapOf echoScript)
              (id (mkNode "a_b" "flow/if" (mkData None None None)) +++ "_then"))
      with [mkConn "c1" "a" "b_then" "a_b" "exec"].
    simpl compileTargets.
    change (map_get (nodeMapOf echoScript) "a_b")
      with (Some (mkNode "a_b" "flow/if" (mkData None None None))).
    apply bind_RangeError. apply IH.
  - unfold writeLine in E1. destruct (indentLevel c <? 0)%Z; discriminate.
  - now apply bind_RangeError.
  - unfold writeLine in E1. destruct (indentLevel c <? 0)%Z; discriminate.
Qed.

(** Why the handles have to be read as written: [echoScript] has no
    cycle, and [compile] uses up any stack on it. *)
Example echo_script_overflows (depth : nat) :
  acyclic (connections echoScript)
  /\ wellFormed (nodes echoScript) (connections echoScript)
  /\ compile depth echoScript newCompiler = RangeError.
Proof.
  split; [|split].
  - apply (ranked_acyclic _ (fun x => if String.eqb x "a" then 0 else 1)%nat).
    intros conn [<-|[]]; simpl; lia.
  - intros conn [<-|[]]; simpl; tauto.
  - unfold compile. rewrite (bind_run _ _ newCompiler tt newCompiler) by reflexivity.
    change (topologicalSort (nodes echoScript) (connections echoScript))
      with (Ok [Some (mkNode "a" "event/update" (mkData None None None));
                Some (mkNode "a_b" "flow/if" (mkData None None None))]).
    rewrite (bind_run _ _ newCompiler _ newCompiler) by reflexivity.
    repeat run_line. apply bind_RangeError.
    cbn [compileSorted].
    destruct depth as [|depth]; [reflexivity|].
    rewrite compileNode_S. repeat (rewrite bind_assoc || run_line).
    change (dispatch _ (mkNode "a" "event/update" (mkData None None None)) _ _)
      with (compileUpdateEvent (mkNode "a" "event/update" (mkData None None None))).
    unfold compileUpdateEvent. repeat (rewrite bind_assoc || run_line).
    apply bind_RangeError. apply echo_overflows.
Qed.

(** A node on a cycle has no block in the main pass, and is written all
    the same when a branch of the order leads to it: [A] waits for [B]
    and [B] for [A], and the block of [A] stands inside that of the
    branch [F]. *)
Example cycle_node_written_in_branch :
  onCycle (connections branchIntoCycleScript) "A"
  /\ topologicalSort (nodes branchIntoCycleScript)
       (connections branchIntoCycleScript)
     = Ok [ Some (mkNode "F" "flow/if" (mkData None None None)) ]
  /\ exists r c',
       compile 2 branchIntoCycleScript newCompiler = Ok (r, c')
       /\ output c'
          = prelude branchIntoCycleScript
            ++ [ "        // Node: flow/if";
                 "        if false {";
                 "            // Node: math/add";
                 "            let result_A = 0.0 + 0.0;";
                 "            ";
                 "        }";
                 "        " ]
            ++ coda 2.
Proof.
  split; [|split; [reflexivity|]].
  - apply reach_step with (w := "B").
    + exists (mkConn "c1" "A" "result" "B" "a"). simpl. tauto.
    + apply reach_edge. exists (mkConn "c2" "B" "result" "A" "a"). simpl. tauto.
  - eexists. eexists. split; vm_compute; reflexivity.
Qed.

Lemma cycleScript_wellFormed :
  wellFormed (nodes cycleScript) (connections cycleScript).
Proof.
  intros conn [<-|[<-|[]]]; simpl; tauto.
Qed.

Lemma cycleScript_cycle : onCycle (connections cycleScript) "A".
Proof.
  apply reach_step with (w := "B").
  - exists (mkConn "c1" "A" "result" "B" "a"). simpl. tauto.
  - apply reach_edge. exists (mkConn "c2" "B" "result" "A" "a"). simpl. tauto.
Qed.

Lemma cycleScript_cycle_B : onCycle (connections cycleScript) "B".
Proof.
  apply reach_step with (w := "A").
  - exists (mkConn "c2" "B" "result" "A" "a"). simpl. tauto.
  - apply reach_edge. exists (mkConn "c1" "A" "result" "B" "a"). simpl. tauto.
Qed.

(* ================================================================== *)
(** * The specification, claim by claim *)

(** C1, as the code has it.  [compile] has no error for a cycle.  On a
    script whose connections join nodes of the graph, and with room on
    the stack for the nodes that are neither on a cycle nor behind one,
    it returns a [CompiledSystem]: its lines are the opening lines, one block per
    entry of the order [topologicalSort] returns, in that order, and the
    closing lines.  No id stands twice in that order, and the id of a node
    is in it exactly when the node is neither on a cycle nor behind one:
    the nodes on a cycle have no block of their own in the main pass, and
    nothing reports them.  What a branch or a loop of the order lists
    under its [_then], [_else] or [_body] key is still written inside
    its block, a node on a cycle included (as [A] of
    [branchIntoCycleScript] is). *)
Theorem cycle_nodes_left_out (depth : nat) (script : VisualScript)
    (c : Compiler) :
  wellFormed (nodes script) (connections script) ->
  (forall n, In n (nodes script) ->
             ~ behindCycle (connections script) (id n) ->
             fits depth (connectionMapOf script) (nodeMapOf script) n = true) ->
  exists r c' (bs : list (VisualScriptNode * list string)),
    compile depth script c = Ok (r, c')
    /\ code r = JS.join newline (output c')
    /\ output c' = prelude script ++ List.concat (List.map snd bs)
                   ++ coda (indentLevel c' + 2)
    /\ topologicalSort (nodes script) (connections script)
       = Ok (List.map (fun b => Some (fst b)) bs)
    /\ NoDup (List.map (fun b => id (fst b)) bs)
    /\ (forall x, In x (nodeIds (nodes script)) ->
          (In x (List.map (fun b => id (fst b)) bs)
           <-> ~ behindCycle (connections script) x))
    /\ List.Forall
         (fun b => In (fst b) (nodes script)
                   /\ ~ onCycle (connections script) (id (fst b))
                   /\ blockOf depth (connectionMapOf script) (nodeMapOf script)
                        (fst b) (snd b)
                   /\ forall M,
                        In M (nested (connectionMapOf script)
                                (nodeMapOf script) (fst b)) ->
                        exists k, In (headerLine k M) (snd b)) bs.
Proof.
  intros HW Hfit.
  pose proof (wellFormed_sources _ _ HW) as Hsrc.
  destruct (topologicalSort_wellFormed _ _ HW) as (done & Ht & HS).
  destruct (compile_sorted_run depth script c done Ht HS)
    as (r & c' & bs0 & Hrun & _).
  { intros n Hn Hd. apply Hfit; [assumption|].
    apply (Sorted_members (nodes script) _ done); try assumption.
    now apply in_map. }
  destruct (compile_inv _ _ _ _ _ Hrun)
    as (sorted & bs & Hs & Hbs & Hblk & _ & Hout & Hr).
  assert (Hsorted : List.map (fun b => Some (fst b)) bs
                    = List.map (map_get (nodeMapOf script)) done).
  { rewrite Hbs. unfold nodeMapOf. congruence. }
  destruct (blocks_ids (nodeMapOf script) (nodes script)
              (nodeMapOf_get script) bs done Hsorted) as [Hids Hnodes].
  exists r, c', bs. split; [exact Hrun|]. split; [now subst r|].
  split; [exact Hout|]. split; [now rewrite Hbs|].
  split; [rewrite Hids; apply (sorted_nodup _ _ _ HS)|].
  split.
  { intros x Hx. rewrite Hids. now apply (Sorted_members (nodes script)). }
  apply Forall_forall. intros [n blk] Hb. simpl.
  split; [exact (Hnodes n blk Hb)|]. split; [|split; [exact (Hblk n blk Hb)|]].
  - intros Hc. apply (cycle_left_out _ _ _ _ HS Hc).
    rewrite <- Hids. apply in_map_iff. now exists (n, blk).
  - intros M HM. destruct (Hblk n blk Hb) as (x & x' & Hx & Hox).
    destruct (nested_header _ _ _ _ _ _ _ _ Hx HM) as (k & lines & Ho & Hin).
    rewrite Ho in Hox. apply app_inv_head in Hox.
    exists k. rewrite <- Hox. now right.
Qed.

Lemma cycle_nodes_left_out_witness :
  wellFormed (nodes halfCycleScript) (connections halfCycleScript)
  /\ (forall n, In n (nodes halfCycleScript) ->
        ~ behindCycle (connections halfCycleScript) (id n) ->
        fits 1 (connectionMapOf halfCycleScript) (nodeMapOf halfCycleScript) n
        = true)
  /\ exists r c' bs,
       compile 1 halfCycleScript newCompiler = Ok (r, c')
       /\ code r = JS.join newline (output c')
       /\ output c' = prelude halfCycleScript ++ List.concat (List.map snd bs)
                      ++ coda (indentLevel c' + 2)
       /\ topologicalSort (nodes halfCycleScript) (connections halfCycleScript)
          = Ok (List.map (fun b => Some (fst b)) bs)
       /\ NoDup (List.map (fun b => id (fst b)) bs)
       /\ (forall x, In x (nodeIds (nodes halfCycleScript)) ->
             (In x (List.map (fun b => id (fst b)) bs)
              <-> ~ behindCycle (connections halfCycleScript) x))
       /\ List.Forall
            (fun b => In (fst b) (nodes halfCycleScript)
                      /\ ~ onCycle (connections halfCycleScript) (id (fst b))
                      /\ blockOf 1 (connectionMapOf halfCycleScript)
                           (nodeMapOf halfCycleScript) (fst b) (snd b)
                      /\ forall M,
                           In M (nested (connectionMapOf halfCycleScript)
                                   (nodeMapOf halfCycleScript) (fst b)) ->
                           exists k, In (headerLine k M) (snd b)) bs.
Proof.
  assert (HW : wellFormed (nodes halfCycleScript) (connections halfCycleScript)).
  { intros conn [<-|[<-|[]]]; simpl; tauto. }
  assert (Hfit : forall n, In n (nodes halfCycleScript) ->
            ~ behindCycle (connections halfCycleScript) (id n) ->
            fits 1 (connectionMapOf halfCycleScript)
              (nodeMapOf halfCycleScript) n = true).
  { intros n [<-|[<-|[<-|[]]]] _; reflexivity. }
  split; [exact HW|]. split; [exact Hfit|].
  exact (cycle_nodes_left_out 1 halfCycleScript newCompiler HW Hfit).
Defined.

(** C1 fails as stated: the two nodes of [cycleScript] wait for each
    other, and [compile] returns a [CompiledSystem] whose code has the
    opening and closing lines and nothing for either node. *)
Lemma cycle_silently_dropped :
  wellFormed (nodes cycleScript) (connections cycleScript)
  /\ onCycle (connections cycleScript) "A"
  /\ onCycle (connections cycleScript) "B"
  /\ exists r c',
       compile 1 cycleScript newCompiler = Ok (r, c')
       /\ output c' = prelude cycleScript ++ coda 2
       /\ code r = JS.join newline (prelude cycleScript ++ coda 2).
Proof.
  split; [exact cycleScript_wellFormed|].
  split; [exact cycleScript_cycle|].
  split; [exact cycleScript_cycle_B|].
  eexists. eexists. split; [vm_compute; reflexivity|].
  split; vm_compute; reflexivity.
Qed.

(** C2, as the code has it.  [compile] hands all the nodes and all the
    connections of the script to the sort, and the main pass compiles
    every node of the order, nested or not.  On a script without a cycle,
    a node below a branch or a loop ([M] is a target of a [_then], [_else]
    or [_body] connection of [I]) is therefore compiled inside the block
    of [I] and once more by the main pass: the output holds two headers
    of [M] or more. *)
Theorem nested_node_compiled_again (depth : nat) (script : VisualScript)
    (c : Compiler) (I M : VisualScriptNode) :
  wellFormed (nodes script) (connections script) ->
  NoDup (nodeIds (nodes script)) ->
  acyclic (connections script) ->
  handlesClear (nodes script) (connections script) ->
  (length (nodes script) <= depth)%nat ->
  In I (nodes script) ->
  In M (nested (connectionMapOf script) (nodeMapOf script) I) ->
  exists r c' bs,
    compile depth script c = Ok (r, c')
    /\ code r = JS.join newline (output c')
    /\ output c' = prelude script ++ List.concat (List.map snd bs)
                   ++ coda (indentLevel c' + 2)
    /\ mainBlocks depth script bs
    /\ (forall n, In n (nodes script) -> In n (List.map fst bs))
    /\ (2 <= headerCount M (output c'))%nat.
Proof.
  intros HW Hnd Ha Hh Hd HI HM.
  destruct (main_pass_order depth script c HW Hnd Ha Hh Hd)
    as (r & c' & bs & Hrun & Hcode & Hout & Hmain & Hall & Hord).
  exists r, c', bs. repeat (split; [assumption|]).
  destruct (nested_edge script I M Hh HI HM) as [(conn & Hc & Hs & Ht) HMin].
  destruct (Hord conn I M Hc HI HMin (eq_sym Hs) (eq_sym Ht))
    as (bs1 & blkI & bs2 & blkM & bs3 & Ebs).
  unfold mainBlocks in Hmain. rewrite Forall_forall in Hmain.
  assert (HbI : In (I, blkI) bs).
  { rewrite Ebs. apply in_or_app. right. now left. }
  assert (HbM : In (M, blkM) bs).
  { rewrite Ebs. apply in_or_app. right. right. apply in_or_app. right. now left. }
  destruct (Hmain _ HbI) as (_ & (cI & cI' & HrunI & HoutI) & _).
  destruct (Hmain _ HbM) as (_ & _ & (kM & restM & EM)).
  simpl in HrunI, HoutI, EM.
  destruct (nested_header _ _ _ _ _ _ _ _ HrunI HM) as (k & lines & Ho & Hin).
  rewrite Ho in HoutI. apply app_inv_head in HoutI.
  assert (H1 : (1 <= headerCount M blkI)%nat).
  { apply (headerCount_In M k). rewrite <- HoutI. now right. }
  assert (H2 : (1 <= headerCount M blkM)%nat).
  { apply (headerCount_In M kM). rewrite EM. now left. }
  rewrite Hout, Ebs, !headerCount_app.
  rewrite map_app, map_cons, map_app, map_cons.
  rewrite concat_app, concat_cons, concat_app, concat_cons.
  rewrite !headerCount_app. cbn [snd]. lia.
Qed.

Lemma nested_node_compiled_again_witness :
  wellFormed (nodes nestedScript) (connections nestedScript)
  /\ NoDup (nodeIds (nodes nestedScript))
  /\ acyclic (connections nestedScript)
  /\ handlesClear (nodes nestedScript) (connections nestedScript)
  /\ (length (nodes nestedScript) <= 2)%nat
  /\ In (mkNode "I" "flow/if" (mkData (Some "branch") None None))
        (nodes nestedScript)
  /\ In (mkNode "M" "math/add" (mkData (Some "sum") None None))
        (nested (connectionMapOf nestedScript) (nodeMapOf nestedScript)
           (mkNode "I" "flow/if" (mkData (Some "branch") None None)))
  /\ exists r c' bs,
       compile 2 nestedScript newCompiler = Ok (r, c')
       /\ code r = JS.join newline (output c')
       /\ output c' = prelude nestedScript ++ List.concat (List.map snd bs)
                      ++ coda (indentLevel c' + 2)
       /\ mainBlocks 2 nestedScript bs
       /\ (forall n, In n (nodes nestedScript) -> In n (List.map fst bs))
       /\ (2 <= headerCount
                  (mkNode "M" "math/add" (mkData (Some "sum") None None))
                  (output c'))%nat.
Proof.
  assert (H1 : wellFormed (nodes nestedScript) (connections nestedScript)).
  { intros conn [<-|[]]; simpl; tauto. }
  assert (H2 : NoDup (nodeIds (nodes nestedScript))).
  { repeat constructor; simpl; intuition discriminate. }
  assert (H3 : acyclic (connections nestedScript)).
  { apply (ranked_acyclic _ (fun x => if String.eqb x "I" then 0 else 1)%nat).
    intros conn [<-|[]]; simpl; lia. }
  assert (H4 : handlesClear (nodes nestedScript) (connections nestedScript)).
  { intros conn n suffix [<-|[]] [<-|[<-|[]]] [<-|[<-|[<-|[]]]] H;
      simpl in *; try reflexivity; discriminate. }
  assert (H5 : (length (nodes nestedScript) <= 2)%nat) by (simpl; lia).
  assert (H6 : In (mkNode "I" "flow/if" (mkData (Some "branch") None None))
                 (nodes nestedScript)) by (simpl; tauto).
  assert (H7 : In (mkNode "M" "math/add" (mkData (Some "sum") None None))
                 (nested (connectionMapOf nestedScript) (nodeMapOf nestedScript)
                    (mkNode "I" "flow/if" (mkData (Some "branch") None None))))
    by (vm_compute; tauto).
  repeat (split; [assumption|]).
  exact (nested_node_compiled_again 2 nestedScript newCompiler _ _
           H1 H2 H3 H4 H5 H6 H7).
Defined.

(** C2 fails as stated: in [nestedScript] the node [M] is below the
    branch [I], and the output of [compile] holds its code twice, once
    inside the branch and once after it. *)
Lemma nested_node_emitted_twice :
  exists r c',
    compile 2 nestedScript newCompiler = Ok (r, c')
    /\ output c'
       = prelude nestedScript
         ++ [ "        // Node: branch";
              "        if false {";
              "            // Node: sum";
              "            let result_M = 0.0 + 0.0;";
              "            ";
              "        }";
              "        ";
              "        // Node: sum";
              "        let result_M = 0.0 + 0.0;";
              "        " ]
         ++ coda 2
    /\ headerCount (mkNode "M" "math/add" (mkData (Some "sum") None None))
         (output c') = 2%nat.
Proof.
  eexists. eexists. split; [vm_compute; reflexivity|].
  split; vm_compute; reflexivity.
Qed.

(** C3, as the code has it.  There is no check of the connections and no
    error of its own for them.  A connection whose source is not a node
    of the graph makes [compile] fail with the [TypeError] of
    [graph.get(conn.source)!.push]; a connection whose target is not a
    node makes it fail with the [TypeError] of the loop over
    [graph.get(nodeId)!] when every source is a node and the connections
    have no cycle.  In both cases no [CompiledSystem] is returned. *)
Theorem dangling_connection_type_error (depth : nat) (script : VisualScript)
    (c : Compiler) (conn : VisualScriptConnection) :
  In conn (connections script) ->
  (~ In (source conn) (nodeIds (nodes script))
   \/ (sourcesKnown (nodes script) (connections script)
       /\ acyclic (connections script)
       /\ ~ In (target conn) (nodeIds (nodes script)))) ->
  compile depth script c = TypeError.
Proof.
  intros Hc [Hs|(Hs & Ha & Ht)]; apply compile_sort_fails.
  - now apply (topologicalSort_dangling_source _ _ conn).
  - now apply (dangling_target_detected _ _ conn).
Qed.

Lemma dangling_connection_type_error_witness :
  In (mkConn "c1" "ghost" "result" "A" "a") (connections ghostSourceScript)
  /\ ~ In (source (mkConn "c1" "ghost" "result" "A" "a"))
         (nodeIds (nodes ghostSourceScript))
  /\ compile 1 ghostSourceScript newCompiler = TypeError.
Proof.
  assert (H1 : In (mkConn "c1" "ghost" "result" "A" "a")
                 (connections ghostSourceScript)) by (simpl; tauto).
  assert (H2 : ~ In (source (mkConn "c1" "ghost" "result" "A" "a"))
                   (nodeIds (nodes ghostSourceScript))).
  { simpl. intros [H|[]]. discriminate. }
  split; [exact H1|]. split; [exact H2|].
  exact (dangling_connection_type_error 1 ghostSourceScript newCompiler _
           H1 (or_introl H2)).
Defined.

(** C3 fails as stated: the second connection of [danglingScript] ends
    at a node that does not exist, and [compile] returns a
    [CompiledSystem]. *)
Lemma dangling_target_accepted :
  (exists conn,
      In conn (connections danglingScript)
      /\ ~ In (target conn) (nodeIds (nodes danglingScript)))
  /\ exists r c',
       compile 1 danglingScript newCompiler = Ok (r, c')
       /\ output c' = prelude danglingScript ++ coda 2.
Proof.
  split.
  - exists (mkConn "c2" "A" "result" "ghost" "a"). split; [simpl; tauto|].
    simpl. intros [H|[]]. discriminate.
  - eexists. eexists. split; vm_compute; reflexivity.
Qed.

(** C4.  The claim fails on a script with one [event/collision] node:
    [compileCollisionEvent] writes the opening line of the loop over the
    collision pairs and raises the level, and nothing lowers it again or
    writes the closing line.  After [compile] the level is 1, not 0, and
    the two closing lines [compile] writes stand one level too deep, so
    the text has four opening braces and three closing ones. *)
Theorem collision_scope_left_open (c : Compiler) :
  exists r c',
    compile 1 collisionScript c = Ok (r, c')
    /\ indentLevel c' = 1%Z
    /\ output c'
       = [ "pub struct HitSystem {";
           "    // System state";
           "}";
           "";
           "impl System for HitSystem {";
           "    fn execute(&mut self, world: &mut World, physics: &mut PhysicsWorld, dt: f32) {";
           "        // Node: event/collision";
           "        for (entity_a, entity_b) in physics.get_collision_pairs() {";
           "            ";
           "        }";
           "    }" ]
    /\ code r = JS.join newline (output c').
Proof.
  rewrite compile_reset. eexists. eexists.
  split; [vm_compute; reflexivity|]. vm_compute. repeat split.
Qed.




(** C6.  [compile] starts with [reset], so its outcome -- the [code] and
    the [dependencies] it returns, or the exception -- depends on the
    script alone and not on what the compiler object held before; and
    two runs in a row on the same compiler object return the result of
    one run twice. *)
Theorem compile_deterministic (depth : nat) (script : VisualScript)
    (c1 c2 : Compiler) :
  compile depth script c1 = compile depth script c2
  /\ (r1 <- compile depth script ;; r2 <- compile depth script ;; ret (r1, r2)) c1
     = (r <- compile depth script ;; ret (r, r)) c1.
Proof.
  split.
  - now rewrite (compile_reset depth script c1), (compile_reset depth script c2).
  - unfold bind at 1 3.
    destruct (compile depth script c1) as [[r c1']| | |] eqn:E; try reflexivity.
    unfold bind. rewrite (compile_reset depth script c1').
    rewrite <- (compile_reset depth script c1), E. reflexivity.
Qed.

(** C7.  A [math/add] or [math/multiply] node compiled at a level that
    is not negative writes its header, one binding statement with the
    operator of its type, and an empty line; an operand whose input has no
    connection is the literal [0.0] (so are those whose producer has no
    symbol yet); the node id is bound to the result symbol, which is what
    a node reading this one through a connection receives. *)
Theorem math_node_defaults (depth : nat) (N : VisualScriptNode)
    (conns : ConnectionMap) (nodeMap : jsmap VisualScriptNode)
    (c : Compiler) (op : string) :
  mathOperator N = Some op ->
  (0 <= indentLevel c)%Z ->
  exists c' left right,
    compileNode (S depth) N conns nodeMap c = Ok (tt, c')
    /\ output c'
       = output c
         ++ [ headerLine (indentLevel c) N;
              pad (indentLevel c) +++ "let " +++ resultVar N +++ " = "
                +++ left +++ " " +++ op +++ " " +++ right +++ ";";
              pad (indentLevel c) +++ "" ]
    /\ left = JS.or_else (inputValue (id N) "a" conns c) "0.0"
    /\ right = JS.or_else (inputValue (id N) "b" conns c) "0.0"
    /\ (unconnected (id N) "a" conns -> left = "0.0")
    /\ (unconnected (id N) "b" conns -> right = "0.0")
    /\ (unconnected (id N) "a" conns -> unconnected (id N) "b" conns ->
        op = "+" ->
        In (pad (indentLevel c) +++ "let " +++ resultVar N +++ " = 0.0 + 0.0;")
           (output c'))
    /\ map_get (nodeOutputs c') (id N) = Some (resultVar N)
    /\ (forall D h conn,
          List.find (feedsInput D h) (allConnections conns) = Some conn ->
          source conn = id N ->
          inputValue D h conns c' = Some (resultVar N)).
Proof.
  intros Hop Hc.
  eexists. exists (JS.or_else (inputValue (id N) "a" conns c) "0.0"),
             (JS.or_else (inputValue (id N) "b" conns c) "0.0").
  split.
  { rewrite compileNode_S. run_line. rewrite (dispatch_math _ _ _ _ _ Hop).
    unfold compileMathOperation. repeat (rewrite bind_assoc || run_line).
    apply writeLine_run. cbn [indentLevel]. lia. }
  cbn [indentLevel output nodeOutputs].
  split; [rewrite <- !app_assoc; reflexivity|].
  split; [reflexivity|]. split; [reflexivity|].
  split; [intros H; now rewrite inputValue_unconnected|].
  split; [intros H; now rewrite inputValue_unconnected|].
  split.
  { intros Ha Hb ->. rewrite !inputValue_unconnected by assumption.
    apply in_or_app. left. apply in_or_app. right. left. reflexivity. }
  split; [apply map_get_set_same|].
  intros D h conn Hf Hs. unfold inputValue. rewrite Hf.
  cbn [nodeOutputs]. rewrite Hs, map_get_set_same. reflexivity.
Qed.

Lemma math_node_defaults_witness :
  mathOperator (mkNode "n1" "math/add" (mkData None None None)) = Some "+"
  /\ (0 <= indentLevel newCompiler)%Z
  /\ exists c',
       compileNode 1 (mkNode "n1" "math/add" (mkData None None None)) [] []
         newCompiler = Ok (tt, c')
       /\ output c' = [ "// Node: math/add"; "let result_n1 = 0.0 + 0.0;"; "" ]
       /\ map_get (nodeOutputs c') "n1" = Some "result_n1".
Proof.
  assert (H1 : mathOperator (mkNode "n1" "math/add" (mkData None None None))
               = Some "+") by reflexivity.
  assert (H2 : (0 <= indentLevel newCompiler)%Z) by (simpl; lia).
  split; [exact H1|]. split; [exact H2|].
  destruct (math_node_defaults 0 (mkNode "n1" "math/add" (mkData None None None))
              [] [] newCompiler "+" H1 H2)
    as (c' & left & right & Hrun & Hout & Hl & Hr & _ & _ & _ & Hsym & _).
  exists c'. split; [exact Hrun|]. split; [|exact Hsym].
  rewrite Hout, Hl, Hr. reflexivity.
Defined.

(** C8.  A [flow/if] node compiled at a level that is not negative, with
    room on the stack for what is nested below it, writes its header, the
    line [if <condition> {], the blocks of the targets of its [_then]
    connections in the order of those connections, and then
    - with no [_else] connection, the closing line and nothing else;
    - with one or more, the line [} else {], the blocks of the targets of
      the [_else] connections in their order, and the closing line.
    An unresolved condition is written [false], and the connections of a
    handle are those of the connection array with that key, in the order
    of the array. *)
Theorem flow_if_blocks (depth : nat) (N : VisualScriptNode)
    (conns : ConnectionMap) (nodeMap : jsmap VisualScriptNode)
    (c : Compiler) :
  type N = "flow/if" ->
  (0 <= indentLevel c)%Z ->
  fits (S depth) conns nodeMap N = true ->
  exists c' thenBlocks c1,
    compileNode (S depth) N conns nodeMap c = Ok (tt, c')
    /\ emitsEach (fun n => compileNode depth n conns nodeMap) nodeMap
         (connectionsAt conns (id N +++ "_then"))
         (opened (headed c N) (ifLine N conns c)) thenBlocks c1
    /\ ((connectionsAt conns (id N +++ "_else") = []
         /\ output c'
            = output c
              ++ [ headerLine (indentLevel c) N;
                   pad (indentLevel c) +++ ifLine N conns c ]
              ++ List.concat thenBlocks
              ++ [ pad (indentLevel c1 - 1) +++ "}";
                   pad (indentLevel c1 - 1) +++ "" ])
        \/ (connectionsAt conns (id N +++ "_else") <> []
            /\ exists elseBlocks c2,
                emitsEach (fun n => compileNode depth n conns nodeMap) nodeMap
                  (connectionsAt conns (id N +++ "_else"))
                  (opened (lowered c1) "} else {") elseBlocks c2
                /\ output c'
                   = output c
                     ++ [ headerLine (indentLevel c) N;
                          pad (indentLevel c) +++ ifLine N conns c ]
                     ++ List.concat thenBlocks
                     ++ [ pad (indentLevel c1 - 1) +++ "} else {" ]
                     ++ List.concat elseBlocks
                     ++ [ pad (indentLevel c2 - 1) +++ "}";
                          pad (indentLevel c2 - 1) +++ "" ]))
    /\ (inputValue (id N) "condition" conns c = None ->
        ifLine N conns c = "if false {")
    /\ (forall cs key,
          connectionsAt (buildConnectionMap cs) key
          = List.filter (fun conn => String.eqb (connKey conn) key) cs).
Proof.
  intros Ht Hc Hf.
  destruct (compileNode_total (S depth) N conns nodeMap c Hf Hc) as [c' Hrun].
  exists c'. pose proof Hrun as H.
  rewrite compileNode_S, (dispatch_if _ _ _ _ Ht) in H. run_inv H.
  match goal with
  | Hi : compileIfStatement _ _ _ _ _ = Ok _ |- _ =>
      destruct (compileIfStatement_shape _ _ _ _
                  (fun n => compileNode_grows depth n conns nodeMap) _ _ _ Hi)
        as (_ & thenBlocks & c1 & Hthen & Hl1
            & [[He Hc']|[He (elseBlocks & c2 & Helse & Hl2 & Hc')]])
  end;
    exists thenBlocks, c1; (split; [exact Hrun|]); (split; [exact Hthen|]);
    rewrite Hc' in H; cbn [indentLevel output nodeOutputs] in H; subst c';
    cbn [indentLevel output nodeOutputs].
  - split; [|split].
    + left. split; [exact He|]. unfold headerLine.
      rewrite <- !app_assoc. reflexivity.
    + intros Hn. unfold ifLine. rewrite Hn. reflexivity.
    + exact buildConnectionMap_get.
  - split; [|split].
    + right. split; [exact He|]. exists elseBlocks, c2. split; [exact Helse|].
      unfold headerLine. rewrite <- !app_assoc. reflexivity.
    + intros Hn. unfold ifLine. rewrite Hn. reflexivity.
    + exact buildConnectionMap_get.
Qed.

Lemma flow_if_blocks_witness :
  type (mkNode "I" "flow/if" (mkData None None None)) = "flow/if"
  /\ (0 <= indentLevel newCompiler)%Z
  /\ fits 2 (connectionMapOf branchScript) (nodeMapOf branchScript)
        (mkNode "I" "flow/if" (mkData None None None)) = true
  /\ exists c',
       compileNode 2 (mkNode "I" "flow/if" (mkData None None None))
         (connectionMapOf branchScript) (nodeMapOf branchScript) newCompiler
       = Ok (tt, c')
       /\ output c'
          = [ "// Node: flow/if";
              "if false {";
              "    // Node: then side";
              "    let result_T = 0.0 + 0.0;";
              "    ";
              "} else {";
              "    // Node: else side";
              "    let result_E = 0.0 * 0.0;";
              "    ";
              "}";
              "" ].
Proof.
  assert (H1 : type (mkNode "I" "flow/if" (mkData None None None)) = "flow/if")
    by reflexivity.
  assert (H2 : (0 <= indentLevel newCompiler)%Z) by (simpl; lia).
  assert (H3 : fits 2 (connectionMapOf branchScript) (nodeMapOf branchScript)
                 (mkNode "I" "flow/if" (mkData None None None)) = true)
    by reflexivity.
  split; [exact H1|]. split; [exact H2|]. split; [exact H3|].
  destruct (flow_if_blocks 1 (mkNode "I" "flow/if" (mkData None None None))
              (connectionMapOf branchScript) (nodeMapOf branchScript)
              newCompiler H1 H2 H3)
    as (c' & thenBlocks & c1 & Hrun & _).
  exists c'. split; [exact Hrun|].
  vm_compute in Hrun. inversion Hrun. reflexivity.
Defined.

(** C9.  [sanitizeId] keeps the length of an id and works one character
    at a time: a character of [[A-Za-z0-9_]] is kept and any other becomes
    [_]; the result is a function of the id alone, so sanitizing again
    changes nothing, and ["node-1 x"] becomes ["node_1_x"]. *)
Theorem sanitizeId_characters (s : string) (i : nat) (c : ascii) :
  String.get i s = Some c ->
  String.get i (sanitizeId s) = Some (if inAlphabet c then c else "_"%char)
  /\ String.length (sanitizeId s) = String.length s
  /\ sanitizeId (sanitizeId s) = sanitizeId s
  /\ sanitizeId "node-1 x" = "node_1_x".
Proof.
  intros H. split; [now apply sanitizeId_get|].
  split; [apply sanitizeId_length|].
  split; [apply sanitizeId_idempotent | reflexivity].
Qed.

Lemma sanitizeId_characters_witness :
  String.get 4 "node-1 x" = Some "-"%char
  /\ String.get 4 (sanitizeId "node-1 x") = Some "_"%char.
Proof.
  split; [reflexivity|].
  exact (proj1 (sanitizeId_characters "node-1 x" 4 "-"%char eq_refl)).
Defined.

(** C10.  [sanitizeId] is not injective: ["a.b"] and ["a_b"] are distinct
    ids with the same identifier.  Two [math/add] nodes with these ids
    bind the same symbol [result_a_b], the second binding after the
    first, and a node reading the first one is handed that symbol. *)
Theorem sanitizeId_not_injective :
  "a.b" <> "a_b"
  /\ sanitizeId "a.b" = sanitizeId "a_b"
  /\ exists r c',
       compile 1 clashScript newCompiler = Ok (r, c')
       /\ output c'
          = prelude clashScript
            ++ [ "        // Node: math/add";
                 "        let result_a_b = 0.0 + 0.0;";
                 "        ";
                 "        // Node: math/add";
                 "        let result_a_b = 0.0 + 0.0;";
                 "        ";
                 "        // Node: math/add";
                 "        let result_d = result_a_b + 0.0;";
                 "        " ]
            ++ coda 2
       /\ map_get (nodeOutputs c') "a.b" = Some "result_a_b"
       /\ map_get (nodeOutputs c') "a_b" = Some "result_a_b".
Proof.
  split; [discriminate|]. split; [reflexivity|].
  eexists. eexists. split; [vm_compute; reflexivity|].
  vm_compute. repeat split.
Qed.

(* ================================================================== *)
(** * Further properties of the compiler *)

(* ================================================================== *)
(** ** Strings *)

Lemma append_empty_r s : s +++ "" = s.
Proof. induction s as [|c s IH]; simpl; [reflexivity | now rewrite IH]. Qed.

Lemma append_assoc a b c : (a +++ b) +++ c = a +++ (b +++ c).
Proof. induction a as [|x a IH]; simpl; [reflexivity | now rewrite IH]. Qed.

Lemma append_length a b :
  String.length (a +++ b) = (String.length a + String.length b)%nat.
Proof. induction a as [|x a IH]; simpl; [reflexivity | now rewrite IH]. Qed.

Lemma append_suffix_neq a b : b <> "" -> a +++ b <> a.
Proof.
  intros Hb E. apply (f_equal String.length) in E.
  rewrite append_length in E. destruct b; [now apply Hb | simpl in E; lia].
Qed.

Lemma allChars_app p a b : allChars p (a +++ b) = allChars p a && allChars p b.
Proof.
  induction a as [|c a IH]; simpl; [reflexivity|].
  now rewrite IH, andb_assoc.
Qed.

Lemma join_empty_cons x rest : JS.join "" (x :: rest) = x +++ JS.join "" rest.
Proof. destruct rest; simpl; [now rewrite append_empty_r | reflexivity]. Qed.

(* ================================================================== *)
(** ** [toRustName] *)

Lemma toUpperCase_word c :
  isWordChar c = true -> allChars isWordChar (toUpperCase c) = true.
Proof.
  destruct c as [[] [] [] [] [] [] [] []]; vm_compute; intros H;
    first [reflexivity | discriminate].
Qed.

(** The upper case of a code unit starts in upper case. *)
Lemma capitalize_upper c s : capitalize (toUpperCase c +++ s) = toUpperCase c +++ s.
Proof. destruct c as [[] [] [] [] [] [] [] []]; vm_compute; reflexivity. Qed.

Lemma capitalize_word w :
  allChars isWordChar w = true -> allChars isWordChar (capitalize w) = true.
Proof.
  destruct w as [|c w]; [reflexivity|].
  cbn [allChars capitalize]. intros H. apply andb_true_iff in H as [Hc Hw].
  now rewrite allChars_app, (toUpperCase_word c Hc), Hw.
Qed.

(** The words [split] returns hold no separator. *)
Lemma splitName_words s : forall cur inSep,
  allChars isWordChar cur = true ->
  Forall (fun w => allChars isWordChar w = true) (splitName s cur inSep).
Proof.
  induction s as [|c s IH]; intros cur inSep Hcur; simpl.
  - constructor; [exact Hcur | constructor].
  - destruct (isNameSeparator c) eqn:Ec.
    + destruct inSep.
      * now apply IH.
      * constructor; [exact Hcur|]. now apply IH.
    + apply IH. rewrite allChars_app, Hcur. simpl.
      unfold isWordChar. now rewrite Ec.
Qed.

Lemma join_words ws :
  Forall (fun w => allChars isWordChar w = true) ws ->
  allChars isWordChar (JS.join "" ws) = true.
Proof.
  induction 1 as [|w ws Hw _ IH]; [reflexivity|].
  now rewrite join_empty_cons, allChars_app, Hw, IH.
Qed.

(** A name without separators is one word. *)
Lemma splitName_word s : forall cur inSep,
  allChars isWordChar s = true -> splitName s cur inSep = [cur +++ s].
Proof.
  induction s as [|c s IH]; intros cur inSep H; simpl.
  - now rewrite append_empty_r.
  - simpl in H. apply andb_true_iff in H as [Hc Hs].
    unfold isWordChar in Hc. apply negb_true_iff in Hc. rewrite Hc.
    rewrite (IH _ _ Hs), append_assoc. reflexivity.
Qed.

Lemma capitalize_join ws :
  capitalize (JS.join "" (List.map capitalize ws))
  = JS.join "" (List.map capitalize ws).
Proof.
  induction ws as [|w ws IH]; [reflexivity|].
  cbn [List.map]. rewrite join_empty_cons.
  destruct w as [|c w].
  - exact IH.
  - cbn [capitalize]. rewrite append_assoc. apply capitalize_upper.
Qed.

(** [split] asks of a code unit only whether it is a separator. *)
Lemma splitName_separator u : forall cur inSep a b v,
  isNameSeparator a = true -> isNameSeparator b = true ->
  splitName (u +++ String a v) cur inSep = splitName (u +++ String b v) cur inSep.
Proof.
  induction u as [|c u IH]; intros cur inSep a b v Ha Hb; simpl.
  - now rewrite Ha, Hb.
  - destruct (isNameSeparator c); [destruct inSep|];
      now rewrite (IH _ _ a b v Ha Hb).
Qed.

Lemma splitName_separators s : forall cur,
  allChars isNameSeparator s = true -> splitName s cur true = [cur].
Proof.
  induction s as [|c s IH]; intros cur H; simpl; [reflexivity|].
  simpl in H. apply andb_true_iff in H as [Hc Hs]. rewrite Hc. now apply IH.
Qed.

Lemma capitalized_words n :
  Forall (fun w => allChars isWordChar w = true)
    (List.map capitalize (splitName n "" false)).
Proof.
  assert (H := splitName_words n "" false eq_refl).
  induction H as [|w ws Hw _ IH]; simpl; constructor.
  - now apply capitalize_word.
  - exact IH.
Qed.

(** X1.  The name [toRustName] returns holds no separator: no white
    space, no [-] and no [_], whatever the script is called. *)
Theorem toRustName_no_separator (n : string) :
  allChars isWordChar (toRustName n) = true.
Proof.
  unfold toRustName. apply join_words. apply capitalized_words.
Qed.

(** X2.  [toRustName] is idempotent: the name it returns is one word
    that starts in upper case already, so a second pass changes
    nothing. *)
Theorem toRustName_idempotent (n : string) :
  toRustName (toRustName n) = toRustName n.
Proof.
  assert (H : allChars isWordChar (toRustName n) = true)
    by (unfold toRustName; apply join_words, capitalized_words).
  unfold toRustName at 1.
  rewrite (splitName_word _ "" false H). simpl.
  unfold toRustName. apply capitalize_join.
Qed.

(** X3.  Which separator stands between two parts of a name makes no
    difference to [toRustName]: exchanging one separator for another
    gives the same Rust name, so distinct script names (["my_game"] and
    ["my game"]) share one. *)
Theorem toRustName_any_separator (u v : string) (a b : ascii) :
  isNameSeparator a = true -> isNameSeparator b = true ->
  toRustName (u +++ String a v) = toRustName (u +++ String b v).
Proof.
  intros Ha Hb. unfold toRustName.
  now rewrite (splitName_separator u "" false a b v Ha Hb).
Qed.

Lemma toRustName_any_separator_witness :
  isNameSeparator "_"%char = true
  /\ isNameSeparator " "%char = true
  /\ toRustName "my_game" = toRustName "my game".
Proof.
  assert (H1 : isNameSeparator "_"%char = true) by reflexivity.
  assert (H2 : isNameSeparator " "%char = true) by reflexivity.
  split; [exact H1|]. split; [exact H2|].
  exact (toRustName_any_separator "my" "game" "_"%char " "%char H1 H2).
Defined.

(** X4.  A name that holds separators only, the empty name included,
    has the empty Rust name (the struct of such a script is called
    [System]). *)
Theorem toRustName_only_separators (n : string) :
  allChars isNameSeparator n = true -> toRustName n = "".
Proof.
  intros H. unfold toRustName. destruct n as [|c n]; [reflexivity|].
  simpl in H. apply andb_true_iff in H as [Hc Hn].
  simpl. rewrite Hc. now rewrite (splitName_separators n "" Hn).
Qed.

Lemma toRustName_only_separators_witness :
  allChars isNameSeparator "_ -" = true /\ toRustName "_ -" = "".
Proof.
  assert (H : allChars isNameSeparator "_ -" = true) by reflexivity.
  split; [exact H|]. exact (toRustName_only_separators "_ -" H).
Defined.

(** X5.  On a name without separators [toRustName] puts the first code
    unit in upper case and keeps every other code unit as it is, those
    that cannot stand in a Rust identifier included.  The upper case is
    that of Unicode: 32 lower for the letters 97 to 122, 224 to 246 and
    248 to 254, [SS] for 223, and the code unit itself otherwise; the
    names that start with 181 or 255, whose upper case is no code unit
    below 256, are not covered. *)
Theorem toRustName_one_word (c : ascii) (rest : string) :
  allChars isWordChar (String c rest) = true ->
  nat_of_ascii c <> 181%nat -> nat_of_ascii c <> 255%nat ->
  exists first,
    toRustName (String c rest) = first +++ rest
    /\ ((97 <= nat_of_ascii c <= 122 \/ 224 <= nat_of_ascii c <= 246
         \/ 248 <= nat_of_ascii c <= 254)%nat ->
        first = String (ascii_of_nat (nat_of_ascii c - 32)) "")
    /\ (nat_of_ascii c = 223%nat -> first = "SS")
    /\ ((nat_of_ascii c < 97 \/ 122 < nat_of_ascii c < 223
         \/ nat_of_ascii c = 247)%nat ->
        first = String c "").
Proof.
  intros H _ _. exists (toUpperCase c). split.
  { unfold toRustName. now rewrite (splitName_word _ "" false H). }
  unfold toUpperCase, in_range.
  split; [|split].
  - intros Hn.
    assert (E : ((97 <=? nat_of_ascii c)%nat && (nat_of_ascii c <=? 122)%nat
                 || (224 <=? nat_of_ascii c)%nat && (nat_of_ascii c <=? 246)%nat
                 || (248 <=? nat_of_ascii c)%nat && (nat_of_ascii c <=? 254)%nat)
                = true).
    { rewrite !orb_true_iff, !andb_true_iff, !Nat.leb_le. lia. }
    now rewrite E.
  - intros Hn. rewrite Hn. reflexivity.
  - intros Hn.
    assert (E : ((97 <=? nat_of_ascii c)%nat && (nat_of_ascii c <=? 122)%nat
                 || (224 <=? nat_of_ascii c)%nat && (nat_of_ascii c <=? 246)%nat
                 || (248 <=? nat_of_ascii c)%nat && (nat_of_ascii c <=? 254)%nat)
                = false).
    { rewrite !orb_false_iff, !andb_false_iff, !Nat.leb_gt. lia. }
    rewrite E.
    assert (E' : Nat.eqb (nat_of_ascii c) 223 = false)
      by (apply Nat.eqb_neq; lia).
    now rewrite E'.
Qed.

Lemma toRustName_one_word_witness :
  allChars isWordChar "my.game" = true
  /\ nat_of_ascii "m"%char <> 181%nat
  /\ nat_of_ascii "m"%char <> 255%nat
  /\ toRustName "my.game" = "My.game"
  /\ toRustName (String (ascii_of_nat 233) "lan")
     = String (ascii_of_nat 201) "lan".
Proof.
  assert (H1 : allChars isWordChar "my.game" = true) by reflexivity.
  assert (H2 : nat_of_ascii "m"%char <> 181%nat) by discriminate.
  assert (H3 : nat_of_ascii "m"%char <> 255%nat) by discriminate.
  split; [exact H1|]. split; [exact H2|]. split; [exact H3|]. split.
  - destruct (toRustName_one_word "m"%char "y.game" H1 H2 H3)
      as (first & E & Hlow & _).
    rewrite E, Hlow; [reflexivity|]. left. vm_compute. lia.
  - assert (H4 : allChars isWordChar (String (ascii_of_nat 233) "lan") = true)
      by reflexivity.
    assert (H5 : nat_of_ascii (ascii_of_nat 233) <> 181%nat) by discriminate.
    assert (H6 : nat_of_ascii (ascii_of_nat 233) <> 255%nat) by discriminate.
    destruct (toRustName_one_word (ascii_of_nat 233) "lan" H4 H5 H6)
      as (first & E & Hlow & _).
    rewrite E, Hlow; [reflexivity|]. right. left. vm_compute. lia.
Defined.

(* ================================================================== *)
(** ** [extractDependencies] *)

Lemma NoDup_app_disjoint {A : Type} (l l' : list A) :
  NoDup (l ++ l') -> forall a, In a l -> ~ In a l'.
Proof.
  induction l as [|x l IH]; simpl; intros H a Ha; [destruct Ha|].
  inversion H as [|? ? Hx Hl]; subst. destruct Ha as [->|Ha].
  - intros Hb. apply Hx. apply in_or_app. now right.
  - now apply IH.
Qed.

Lemma set_add_In deps x y : In y (set_add deps x) <-> In y deps \/ y = x.
Proof.
  unfold set_add. destruct (existsb (String.eqb x) deps) eqn:E.
  - split; [tauto|]. intros [H| ->]; [exact H|].
    apply existsb_exists in E. destruct E as (z & Hz & Ez).
    apply String.eqb_eq in Ez. now subst z.
  - rewrite in_app_iff. simpl. intuition congruence.
Qed.

Lemma set_add_NoDup deps x : NoDup deps -> NoDup (set_add deps x).
Proof.
  intros H. unfold set_add. destruct (existsb (String.eqb x) deps) eqn:E.
  - exact H.
  - apply NoDup_app; [exact H | constructor; [intros [] | constructor] |].
    intros a Ha [<-|[]].
    assert (Ht : existsb (String.eqb x) deps = true).
    { apply existsb_exists. exists x. split; [exact Ha | apply String.eqb_refl]. }
    congruence.
Qed.

Lemma set_add_prefix deps x : exists extra, set_add deps x = deps ++ extra.
Proof.
  unfold set_add. destruct (existsb (String.eqb x) deps).
  - exists []. now rewrite app_nil_r.
  - now exists [x].
Qed.

Lemma requires_cons n ns d :
  requires (n :: ns) d
  <-> (d <> "" /\ componentType (data n) = Some d)
      \/ (d = "physics" /\ type n = "physics/raycast")
      \/ (d = "audio" /\ type n = "audio/play")
      \/ requires ns d.
Proof.
  unfold requires. simpl. split.
  - intros [(Hd & m & [<-|Hm] & Hc)|[(Hd & m & [<-|Hm] & Hc)|(Hd & m & [<-|Hm] & Hc)]];
      eauto 10.
  - intros [(Hd & Hc)|[(Hd & Hc)|[(Hd & Hc)|[(Hd & m & Hm & Hc)|[(Hd & m & Hm & Hc)|(Hd & m & Hm & Hc)]]]]];
      eauto 10.
Qed.

Lemma extractDependenciesFrom_In ns : forall deps d,
  In d (extractDependenciesFrom ns deps) <-> In d deps \/ requires ns d.
Proof.
  induction ns as [|n ns IH]; intros deps d; simpl.
  - unfold requires. simpl. split; [tauto|].
    intros [H|[(_ & m & [] & _)|[(_ & m & [] & _)|(_ & m & [] & _)]]]. exact H.
  - rewrite IH, requires_cons.
    assert (H1 : forall y,
      In y (match componentType (data n) with
            | Some t => if String.eqb t "" then deps else set_add deps t
            | None => deps
            end)
      <-> In y deps \/ (y <> "" /\ componentType (data n) = Some y)).
    { intros y. destruct (componentType (data n)) as [t|].
      - destruct (String.eqb t "") eqn:E.
        + apply String.eqb_eq in E. subst t. split; [tauto|].
          intros [H|[Hy Ht]]; [exact H|]. inversion Ht. congruence.
        + apply String.eqb_neq in E. rewrite set_add_In. split.
          * intros [H| ->]; [tauto|]. right. split; [exact E | reflexivity].
          * intros [H|[Hy Ht]]; [tauto|]. inversion Ht. tauto.
      - split; [tauto|]. intros [H|[_ H]]; [exact H | discriminate]. }
    destruct (String.eqb (type n) "physics/raycast") eqn:E1.
    { apply String.eqb_eq in E1. rewrite set_add_In, H1, E1.
      assert (Hp : "physics/raycast" <> "audio/play") by discriminate.
      tauto. }
    destruct (String.eqb (type n) "audio/play") eqn:E2.
    { apply String.eqb_eq in E2. rewrite set_add_In, H1, E2.
      assert (Hp : "audio/play" <> "physics/raycast") by discriminate.
      tauto. }
    apply String.eqb_neq in E1, E2. rewrite H1. tauto.
Qed.

Lemma extractDependenciesFrom_NoDup ns : forall deps,
  NoDup deps -> NoDup (extractDependenciesFrom ns deps).
Proof.
  induction ns as [|n ns IH]; intros deps H; simpl; [exact H|].
  apply IH.
  assert (H1 : NoDup (match componentType (data n) with
                      | Some t => if String.eqb t "" then deps else set_add deps t
                      | None => deps
                      end)).
  { destruct (componentType (data n)) as [t|]; [|exact H].
    destruct (String.eqb t ""); [exact H | now apply set_add_NoDup]. }
  destruct (String.eqb (type n) "physics/raycast");
    [now apply set_add_NoDup|].
  destruct (String.eqb (type n) "audio/play");
    [now apply set_add_NoDup | exact H1].
Qed.

Lemma extractDependenciesFrom_prefix ns : forall deps,
  exists extra, extractDependenciesFrom ns deps = deps ++ extra.
Proof.
  induction ns as [|n ns IH]; intros deps; simpl.
  - exists []. now rewrite app_nil_r.
  - match goal with |- exists _, extractDependenciesFrom ns ?d = _ =>
      assert (Hd : exists e, d = deps ++ e) end.
    { assert (H1 : exists e,
                match componentType (data n) with
                | Some t => if String.eqb t "" then deps else set_add deps t
                | None => deps
                end = deps ++ e).
      { destruct (componentType (data n)) as [t|];
          [destruct (String.eqb t "")|];
          first [apply set_add_prefix | exists []; now rewrite app_nil_r]. }
      destruct H1 as [e1 H1]. rewrite H1.
      destruct (String.eqb (type n) "physics/raycast");
        [|destruct (String.eqb (type n) "audio/play")];
        try (match goal with |- exists _, set_add ?l ?x = _ =>
               destruct (set_add_prefix l x) as [e2 ->] end;
             exists (e1 ++ e2); now rewrite app_assoc).
      now exists e1. }
    destruct Hd as [e ->]. destruct (IH (deps ++ e)) as [e' ->].
    exists (e ++ e'). now rewrite app_assoc.
Qed.

Lemma extractDependenciesFrom_app ns1 : forall ns2 deps,
  extractDependenciesFrom (ns1 ++ ns2) deps
  = extractDependenciesFrom ns2 (extractDependenciesFrom ns1 deps).
Proof.
  induction ns1 as [|n ns1 IH]; intros ns2 deps; simpl; [reflexivity|].
  apply IH.
Qed.

(** X6.  [extractDependencies] returns a set: no name twice, and a name
    is in it exactly when it is the component type of a node (a string
    that is not empty), or it is [physics] and a node is a raycast, or
    it is [audio] and a node plays a sound.  The connections and the
    [components] of a query play no part. *)
Theorem extractDependencies_members (ns : list VisualScriptNode) (d : string) :
  NoDup (extractDependencies ns)
  /\ (In d (extractDependencies ns) <-> requires ns d).
Proof.
  split.
  - apply extractDependenciesFrom_NoDup. constructor.
  - unfold extractDependencies. rewrite extractDependenciesFrom_In.
    simpl. tauto.
Qed.

(** X7.  The dependencies come in the order in which the nodes first ask
    for them: those of the front of a node list stay where they are
    when nodes are appended, and what is appended is what the new nodes
    ask for and the old ones did not. *)
Theorem extractDependencies_append (ns1 ns2 : list VisualScriptNode) :
  exists extra,
    extractDependencies (ns1 ++ ns2) = extractDependencies ns1 ++ extra
    /\ forall d, In d extra <-> requires ns2 d /\ ~ requires ns1 d.
Proof.
  unfold extractDependencies. rewrite extractDependenciesFrom_app.
  destruct (extractDependenciesFrom_prefix ns2 (extractDependenciesFrom ns1 []))
    as [extra E].
  exists extra. split; [exact E|].
  assert (Hn : NoDup (extractDependenciesFrom ns1 [] ++ extra)).
  { rewrite <- E. apply extractDependenciesFrom_NoDup,
      extractDependenciesFrom_NoDup. constructor. }
  intros d.
  assert (H1 : In d (extractDependenciesFrom ns1 [] ++ extra)
               <-> In d (extractDependenciesFrom ns1 []) \/ requires ns2 d).
  { rewrite <- E. apply extractDependenciesFrom_In. }
  assert (H2 : In d (extractDependenciesFrom ns1 []) <-> requires ns1 d).
  { rewrite extractDependenciesFrom_In. simpl. tauto. }
  rewrite in_app_iff in H1. rewrite <- H2.
  assert (H3 := NoDup_app_disjoint _ _ Hn d).
  tauto.
Qed.

(* ================================================================== *)
(** ** [buildConnectionMap], the node map and [getInputValue] *)

Lemma map_set_absent {V : Type} (m : jsmap V) k v :
  map_get m k = None -> map_set m k v = m ++ [(k, v)].
Proof.
  induction m as [|[k0 v0] m IH]; simpl; [reflexivity|].
  destruct (String.eqb k0 k); [discriminate|]. intros H. now rewrite IH.
Qed.

Lemma allConnections_app (m1 m2 : ConnectionMap) :
  allConnections (m1 ++ m2) = allConnections m1 ++ allConnections m2.
Proof. unfold allConnections. now rewrite map_app, concat_app. Qed.

Lemma allConnections_set (m : ConnectionMap) k l x :
  map_get m k = Some l ->
  Permutation (allConnections (map_set m k (l ++ x))) (allConnections m ++ x).
Proof.
  induction m as [|[k0 l0] m IH]; simpl; [discriminate|].
  destruct (String.eqb k0 k) eqn:E; intros H.
  - inversion H; subst l0. unfold allConnections. simpl.
    rewrite <- !app_assoc. apply Permutation_app_head, Permutation_app_comm.
  - unfold allConnections in *. simpl. rewrite <- app_assoc.
    apply Permutation_app_head. now apply IH.
Qed.

(** The index holds the connections it was built from, each once. *)
Lemma buildConnectionMapFrom_perm cs : forall m : ConnectionMap,
  Permutation (allConnections (buildConnectionMapFrom cs m))
              (allConnections m ++ cs).
Proof.
  induction cs as [|conn rest IH]; intros m; simpl.
  - now rewrite app_nil_r.
  - rewrite IH. unfold map_has.
    destruct (map_get m (connKey conn)) as [l|] eqn:E.
    + rewrite E. rewrite (allConnections_set m _ l [conn] E).
      rewrite <- app_assoc. reflexivity.
    + rewrite map_get_set_same.
      rewrite (map_set_absent m _ [] E).
      assert (E' : map_get (m ++ [(connKey conn, [])]) (connKey conn) = Some [])
        by (rewrite <- (map_set_absent m _ [] E); apply map_get_set_same).
      rewrite (allConnections_set _ _ [] [conn] E').
      rewrite allConnections_app. unfold allConnections at 2. simpl.
      rewrite <- !app_assoc. reflexivity.
Qed.

Lemma buildConnectionMapFrom_NoDup cs : forall m : ConnectionMap,
  NoDup (map_keys m) -> NoDup (map_keys (buildConnectionMapFrom cs m)).
Proof.
  induction cs as [|conn rest IH]; intros m H; simpl; [exact H|].
  apply IH. apply map_set_NoDup.
  destruct (map_has m (connKey conn)); [exact H | now apply map_set_NoDup].
Qed.

Lemma allConnections_In cs conn :
  In conn (allConnections (buildConnectionMap cs)) <-> In conn cs.
Proof.
  unfold buildConnectionMap. split; intros H.
  - apply (Permutation_in _ (buildConnectionMapFrom_perm cs [])) in H.
    exact H.
  - apply (Permutation_in _ (Permutation_sym (buildConnectionMapFrom_perm cs []))).
    exact H.
Qed.

(** X8.  [buildConnectionMap] loses and repeats nothing: the buckets of
    the index, one after the other, hold the connections of the array,
    each as often as the array does, and no key has two buckets. *)
Theorem connection_index_complete (cs : list VisualScriptConnection) :
  Permutation (allConnections (buildConnectionMap cs)) cs
  /\ NoDup (map_keys (buildConnectionMap cs)).
Proof.
  split.
  - apply (buildConnectionMapFrom_perm cs []).
  - apply buildConnectionMapFrom_NoDup. constructor.
Qed.

(** X9.  The key of the index joins source and handle with [_] and so
    does not tell them apart: a connection that leaves node [s] through
    a handle [h1_h2] is listed under the handle [h2] of a node called
    [s_h1] as well. *)
Theorem handle_key_ambiguous (cs : list VisualScriptConnection)
    (conn : VisualScriptConnection) (h1 h2 : string) :
  In conn cs ->
  sourceHandle conn = h1 +++ "_" +++ h2 ->
  In conn (connectionsAt (buildConnectionMap cs)
             ((source conn +++ "_" +++ h1) +++ "_" +++ h2)).
Proof.
  intros Hin Hh. rewrite buildConnectionMap_get. apply filter_In.
  split; [exact Hin|]. apply String.eqb_eq. unfold connKey. rewrite Hh.
  rewrite append_assoc. reflexivity.
Qed.

Lemma handle_key_ambiguous_witness :
  In (mkConn "c1" "a" "b_then" "a_b" "exec") (connections echoScript)
  /\ sourceHandle (mkConn "c1" "a" "b_then" "a_b" "exec") = "b" +++ "_" +++ "then"
  /\ In (mkConn "c1" "a" "b_then" "a_b" "exec")
        (connectionsAt (buildConnectionMap (connections echoScript))
           ("a_b" +++ "_then")).
Proof.
  assert (H1 : In (mkConn "c1" "a" "b_then" "a_b" "exec")
                 (connections echoScript)) by (left; reflexivity).
  assert (H2 : sourceHandle (mkConn "c1" "a" "b_then" "a_b" "exec")
               = "b" +++ "_" +++ "then") by reflexivity.
  split; [exact H1|]. split; [exact H2|].
  exact (handle_key_ambiguous (connections echoScript)
           (mkConn "c1" "a" "b_then" "a_b" "exec") "b" "then" H1 H2).
Defined.

Lemma find_append {A : Type} (f : A -> bool) (l1 l2 : list A) :
  List.find f (l1 ++ l2)
  = match List.find f l1 with
    | Some x => Some x
    | None => List.find f l2
    end.
Proof.
  induction l1 as [|a l1 IH]; simpl; [reflexivity|].
  destruct (f a); [reflexivity | exact IH].
Qed.

Lemma buildNodeMap_last ns : forall (m : jsmap VisualScriptNode) x,
  map_get (buildNodeMap ns m) x
  = match List.find (fun n => String.eqb (id n) x) (List.rev ns) with
    | Some n => Some n
    | None => map_get m x
    end.
Proof.
  induction ns as [|n ns IH]; intros m x; simpl; [reflexivity|].
  rewrite IH, find_append.
  destruct (find (fun n0 => String.eqb (id n0) x) (rev ns)); [reflexivity|].
  simpl. destruct (String.eqb (id n) x) eqn:E.
  - apply String.eqb_eq in E. subst x. apply map_get_set_same.
  - apply String.eqb_neq in E. now apply map_get_set_other.
Qed.

Lemma topologicalSort_Ok ns cs sorted :
  topologicalSort ns cs = Ok sorted ->
  exists done,
    sorted = List.map (map_get (buildNodeMap ns [])) done
    /\ Sorted ns cs done /\ sourcesKnown ns cs.
Proof.
  intros H.
  destruct (sources_known_or_not ns cs) as [Hs|(conn & Hc & Hn)].
  - destruct (topologicalSort_run ns cs Hs) as [(done & Hd & HS)|[Hd _]];
      [|congruence].
    rewrite Hd in H. inversion H; subst sorted. now exists done.
  - rewrite (topologicalSort_dangling_source ns cs conn Hc Hn) in H. discriminate.
Qed.

(** X10.  The node map answers an id with the last node of the array
    that has it, and with nothing when none has: of two nodes with one
    id the later one shadows the earlier, which the order of
    [topologicalSort] then never holds. *)
Theorem later_node_shadows (ns : list VisualScriptNode) (x : string) :
  map_get (buildNodeMap ns []) x
  = List.find (fun n => String.eqb (id n) x) (List.rev ns)
  /\ (forall cs sorted n,
        topologicalSort ns cs = Ok sorted -> In (Some n) sorted ->
        List.find (fun m => String.eqb (id m) (id n)) (List.rev ns) = Some n).
Proof.
  assert (Hget : forall y,
            map_get (buildNodeMap ns []) y
            = List.find (fun n => String.eqb (id n) y) (List.rev ns)).
  { intros y. rewrite buildNodeMap_last.
    destruct (find (fun n => String.eqb (id n) y) (rev ns)); reflexivity. }
  split; [apply Hget|].
  intros cs sorted n Hs Hin.
  destruct (topologicalSort_Ok _ _ _ Hs) as (done & -> & HS & _).
  apply in_map_iff in Hin. destruct Hin as (y & Hy & Hyin).
  destruct (sorted_nodes _ _ _ HS y Hyin) as (m & Hm & _ & Hid).
  rewrite Hm in Hy. inversion Hy; subst m. rewrite Hid, <- Hget. exact Hm.
Qed.

Lemma inputValue_single_source nodeId h cs c conn :
  In conn (feeders nodeId h cs) ->
  (forall other, In other (feeders nodeId h cs) -> source other = source conn) ->
  inputValue nodeId h (buildConnectionMap cs) c
  = JS.or_null (map_get (nodeOutputs c) (source conn)).
Proof.
  unfold inputValue, feeders. intros Hc Hall.
  destruct (find (feedsInput nodeId h)
              (allConnections (buildConnectionMap cs))) as [first|] eqn:E.
  - apply find_some in E. destruct E as [Hin Hf].
    apply (proj1 (allConnections_In _ _)) in Hin.
    rewrite (Hall first); [reflexivity|]. apply filter_In. now split.
  - apply filter_In in Hc. destruct Hc as [Hin Hf].
    apply (proj2 (allConnections_In _ _)) in Hin.
    rewrite (find_none _ _ E conn Hin) in Hf. discriminate.
Qed.

Lemma inputValue_no_feeder nodeId h cs c :
  feeders nodeId h cs = [] ->
  inputValue nodeId h (buildConnectionMap cs) c = None.
Proof.
  unfold inputValue, feeders. intros He. rewrite find_none_all; [reflexivity|].
  intros x Hx. apply (proj1 (allConnections_In _ _)) in Hx.
  destruct (feedsInput nodeId h x) eqn:E; [|reflexivity].
  assert (Hf : In x (filter (feedsInput nodeId h) cs))
    by (apply filter_In; now split).
  rewrite He in Hf. destruct Hf.
Qed.

(** X11.  [getInputValue] changes nothing in the compiler object.  An
    input that no connection of the script ends at reads [null]; an input
    whose connections all leave one node reads what the symbol table
    holds for the id of that node, whatever the handle they leave it
    through, and [null] when it holds nothing or the empty string. *)
Theorem getInputValue_resolution (nodeId h : string)
    (cs : list VisualScriptConnection) (c : Compiler) :
  (feeders nodeId h cs = [] ->
   getInputValue nodeId h (buildConnectionMap cs) c = Ok (None, c))
  /\ (forall conn,
        In conn (feeders nodeId h cs) ->
        (forall other, In other (feeders nodeId h cs) ->
                       source other = source conn) ->
        getInputValue nodeId h (buildConnectionMap cs) c
        = Ok (JS.or_null (map_get (nodeOutputs c) (source conn)), c)).
Proof.
  unfold getInputValue. split.
  - intros He. now rewrite inputValue_no_feeder.
  - intros conn Hc Hall. now rewrite (inputValue_single_source _ _ _ _ conn).
Qed.

Lemma getInputValue_resolution_witness :
  In (mkConn "c2" "U" "dt" "A" "a")
     (feeders "A" "a" (connections pipelineScript))
  /\ getInputValue "A" "a" (buildConnectionMap (connections pipelineScript))
       (mkCompiler 2 [] [("U", "dt")])
     = Ok (Some "dt", mkCompiler 2 [] [("U", "dt")])
  /\ feeders "U" "a" (connections pipelineScript) = []
  /\ getInputValue "U" "a" (buildConnectionMap (connections pipelineScript))
       (mkCompiler 2 [] [("U", "dt")])
     = Ok (None, mkCompiler 2 [] [("U", "dt")]).
Proof.
  assert (H1 : In (mkConn "c2" "U" "dt" "A" "a")
                 (feeders "A" "a" (connections pipelineScript)))
    by (left; reflexivity).
  assert (H2 : forall other,
             In other (feeders "A" "a" (connections pipelineScript)) ->
             source other = source (mkConn "c2" "U" "dt" "A" "a"))
    by (intros other [<-|[]]; reflexivity).
  assert (H3 : feeders "U" "a" (connections pipelineScript) = [])
    by reflexivity.
  split; [exact H1|]. split; [|split; [exact H3|]].
  - exact (proj2 (getInputValue_resolution "A" "a" (connections pipelineScript)
                    (mkCompiler 2 [] [("U", "dt")])) _ H1 H2).
  - exact (proj1 (getInputValue_resolution "U" "a" (connections pipelineScript)
                    (mkCompiler 2 [] [("U", "dt")])) H3).
Defined.

(* ================================================================== *)
(** ** [topologicalSort] *)

Lemma sorted_entry ns cs done n :
  Sorted ns cs done ->
  In (Some n) (List.map (map_get (buildNodeMap ns [])) done) ->
  In n ns /\ In (id n) done.
Proof.
  intros HS H. apply in_map_iff in H. destruct H as (x & Hx & Hin).
  destruct (sorted_nodes _ _ _ HS x Hin) as (m & Hm & Hmn & Hid).
  rewrite Hm in Hx. inversion Hx; subst m. split; [exact Hmn|].
  now rewrite Hid.
Qed.

Lemma sorted_entries_NoDup ns cs done :
  Sorted ns cs done ->
  NoDup (List.map (map_get (buildNodeMap ns [])) done).
Proof.
  intros HS. pose proof (sorted_nodup _ _ _ HS) as Hn.
  assert (Hget : forall x, In x done ->
            exists n, map_get (buildNodeMap ns []) x = Some n /\ id n = x).
  { intros x Hx. destruct (sorted_nodes _ _ _ HS x Hx) as (n & H1 & _ & H2).
    now exists n. }
  clear HS. induction done as [|x done IH]; simpl; [constructor|].
  inversion Hn as [|? ? Hx Hd]; subst. constructor.
  - intros Hin. apply in_map_iff in Hin. destruct Hin as (y & Hy & Hyin).
    destruct (Hget x (or_introl eq_refl)) as (n & Hn1 & Hn2).
    destruct (Hget y (or_intror Hyin)) as (m & Hm1 & Hm2).
    rewrite Hn1, Hm1 in Hy. inversion Hy; subst m. apply Hx. congruence.
  - apply IH; [exact Hd|]. intros y Hy. apply Hget. now right.
Qed.

Lemma sorted_length ns cs done :
  Sorted ns cs done -> (length done <= length ns)%nat.
Proof.
  intros HS. rewrite <- (length_map id ns).
  apply NoDup_incl_length; [apply (sorted_nodup _ _ _ HS)|].
  intros x. apply (sorted_ids _ _ _ HS).
Qed.

(** *** The first entries of the order *)

(** The queue is served first in, first out. *)
Lemma relax_queue nbrs : forall (inDeg : InDegree) q inDeg' q',
  relax nbrs inDeg q = (inDeg', q') -> exists pushed, q' = q ++ pushed.
Proof.
  induction nbrs as [|v nbrs IH]; simpl; intros inDeg q inDeg' q' H.
  - inversion H; subst. exists []. now rewrite app_nil_r.
  - destruct (JS.is_zero (JS.minus_one (map_get inDeg v))).
    + apply IH in H. destruct H as [p ->]. exists (v :: p).
      now rewrite <- app_assoc.
    + now apply IH in H.
Qed.

Lemma kahn_queue_first fuel graph nodeMap :
  forall inDeg queue sorted res,
    kahn fuel graph nodeMap inDeg queue sorted = Ok res ->
    exists rest, res = sorted ++ List.map (map_get nodeMap) queue ++ rest.
Proof.
  induction fuel as [|fuel IH]; intros inDeg queue sorted res H;
    destruct queue as [|w q]; simpl in H; try discriminate.
  - inversion H; subst. exists []. now rewrite app_nil_r.
  - inversion H; subst. exists []. now rewrite app_nil_r.
  - destruct (map_get graph w) as [nbrs|]; [|discriminate].
    destruct (relax nbrs inDeg q) as [inDeg' q'] eqn:Er.
    destruct (relax_queue _ _ _ _ _ Er) as [pushed ->].
    apply IH in H. destruct H as [rest ->].
    exists (List.map (map_get nodeMap) pushed ++ rest).
    rewrite map_app. simpl. rewrite <- !app_assoc. reflexivity.
Qed.

(** The counters stand in the order of the node array, the targets that
    are not nodes after them. *)
Lemma initNodes_keys ns : forall (g : Graph) (d : InDegree) g' d',
  initNodes ns g d = (g', d') ->
  NoDup (map_keys d ++ nodeIds ns) ->
  map_keys d' = map_keys d ++ nodeIds ns.
Proof.
  induction ns as [|n ns IH]; simpl; intros g d g' d' H Hn.
  - inversion H; subst. now rewrite app_nil_r.
  - apply IH in H.
    + rewrite H, map_keys_set_absent, <- app_assoc; [reflexivity|].
      apply map_get_None_keys. intros Hin.
      apply NoDup_remove_2 in Hn. apply Hn. apply in_or_app. now left.
    + rewrite map_keys_set_absent, <- app_assoc; [exact Hn|].
      apply map_get_None_keys. intros Hin.
      apply NoDup_remove_2 in Hn. apply Hn. apply in_or_app. now left.
Qed.

Lemma addEdges_keys cs : forall (g : Graph) (d : InDegree) g' d',
  addEdges cs g d = Ok (g', d') ->
  exists extra,
    map_keys d' = map_keys d ++ extra
    /\ forall x, In x extra -> In x (List.map target cs).
Proof.
  induction cs as [|c cs IH]; simpl; intros g d g' d' H.
  - inversion H; subst. exists []. split; [now rewrite app_nil_r | intros x []].
  - destruct (map_get g (source c)); [|discriminate].
    apply IH in H. destruct H as (extra & Hk & Hx).
    destruct (map_get d (target c)) eqn:E.
    + rewrite map_keys_set_present in Hk by congruence.
      exists extra. split; [exact Hk|]. intros x Hin. right. now apply Hx.
    + rewrite map_keys_set_absent in Hk by assumption.
      exists (target c :: extra). rewrite Hk, <- app_assoc. split; [reflexivity|].
      intros x [<-|Hin]; [now left | right; now apply Hx].
Qed.

Lemma seed_filter (d : InDegree) (f : string -> nat) :
  NoDup (map_keys d) -> counts d f ->
  seed d = List.filter (fun x => Nat.eqb (f x) 0) (map_keys d).
Proof.
  intros Hn Hc.
  assert (He : forall k v, In (k, v) d -> JS.is_zero v = Nat.eqb (f k) 0).
  { intros k v Hin. apply map_get_of_entry in Hin; [|exact Hn].
    specialize (Hc k). rewrite Hin in Hc. subst v. simpl.
    destruct (f k); reflexivity. }
  clear Hn Hc. induction d as [|[k v] d IH]; simpl; [reflexivity|].
  rewrite (He k v (or_introl eq_refl)), IH; [reflexivity|].
  intros k' v' Hin. apply He. now right.
Qed.

Lemma incoming_target cs x :
  In x (List.map target cs) -> incoming cs x <> 0%nat.
Proof.
  intros H. apply in_map_iff in H. destruct H as (c & <- & Hc).
  unfold incoming. intros Hz. apply length_zero_iff_nil in Hz.
  assert (Hin : In c (List.filter (fun c0 => String.eqb (target c0) (target c)) cs)).
  { apply filter_In. split; [exact Hc | apply String.eqb_refl]. }
  rewrite Hz in Hin. destruct Hin.
Qed.

Lemma filter_none {A : Type} (p : A -> bool) (l : list A) :
  (forall x, In x l -> p x = false) -> List.filter p l = [].
Proof.
  induction l as [|a l IH]; simpl; intros H; [reflexivity|].
  rewrite (H a (or_introl eq_refl)). apply IH. intros x Hx. apply H. now right.
Qed.

Lemma filter_map_id (p : string -> bool) (ns : list VisualScriptNode) :
  List.filter p (List.map id ns)
  = List.map id (List.filter (fun n => p (id n)) ns).
Proof.
  induction ns as [|n ns IH]; simpl; [reflexivity|].
  destruct (p (id n)); simpl; now rewrite IH.
Qed.

Lemma nodeMap_entries ns l :
  NoDup (nodeIds ns) -> incl l ns ->
  List.map (map_get (buildNodeMap ns [])) (List.map id l) = List.map Some l.
Proof.
  intros Hn Hl. induction l as [|n l IH]; simpl; [reflexivity|].
  rewrite (buildNodeMap_unique ns [] n Hn); [|apply Hl; now left].
  rewrite IH; [reflexivity|]. intros x Hx. apply Hl. now right.
Qed.

Lemma topologicalSort_seed ns cs sorted :
  NoDup (nodeIds ns) ->
  topologicalSort ns cs = Ok sorted ->
  exists rest,
    sorted = List.map Some (List.filter (isRoot cs) ns) ++ rest.
Proof.
  intros Hn H. unfold topologicalSort in H.
  destruct (initNodes ns [] []) as [g0 d0] eqn:Ei.
  destruct (initNodes_spec _ _ _ _ _ Ei) as (Hc0 & _).
  pose proof (initNodes_keys _ _ _ _ _ Ei Hn) as Hk0. simpl in Hk0.
  destruct (addEdges cs g0 d0) as [[g d]| | |] eqn:Ea; try discriminate.
  assert (Hcz : counts d0 (fun _ => 0%nat)).
  { apply Hc0. intros v. reflexivity. }
  destruct (addEdges_spec _ _ _ _ _ _ Ea Hcz) as (Hc & _).
  assert (Hnd : NoDup (map_keys d)).
  { eapply addEdges_NoDup; [exact Ea|].
    eapply initNodes_NoDup; [exact Ei | constructor]. }
  destruct (addEdges_keys _ _ _ _ _ Ea) as (extra & Hk & Hx).
  apply kahn_queue_first in H. destruct H as [rest ->]. simpl.
  exists rest. f_equal.
  rewrite (seed_filter d _ Hnd Hc), Hk, Hk0, filter_app. simpl.
  rewrite (filter_none _ extra), app_nil_r.
  - rewrite filter_map_id. apply nodeMap_entries; [exact Hn|].
    intros x Hin. apply filter_In in Hin. tauto.
  - intros x Hin. apply Nat.eqb_neq. now apply incoming_target, Hx.
Qed.

(** Without connections the order is the node array. *)
Lemma topologicalSort_no_connections ns sorted :
  NoDup (nodeIds ns) ->
  topologicalSort ns [] = Ok sorted -> sorted = List.map Some ns.
Proof.
  intros Hn H.
  destruct (topologicalSort_seed ns [] sorted Hn H) as [rest E].
  assert (Hf : List.filter (isRoot []) ns = ns).
  { clear. induction ns as [|n ns IH]; simpl; [reflexivity | now rewrite IH]. }
  rewrite Hf in E.
  destruct (topologicalSort_Ok _ _ _ H) as (done & Hd & HS & _).
  pose proof (sorted_length _ _ _ HS) as Hlen.
  assert (Hl : length sorted = length done) by (rewrite Hd; apply length_map).
  rewrite <- Hl, E, length_app, length_map in Hlen.
  destruct rest; [now rewrite app_nil_r in E | simpl in Hlen; lia].
Qed.

(** X12.  With distinct node ids, the order [topologicalSort] returns
    starts with the nodes that no connection ends at, in the order of
    the node array; without connections it is the node array itself. *)
Theorem roots_come_first (ns : list VisualScriptNode)
    (cs : list VisualScriptConnection) (sorted : list (option VisualScriptNode)) :
  NoDup (nodeIds ns) ->
  topologicalSort ns cs = Ok sorted ->
  (exists rest, sorted = List.map Some (List.filter (isRoot cs) ns) ++ rest)
  /\ (cs = [] -> sorted = List.map Some ns).
Proof.
  intros Hn H. split; [now apply topologicalSort_seed|].
  intros ->. now apply topologicalSort_no_connections.
Qed.

Lemma roots_come_first_witness :
  NoDup (nodeIds (nodes pipelineScript))
  /\ topologicalSort (nodes pipelineScript) (connections pipelineScript)
     = Ok [ Some (mkNode "U" "event/update" (mkData None None None));
            Some (mkNode "A" "math/add" (mkData None None None));
            Some (mkNode "B" "math/multiply" (mkData None None None)) ]
  /\ exists rest,
       [ Some (mkNode "U" "event/update" (mkData None None None));
         Some (mkNode "A" "math/add" (mkData None None None));
         Some (mkNode "B" "math/multiply" (mkData None None None)) ]
       = List.map Some
           (List.filter (isRoot (connections pipelineScript))
              (nodes pipelineScript)) ++ rest.
Proof.
  assert (H1 : NoDup (nodeIds (nodes pipelineScript))).
  { repeat constructor; simpl; intuition discriminate. }
  assert (H2 : topologicalSort (nodes pipelineScript) (connections pipelineScript)
               = Ok [ Some (mkNode "U" "event/update" (mkData None None None));
                      Some (mkNode "A" "math/add" (mkData None None None));
                      Some (mkNode "B" "math/multiply" (mkData None None None)) ])
    by reflexivity.
  split; [exact H1|]. split; [exact H2|].
  exact (proj1 (roots_come_first _ _ _ H1 H2)).
Defined.

(** X13.  Whenever [topologicalSort] returns, every entry of the order
    is a node of the script (none is [undefined]), no entry stands in it
    twice, and it is no longer than the node array. *)
Theorem sort_entries_distinct (ns : list VisualScriptNode)
    (cs : list VisualScriptConnection) (sorted : list (option VisualScriptNode)) :
  topologicalSort ns cs = Ok sorted ->
  NoDup sorted
  /\ (forall e, In e sorted -> exists n, e = Some n /\ In n ns)
  /\ (length sorted <= length ns)%nat.
Proof.
  intros H. destruct (topologicalSort_Ok _ _ _ H) as (done & -> & HS & _).
  split; [now apply (sorted_entries_NoDup ns cs)|]. split.
  - intros e He. apply in_map_iff in He. destruct He as (x & <- & Hx).
    destruct (sorted_nodes _ _ _ HS x Hx) as (n & Hn & Hin & _). now exists n.
  - rewrite length_map. now apply (sorted_length ns cs).
Qed.

Lemma sort_entries_distinct_witness :
  topologicalSort (nodes tailCycleScript) (connections tailCycleScript)
  = Ok [ Some (mkNode "F" "event/update" (mkData None None None)) ]
  /\ NoDup [ Some (mkNode "F" "event/update" (mkData None None None)) ]
  /\ (1 <= length (nodes tailCycleScript))%nat.
Proof.
  assert (H : topologicalSort (nodes tailCycleScript) (connections tailCycleScript)
              = Ok [ Some (mkNode "F" "event/update" (mkData None None None)) ])
    by reflexivity.
  split; [exact H|].
  destruct (sort_entries_distinct _ _ _ H) as (Hn & _ & Hl).
  split; [exact Hn | exact Hl].
Defined.

(** X14.  On a script whose connections join nodes of the graph and
    whose ids are distinct, the order has as many entries as there are
    nodes exactly when the connections have no cycle, and it is then a
    rearrangement of the node array. *)
Theorem sort_complete_iff_acyclic (ns : list VisualScriptNode)
    (cs : list VisualScriptConnection) (sorted : list (option VisualScriptNode)) :
  wellFormed ns cs ->
  NoDup (nodeIds ns) ->
  topologicalSort ns cs = Ok sorted ->
  (length sorted = length ns <-> acyclic cs)
  /\ (acyclic cs -> Permutation sorted (List.map Some ns)).
Proof.
  intros HW Hn H.
  destruct (topologicalSort_Ok _ _ _ H) as (done & -> & HS & Hs).
  pose proof (sorted_nodup _ _ _ HS) as Hnd.
  assert (Hincl : incl done (nodeIds ns)) by (intros x; apply (sorted_ids _ _ _ HS)).
  assert (Hall : acyclic cs -> Permutation done (nodeIds ns)).
  { intros Ha. apply NoDup_Permutation; [exact Hnd | exact Hn|].
    intros x. split; [apply Hincl|]. apply (acyclic_complete ns cs done HS Hs Ha). }
  split; [split|].
  - intros Hlen v Hv. rewrite length_map in Hlen.
    assert (Hback : incl (nodeIds ns) done).
    { apply NoDup_length_incl; [exact Hnd| |exact Hincl].
      unfold nodeIds. rewrite length_map. lia. }
    apply (cycle_left_out _ _ _ _ HS Hv). apply Hback.
    assert (He : exists w, edge cs v w).
    { inversion Hv; subst; eauto. }
    destruct He as (w & conn & Hc & <- & _). now apply HW.
  - intros Ha. rewrite length_map.
    rewrite (Permutation_length (Hall Ha)). apply length_map.
  - intros Ha. rewrite <- (nodeMap_entries ns ns Hn (incl_refl ns)).
    apply Permutation_map. now apply Hall.
Qed.

Lemma sort_complete_iff_acyclic_witness :
  wellFormed (nodes cycleScript) (connections cycleScript)
  /\ NoDup (nodeIds (nodes cycleScript))
  /\ topologicalSort (nodes cycleScript) (connections cycleScript) = Ok []
  /\ ~ acyclic (connections cycleScript).
Proof.
  assert (H1 := cycleScript_wellFormed).
  assert (H2 : NoDup (nodeIds (nodes cycleScript))).
  { repeat constructor; simpl; intuition discriminate. }
  assert (H3 : topologicalSort (nodes cycleScript) (connections cycleScript)
               = Ok []) by reflexivity.
  split; [exact H1|]. split; [exact H2|]. split; [exact H3|].
  intros Ha.
  apply (proj1 (sort_complete_iff_acyclic _ _ _ H1 H2 H3)) in Ha.
  discriminate Ha.
Defined.

(** X15.  Not only the nodes of a cycle are missing from the order:
    whatever can be reached from a cycle through connections is missing
    as well. *)
Theorem downstream_of_cycle_left_out (ns : list VisualScriptNode)
    (cs : list VisualScriptConnection) (sorted : list (option VisualScriptNode))
    (u v : string) (n : VisualScriptNode) :
  topologicalSort ns cs = Ok sorted ->
  onCycle cs u -> reach cs u v ->
  In (Some n) sorted -> id n <> v.
Proof.
  intros H Hu Huv Hin Hid.
  destruct (topologicalSort_Ok _ _ _ H) as (done & -> & HS & _).
  destruct (sorted_entry _ _ _ _ HS Hin) as [_ Hd]. rewrite Hid in Hd.
  pose proof (reach_before _ _ _ _ _ HS Huv Hd) as Hb.
  apply before_In_l in Hb. exact (cycle_left_out _ _ _ _ HS Hu Hb).
Qed.

Lemma downstream_of_cycle_left_out_witness :
  topologicalSort (nodes tailCycleScript) (connections tailCycleScript)
  = Ok [ Some (mkNode "F" "event/update" (mkData None None None)) ]
  /\ onCycle (connections tailCycleScript) "B"
  /\ reach (connections tailCycleScript) "B" "D"
  /\ id (mkNode "F" "event/update" (mkData None None None)) <> "D".
Proof.
  assert (H1 : topologicalSort (nodes tailCycleScript) (connections tailCycleScript)
               = Ok [ Some (mkNode "F" "event/update" (mkData None None None)) ])
    by reflexivity.
  assert (H2 : onCycle (connections tailCycleScript) "B").
  { apply reach_step with (w := "A").
    - exists (mkConn "c2" "B" "result" "A" "a"). simpl. tauto.
    - apply reach_edge. exists (mkConn "c1" "A" "result" "B" "a"). simpl. tauto. }
  assert (H3 : reach (connections tailCycleScript) "B" "D").
  { apply reach_edge. exists (mkConn "c3" "B" "result" "D" "a"). simpl. tauto. }
  split; [exact H1|]. split; [exact H2|]. split; [exact H3|].
  exact (downstream_of_cycle_left_out _ _ _ "B" "D" _ H1 H2 H3
           (or_introl eq_refl)).
Defined.

(* ================================================================== *)
(** ** The node compilers *)

Lemma dispatch_update self N conns nodeMap :
  type N = "event/update" ->
  dispatch self N conns nodeMap = compileUpdateEvent N.
Proof. intros H. unfold dispatch. rewrite H. reflexivity. Qed.

Lemma dispatch_entities self N conns nodeMap :
  type N = "query/get_entities" ->
  dispatch self N conns nodeMap = compileGetEntities N.
Proof. intros H. unfold dispatch. rewrite H. reflexivity. Qed.

Lemma dispatch_get self N conns nodeMap :
  type N = "component/get" ->
  dispatch self N conns nodeMap = compileGetComponent N conns.
Proof. intros H. unfold dispatch. rewrite H. reflexivity. Qed.

Lemma dispatch_set self N conns nodeMap :
  type N = "component/set" ->
  dispatch self N conns nodeMap = compileSetComponent N conns.
Proof. intros H. unfold dispatch. rewrite H. reflexivity. Qed.

Lemma dispatch_default self N conns nodeMap :
  ~ In (type N) implementedTypes ->
  dispatch self N conns nodeMap
  = writeLine ("// TODO: Implement node type " +++ type N).
Proof.
  intros H. unfold dispatch.
  repeat match goal with
         | |- context [if String.eqb (type N) ?t then _ else _] =>
             let E := fresh "E" in
             destruct (String.eqb (type N) t) eqn:E;
             [ exfalso; apply H; apply String.eqb_eq in E; rewrite E;
               unfold implementedTypes; simpl; tauto |]
         end.
  reflexivity.
Qed.

Lemma producedSymbol_not_empty N s : producedSymbol N = Some s -> s <> "".
Proof.
  unfold producedSymbol.
  repeat match goal with
         | |- context [if ?b then _ else _] => destruct b
         end; intros H; inversion H; discriminate.
Qed.

(** What a node that yields a value leaves behind. *)
Lemma compileNode_producer depth N conns nodeMap c s :
  producedSymbol N = Some s ->
  (0 <= indentLevel c)%Z ->
  exists lines,
    compileNode (S depth) N conns nodeMap c
    = Ok (tt, mkCompiler (indentLevel c) (output c ++ lines)
                (map_set (nodeOutputs c) (id N) s)).
Proof.
  intros Hs Hc. unfold producedSymbol in Hs. rewrite compileNode_S.
  destruct (String.eqb (type N) "event/update") eqn:E1.
  { apply String.eqb_eq in E1. inversion Hs; subst s.
    eexists. run_line. rewrite (dispatch_update _ _ _ _ E1).
    unfold compileUpdateEvent. repeat (rewrite bind_assoc || run_line).
    rewrite writeLine_run by (cbn [indentLevel]; lia).
    cbn [indentLevel output nodeOutputs]. rewrite <- !app_assoc. reflexivity. }
  destruct (String.eqb (type N) "query/get_entities") eqn:E2.
  { apply String.eqb_eq in E2. inversion Hs; subst s.
    eexists. run_line. rewrite (dispatch_entities _ _ _ _ E2).
    unfold compileGetEntities. repeat (rewrite bind_assoc || run_line).
    rewrite writeLine_run by (cbn [indentLevel]; lia).
    cbn [indentLevel output nodeOutputs]. rewrite <- !app_assoc. reflexivity. }
  destruct (String.eqb (type N) "component/get") eqn:E3.
  { apply String.eqb_eq in E3. inversion Hs; subst s.
    eexists. run_line. rewrite (dispatch_get _ _ _ _ E3).
    unfold compileGetComponent. repeat (rewrite bind_assoc || run_line).
    rewrite writeLine_run by (cbn [indentLevel]; lia).
    cbn [indentLevel output nodeOutputs]. rewrite <- !app_assoc. reflexivity. }
  assert (Hm : exists op, mathOperator N = Some op
                          /\ s = "result_" +++ sanitizeId (id N)).
  { unfold mathOperator.
    destruct (String.eqb (type N) "math/add");
      [inversion Hs; eauto|].
    destruct (String.eqb (type N) "math/multiply");
      [inversion Hs; eauto | discriminate]. }
  destruct Hm as (op & Hop & ->).
  eexists. run_line. rewrite (dispatch_math _ _ _ _ _ Hop).
  unfold compileMathOperation. repeat (rewrite bind_assoc || run_line).
  rewrite writeLine_run by (cbn [indentLevel]; lia).
  cbn [indentLevel output nodeOutputs]. rewrite <- !app_assoc. reflexivity.
Qed.

(** X16.  A node that yields a value ([event/update], [query/get_entities],
    [component/get], [math/add], [math/multiply]) compiled at a level that
    is not negative returns at the same level and binds its id to its
    symbol ([dt], or the sanitized id behind [query_], [comp_] or
    [result_]); from then on [getInputValue] hands that symbol to every
    input whose connections all leave this node. *)
Theorem value_node_feeds_consumers (depth : nat) (N : VisualScriptNode)
    (conns : ConnectionMap) (nodeMap : jsmap VisualScriptNode)
    (c : Compiler) (s : string) :
  producedSymbol N = Some s ->
  (0 <= indentLevel c)%Z ->
  exists c',
    compileNode (S depth) N conns nodeMap c = Ok (tt, c')
    /\ indentLevel c' = indentLevel c
    /\ nodeOutputs c' = map_set (nodeOutputs c) (id N) s
    /\ (forall cs consumer h conn,
          In conn (feeders consumer h cs) ->
          (forall other, In other (feeders consumer h cs) ->
                         source other = id N) ->
          getInputValue consumer h (buildConnectionMap cs) c' = Ok (Some s, c')).
Proof.
  intros Hs Hc.
  destruct (compileNode_producer depth N conns nodeMap c s Hs Hc) as [lines Hrun].
  eexists. split; [exact Hrun|]. cbn [indentLevel nodeOutputs].
  split; [reflexivity|]. split; [reflexivity|].
  intros cs consumer h conn Hin Hall. unfold getInputValue.
  rewrite (inputValue_single_source consumer h cs _ conn Hin).
  - cbn [nodeOutputs]. rewrite (Hall conn Hin), map_get_set_same.
    unfold JS.or_null.
    destruct (String.eqb s "") eqn:E; [|reflexivity].
    apply String.eqb_eq in E. now apply producedSymbol_not_empty in Hs.
  - intros other Ho. now rewrite (Hall other Ho), (Hall conn Hin).
Qed.

Lemma value_node_feeds_consumers_witness :
  producedSymbol (mkNode "Q" "query/get_entities"
                    (mkData None None (Some ["Transform"; "Velocity"])))
  = Some "query_Q"
  /\ (0 <= indentLevel newCompiler)%Z
  /\ exists c',
       compileNode 1
         (mkNode "Q" "query/get_entities"
            (mkData None None (Some ["Transform"; "Velocity"])))
         (connectionMapOf loopScript) (nodeMapOf loopScript) newCompiler
       = Ok (tt, c')
       /\ getInputValue "L" "array" (connectionMapOf loopScript) c'
          = Ok (Some "query_Q", c').
Proof.
  assert (H1 : producedSymbol
                 (mkNode "Q" "query/get_entities"
                    (mkData None None (Some ["Transform"; "Velocity"])))
               = Some "query_Q") by reflexivity.
  assert (H2 : (0 <= indentLevel newCompiler)%Z) by (simpl; lia).
  split; [exact H1|]. split; [exact H2|].
  destruct (value_node_feeds_consumers 0 _ (connectionMapOf loopScript)
              (nodeMapOf loopScript) newCompiler "query_Q" H1 H2)
    as (c' & Hrun & _ & _ & Hfeed).
  exists c'. split; [exact Hrun|].
  apply (Hfeed (connections loopScript) "L" "array"
           (mkConn "c1" "Q" "entities" "L" "array")).
  - left. reflexivity.
  - intros other [<-|[]]. reflexivity.
Defined.

Lemma compileNode_sink depth N conns nodeMap c u c' :
  producedSymbol N = None ->
  type N <> "flow/if" -> type N <> "flow/foreach" ->
  compileNode depth N conns nodeMap c = Ok (u, c') ->
  map_get (nodeOutputs c') (id N) = map_get (nodeOutputs c) (id N).
Proof.
  intros Hs Hif Hfor H. destruct depth as [|depth]; [discriminate|].
  rewrite compileNode_S in H. run_inv H. subst c'. cbn [nodeOutputs].
  match goal with
  | Hd : dispatch _ _ _ _ ?x = Ok (_, ?c1) |- _ =>
      change (nodeOutputs c) with (nodeOutputs x); revert Hd;
      generalize x; clear - Hs Hif Hfor
  end.
  intros x Hd. unfold dispatch in Hd. unfold producedSymbol in Hs.
  apply String.eqb_neq in Hif, Hfor. rewrite Hif, Hfor in Hd.
  destruct (String.eqb (type N) "event/update"); [discriminate|].
  destruct (String.eqb (type N) "event/collision").
  { unfold compileCollisionEvent in Hd. run_inv Hd. subst.
    cbn [nodeOutputs].
    rewrite !map_get_set_other; [reflexivity| |];
      apply append_suffix_neq; discriminate. }
  destruct (String.eqb (type N) "query/get_entities"); [discriminate|].
  destruct (String.eqb (type N) "component/get"); [discriminate|].
  destruct (String.eqb (type N) "component/set").
  { unfold compileSetComponent in Hd. run_inv Hd. now subst. }
  destruct (String.eqb (type N) "math/add"); [discriminate|].
  destruct (String.eqb (type N) "math/multiply"); [discriminate|].
  run_inv Hd. now subst.
Qed.

Lemma append_inj_l a b c : a +++ b = a +++ c -> b = c.
Proof.
  induction a as [|x a IH]; simpl; intros H; [exact H|].
  inversion H. now apply IH.
Qed.

Lemma compileNode_collision_symbols depth N conns nodeMap c u c' :
  type N = "event/collision" ->
  compileNode depth N conns nodeMap c = Ok (u, c') ->
  nodeOutputs c'
  = map_set (map_set (nodeOutputs c) (id N +++ "_a") "entity_a")
      (id N +++ "_b") "entity_b".
Proof.
  intros Ht H. destruct depth as [|depth]; [discriminate|].
  rewrite compileNode_S, (dispatch_collision _ _ _ _ Ht) in H.
  unfold compileCollisionEvent in H. run_inv H.
  match goal with
  | Hr : _ = Ok (_, _) |- _ => run_inv Hr
  end.
  subst. reflexivity.
Qed.

(** X17.  A collision event, a [component/set] node and a node of a type
    without a case bind nothing to their own id; so, unless the id was
    bound before, every input whose connections all leave such a node
    reads [null].  The collision event binds [entity_a] and [entity_b]
    to its id followed by [_a] and by [_b]: [getInputValue] looks a
    symbol up under the source of a connection, so an input receives
    [entity_a] only through connections whose source is spelt as the id
    followed by [_a], not through those that leave the collision
    event. *)
Theorem sink_node_feeds_nothing (depth : nat) (N : VisualScriptNode)
    (conns : ConnectionMap) (nodeMap : jsmap VisualScriptNode)
    (c c' : Compiler) (u : unit) :
  producedSymbol N = None ->
  type N <> "flow/if" -> type N <> "flow/foreach" ->
  compileNode depth N conns nodeMap c = Ok (u, c') ->
  map_get (nodeOutputs c') (id N) = map_get (nodeOutputs c) (id N)
  /\ (map_get (nodeOutputs c) (id N) = None ->
      forall cs consumer h,
        (forall conn, In conn (feeders consumer h cs) -> source conn = id N) ->
        getInputValue consumer h (buildConnectionMap cs) c' = Ok (None, c'))
  /\ (type N = "event/collision" ->
      nodeOutputs c'
      = map_set (map_set (nodeOutputs c) (id N +++ "_a") "entity_a")
          (id N +++ "_b") "entity_b"
      /\ forall cs consumer h conn,
           In conn (feeders consumer h cs) ->
           (forall other, In other (feeders consumer h cs) ->
                          source other = id N +++ "_a") ->
           getInputValue consumer h (buildConnectionMap cs) c'
           = Ok (Some "entity_a", c')).
Proof.
  intros Hs Hif Hfor H.
  pose proof (compileNode_sink _ _ _ _ _ _ _ Hs Hif Hfor H) as Hk.
  split; [exact Hk|]. split.
  - intros Hnone cs consumer h Hall. unfold getInputValue. f_equal. f_equal.
    destruct (feeders consumer h cs) as [|conn rest] eqn:E.
    + now apply inputValue_no_feeder.
    + rewrite (inputValue_single_source consumer h cs c' conn).
      * rewrite (Hall conn (or_introl eq_refl)), Hk, Hnone. reflexivity.
      * rewrite E. now left.
      * rewrite E. intros other Ho.
        now rewrite (Hall other Ho), (Hall conn (or_introl eq_refl)).
  - intros Ht.
    pose proof (compileNode_collision_symbols _ _ _ _ _ _ _ Ht H) as Hsym.
    split; [exact Hsym|].
    intros cs consumer h conn Hin Hall. unfold getInputValue.
    rewrite (inputValue_single_source consumer h cs c' conn Hin).
    + rewrite (Hall conn Hin), Hsym.
      rewrite map_get_set_other, map_get_set_same; [reflexivity|].
      intros E. apply append_inj_l in E. discriminate.
    + intros other Ho. now rewrite (Hall other Ho), (Hall conn Hin).
Qed.

Lemma sink_node_feeds_nothing_witness :
  producedSymbol (mkNode "hit" "event/collision" (mkData None None None)) = None
  /\ type (mkNode "hit" "event/collision" (mkData None None None)) <> "flow/if"
  /\ type (mkNode "hit" "event/collision" (mkData None None None))
     <> "flow/foreach"
  /\ compileNode 1 (mkNode "hit" "event/collision" (mkData None None None))
       [] [] newCompiler
     = Ok (tt, mkCompiler 1
                 [ "// Node: event/collision";
                   "for (entity_a, entity_b) in physics.get_collision_pairs() {";
                   "    " ]
                 [ ("hit_a", "entity_a"); ("hit_b", "entity_b") ])
  /\ getInputValue "n" "entity"
       (buildConnectionMap [ mkConn "c1" "hit" "a" "n" "entity" ])
       (mkCompiler 1
          [ "// Node: event/collision";
            "for (entity_a, entity_b) in physics.get_collision_pairs() {";
            "    " ]
          [ ("hit_a", "entity_a"); ("hit_b", "entity_b") ])
     = Ok (None,
           mkCompiler 1
             [ "// Node: event/collision";
               "for (entity_a, entity_b) in physics.get_collision_pairs() {";
               "    " ]
             [ ("hit_a", "entity_a"); ("hit_b", "entity_b") ])
  /\ getInputValue "n" "entity"
       (buildConnectionMap [ mkConn "c2" "hit_a" "out" "n" "entity" ])
       (mkCompiler 1
          [ "// Node: event/collision";
            "for (entity_a, entity_b) in physics.get_collision_pairs() {";
            "    " ]
          [ ("hit_a", "entity_a"); ("hit_b", "entity_b") ])
     = Ok (Some "entity_a",
           mkCompiler 1
             [ "// Node: event/collision";
               "for (entity_a, entity_b) in physics.get_collision_pairs() {";
               "    " ]
             [ ("hit_a", "entity_a"); ("hit_b", "entity_b") ]).
Proof.
  assert (H1 : producedSymbol
                 (mkNode "hit" "event/collision" (mkData None None None))
               = None) by reflexivity.
  assert (H2 : type (mkNode "hit" "event/collision" (mkData None None None))
               <> "flow/if") by discriminate.
  assert (H3 : type (mkNode "hit" "event/collision" (mkData None None None))
               <> "flow/foreach") by discriminate.
  assert (H4 : compileNode 1
                 (mkNode "hit" "event/collision" (mkData None None None))
                 [] [] newCompiler
               = Ok (tt, mkCompiler 1
                           [ "// Node: event/collision";
                             "for (entity_a, entity_b) in physics.get_collision_pairs() {";
                             "    " ]
                           [ ("hit_a", "entity_a"); ("hit_b", "entity_b") ]))
    by reflexivity.
  split; [exact H1|]. split; [exact H2|]. split; [exact H3|].
  split; [exact H4|].
  destruct (sink_node_feeds_nothing 1 _ [] [] newCompiler _ tt H1 H2 H3 H4)
    as (_ & Hnull & Hkeys).
  split.
  - apply Hnull; [reflexivity|]. intros conn [<-|[]]. reflexivity.
  - destruct (Hkeys eq_refl) as [_ Ha].
    apply (Ha [ mkConn "c2" "hit_a" "out" "n" "entity" ] "n" "entity"
             (mkConn "c2" "hit_a" "out" "n" "entity")).
    + left. reflexivity.
    + intros other [<-|[]]. reflexivity.
Defined.

(** X18.  A [query/get_entities] node compiled at a level that is not
    negative writes its header, one statement and an empty line, and
    binds its id to [query_] and the sanitized id.  The statement queries
    a reference to each entry of [components] in their order; without
    [components] it queries [&Transform], and with an empty array the
    empty tuple. *)
Theorem get_entities_statement (depth : nat) (N : VisualScriptNode)
    (conns : ConnectionMap) (nodeMap : jsmap VisualScriptNode)
    (c : Compiler) :
  type N = "query/get_entities" ->
  (0 <= indentLevel c)%Z ->
  exists c' types,
    compileNode (S depth) N conns nodeMap c = Ok (tt, c')
    /\ output c'
       = output c
         ++ [ headerLine (indentLevel c) N;
              pad (indentLevel c) +++ "let query_" +++ sanitizeId (id N)
                +++ " = world.query::<(" +++ types +++ ")>();";
              pad (indentLevel c) +++ "" ]
    /\ (components (data N) = None -> types = "&Transform")
    /\ (components (data N) = Some [] -> types = "")
    /\ (forall l, components (data N) = Some l ->
          types = JS.join ", " (List.map (fun t => "&" +++ t) l))
    /\ map_get (nodeOutputs c') (id N) = Some ("query_" +++ sanitizeId (id N)).
Proof.
  intros Ht Hc.
  eexists.
  exists (JS.join ", "
            (List.map (fun t => "&" +++ t)
               match components (data N) with
               | Some l => l
               | None => ["Transform"]
               end)).
  split.
  { rewrite compileNode_S. run_line. rewrite (dispatch_entities _ _ _ _ Ht).
    unfold compileGetEntities. repeat (rewrite bind_assoc || run_line).
    apply writeLine_run. cbn [indentLevel]. lia. }
  cbn [indentLevel output nodeOutputs].
  split; [rewrite <- !app_assoc; reflexivity|].
  split; [intros ->; reflexivity|].
  split; [intros ->; reflexivity|].
  split; [intros l ->; reflexivity|].
  apply map_get_set_same.
Qed.

Lemma get_entities_statement_witness :
  type (mkNode "Q" "query/get_entities"
          (mkData None None (Some ["Transform"; "Velocity"])))
  = "query/get_entities"
  /\ (0 <= indentLevel newCompiler)%Z
  /\ exists c',
       compileNode 1
         (mkNode "Q" "query/get_entities"
            (mkData None None (Some ["Transform"; "Velocity"])))
         [] [] newCompiler
       = Ok (tt, c')
       /\ output c'
          = [ "// Node: query/get_entities";
              "let query_Q = world.query::<(&Transform, &Velocity)>();";
              "" ].
Proof.
  assert (H1 : type (mkNode "Q" "query/get_entities"
                       (mkData None None (Some ["Transform"; "Velocity"])))
               = "query/get_entities") by reflexivity.
  assert (H2 : (0 <= indentLevel newCompiler)%Z) by (simpl; lia).
  split; [exact H1|]. split; [exact H2|].
  destruct (get_entities_statement 0 _ [] [] newCompiler H1 H2)
    as (c' & types & Hrun & Hout & _ & _ & Hl & _).
  exists c'. split; [exact Hrun|].
  rewrite Hout, (Hl _ eq_refl). reflexivity.
Defined.

(** X19.  A [component/get] node compiled at a level that is not negative
    writes its header, one statement and an empty line.  The component
    type of the statement is that of the node, and [Transform] when the
    node has none or the empty string; the entity is what the [entity]
    input reads, and the word [null] when no connection ends there. *)
Theorem get_component_statement (depth : nat) (N : VisualScriptNode)
    (conns : ConnectionMap) (nodeMap : jsmap VisualScriptNode)
    (c : Compiler) :
  type N = "component/get" ->
  (0 <= indentLevel c)%Z ->
  exists c' ctype entity,
    compileNode (S depth) N conns nodeMap c = Ok (tt, c')
    /\ output c'
       = output c
         ++ [ headerLine (indentLevel c) N;
              pad (indentLevel c) +++ "let comp_" +++ sanitizeId (id N)
                +++ " = world.get_component::<" +++ ctype +++ ">("
                +++ entity +++ ")?;";
              pad (indentLevel c) +++ "" ]
    /\ (componentType (data N) = None \/ componentType (data N) = Some "" ->
        ctype = "Transform")
    /\ (forall t, componentType (data N) = Some t -> t <> "" -> ctype = t)
    /\ (unconnected (id N) "entity" conns -> entity = "null")
    /\ (forall v, inputValue (id N) "entity" conns c = Some v -> entity = v).
Proof.
  intros Ht Hc.
  eexists. exists (JS.or_else (componentType (data N)) "Transform"),
             (JS.interpolate (inputValue (id N) "entity" conns c)).
  split.
  { rewrite compileNode_S. run_line. rewrite (dispatch_get _ _ _ _ Ht).
    unfold compileGetComponent. repeat (rewrite bind_assoc || run_line).
    apply writeLine_run. cbn [indentLevel]. lia. }
  cbn [indentLevel output nodeOutputs].
  split; [rewrite <- !app_assoc; reflexivity|].
  split; [intros [-> | ->]; reflexivity|].
  split.
  { intros t -> Hne. unfold JS.or_else. apply String.eqb_neq in Hne.
    now rewrite Hne. }
  split; [intros H; now rewrite inputValue_unconnected|].
  intros v ->. reflexivity.
Qed.

Lemma get_component_statement_witness :
  type (mkNode "G" "component/get" (mkData (Some "") None None))
  = "component/get"
  /\ (0 <= indentLevel newCompiler)%Z
  /\ exists c',
       compileNode 1 (mkNode "G" "component/get" (mkData (Some "") None None))
         [] [] newCompiler
       = Ok (tt, c')
       /\ output c'
          = [ "// Node: component/get";
              "let comp_G = world.get_component::<Transform>(null)?;";
              "" ].
Proof.
  assert (H1 : type (mkNode "G" "component/get" (mkData (Some "") None None))
               = "component/get") by reflexivity.
  assert (H2 : (0 <= indentLevel newCompiler)%Z) by (simpl; lia).
  split; [exact H1|]. split; [exact H2|].
  destruct (get_component_statement 0 _ [] [] newCompiler H1 H2)
    as (c' & ctype & entity & Hrun & Hout & Ht & _ & He & _).
  exists c'. split; [exact Hrun|].
  rewrite Hout, (Ht (or_introl eq_refl)), He; [reflexivity|].
  intros conn [].
Defined.

(** X20.  A [component/set] node compiled at a level that is not negative
    writes its header, the statement [world.set_component(e, v);] and an
    empty line, where [e] and [v] are what the inputs [entity] and
    [component] read, each the word [null] when no connection ends
    there.  It binds no symbol, keeps the level, and its component type
    plays no part. *)
Theorem set_component_statement (depth : nat) (N : VisualScriptNode)
    (conns : ConnectionMap) (nodeMap : jsmap VisualScriptNode)
    (c : Compiler) :
  type N = "component/set" ->
  (0 <= indentLevel c)%Z ->
  exists c' entity component,
    compileNode (S depth) N conns nodeMap c = Ok (tt, c')
    /\ output c'
       = output c
         ++ [ headerLine (indentLevel c) N;
              pad (indentLevel c) +++ "world.set_component(" +++ entity
                +++ ", " +++ component +++ ");";
              pad (indentLevel c) +++ "" ]
    /\ entity = JS.interpolate (inputValue (id N) "entity" conns c)
    /\ component = JS.interpolate (inputValue (id N) "component" conns c)
    /\ (unconnected (id N) "entity" conns -> entity = "null")
    /\ (unconnected (id N) "component" conns -> component = "null")
    /\ nodeOutputs c' = nodeOutputs c
    /\ indentLevel c' = indentLevel c.
Proof.
  intros Ht Hc.
  eexists. exists (JS.interpolate (inputValue (id N) "entity" conns c)),
             (JS.interpolate (inputValue (id N) "component" conns c)).
  split.
  { rewrite compileNode_S. run_line. rewrite (dispatch_set _ _ _ _ Ht).
    unfold compileSetComponent. repeat (rewrite bind_assoc || run_line).
    apply writeLine_run. cbn [indentLevel]. lia. }
  cbn [indentLevel output nodeOutputs].
  split; [rewrite <- !app_assoc; reflexivity|].
  split; [reflexivity|]. split; [reflexivity|].
  split; [intros H; now rewrite inputValue_unconnected|].
  split; [intros H; now rewrite inputValue_unconnected|].
  split; reflexivity.
Qed.

Lemma set_component_statement_witness :
  type (mkNode "S" "component/set" (mkData None (Some "Health") None))
  = "component/set"
  /\ (0 <= indentLevel newCompiler)%Z
  /\ exists c',
       compileNode 1
         (mkNode "S" "component/set" (mkData None (Some "Health") None))
         [] [] newCompiler
       = Ok (tt, c')
       /\ output c'
          = [ "// Node: component/set"; "world.set_component(null, null);"; "" ]
       /\ nodeOutputs c' = [].
Proof.
  assert (H1 : type (mkNode "S" "component/set" (mkData None (Some "Health") None))
               = "component/set") by reflexivity.
  assert (H2 : (0 <= indentLevel newCompiler)%Z) by (simpl; lia).
  split; [exact H1|]. split; [exact H2|].
  destruct (set_component_statement 0 _ [] [] newCompiler H1 H2)
    as (c' & entity & component & Hrun & Hout & _ & _ & He & Hv & Hsym & _).
  exists c'. split; [exact Hrun|]. split; [|exact Hsym].
  rewrite Hout, He, Hv; [reflexivity | intros conn [] | intros conn []].
Defined.

(** X21.  A node of a type without a case is no error: compiled at a
    level that is not negative it writes its header, a [TODO] comment
    that names the type and an empty line, and leaves the level and the
    symbol table as they are. *)
Theorem unknown_type_todo (depth : nat) (N : VisualScriptNode)
    (conns : ConnectionMap) (nodeMap : jsmap VisualScriptNode)
    (c : Compiler) :
  ~ In (type N) implementedTypes ->
  (0 <= indentLevel c)%Z ->
  compileNode (S depth) N conns nodeMap c
  = Ok (tt, mkCompiler (indentLevel c)
              (output c
               ++ [ headerLine (indentLevel c) N;
                    pad (indentLevel c) +++ "// TODO: Implement node type "
                      +++ type N;
                    pad (indentLevel c) +++ "" ])
              (nodeOutputs c)).
Proof.
  intros Ht Hc. rewrite compileNode_S. run_line.
  rewrite (dispatch_default _ _ _ _ Ht). run_line.
  rewrite writeLine_run by (cbn [indentLevel]; lia).
  cbn [indentLevel output nodeOutputs]. rewrite <- !app_assoc. reflexivity.
Qed.

Lemma unknown_type_todo_witness :
  ~ In (type (mkNode "K" "audio/play" (mkData None (Some "Sound") None)))
       implementedTypes
  /\ (0 <= indentLevel newCompiler)%Z
  /\ compileNode 1 (mkNode "K" "audio/play" (mkData None (Some "Sound") None))
       [] [] newCompiler
     = Ok (tt, mkCompiler 0
                 [ "// Node: audio/play";
                   "// TODO: Implement node type audio/play";
                   "" ] []).
Proof.
  assert (H1 : ~ In (type (mkNode "K" "audio/play"
                             (mkData None (Some "Sound") None)))
                    implementedTypes).
  { unfold implementedTypes. simpl. intuition discriminate. }
  assert (H2 : (0 <= indentLevel newCompiler)%Z) by (simpl; lia).
  split; [exact H1|]. split; [exact H2|].
  exact (unknown_type_todo 0 _ [] [] newCompiler H1 H2).
Defined.

(** X22.  A [flow/foreach] node compiled at a level that is not
    negative, with room on the stack for what is nested below it, writes
    its header, the line [for item_<id> in <array>.iter() {], the blocks
    of the targets of its [_body] connections in the order of those
    connections, the closing line and an empty line.  The item symbol is
    bound to the id followed by [_item] before the body is compiled; an
    array input that reads nothing is written [null]; and unless a
    collision event is compiled in the body the node ends at the level
    it started at. *)
Theorem foreach_blocks (depth : nat) (N : VisualScriptNode)
    (conns : ConnectionMap) (nodeMap : jsmap VisualScriptNode)
    (c : Compiler) :
  type N = "flow/foreach" ->
  (0 <= indentLevel c)%Z ->
  fits (S depth) conns nodeMap N = true ->
  exists c' bodyBlocks c1,
    compileNode (S depth) N conns nodeMap c = Ok (tt, c')
    /\ emitsEach (fun n => compileNode depth n conns nodeMap) nodeMap
         (connectionsAt conns (id N +++ "_body"))
         (mkCompiler (indentLevel c + 1)
            (output c ++ [ headerLine (indentLevel c) N;
                           pad (indentLevel c) +++ forLine N conns c ])
            (map_set (nodeOutputs c) (id N +++ "_item")
               ("item_" +++ sanitizeId (id N))))
         bodyBlocks c1
    /\ output c'
       = output c
         ++ [ headerLine (indentLevel c) N;
              pad (indentLevel c) +++ forLine N conns c ]
         ++ List.concat bodyBlocks
         ++ [ pad (indentLevel c1 - 1) +++ "}";
              pad (indentLevel c1 - 1) +++ "" ]
    /\ (forall v, inputValue (id N) "array" conns c = Some v ->
          forLine N conns c
          = "for item_" +++ sanitizeId (id N) +++ " in " +++ v +++ ".iter() {")
    /\ (inputValue (id N) "array" conns c = None ->
        forLine N conns c
        = "for item_" +++ sanitizeId (id N) +++ " in null.iter() {")
    /\ (calm (S depth) conns nodeMap N = true ->
        indentLevel c' = indentLevel c
        /\ indentLevel c1 = (indentLevel c + 1)%Z).
Proof.
  intros Ht Hc Hf.
  destruct (compileNode_total (S depth) N conns nodeMap c Hf Hc) as [c' Hrun].
  exists c'. pose proof Hrun as H.
  rewrite compileNode_S, (dispatch_foreach _ _ _ _ Ht) in H. run_inv H.
  match goal with
  | Hi : compileForEach _ _ _ _ _ = Ok _ |- _ =>
      destruct (compileForEach_shape _ _ _ _
                  (fun n => compileNode_grows depth n conns nodeMap) _ _ _ Hi)
        as (_ & bodyBlocks & c1 & Hbody & Hl1 & Hc')
  end.
  cbn [indentLevel output nodeOutputs] in Hbody, Hc'.
  exists bodyBlocks, c1.
  rewrite Hc' in H. cbn [indentLevel output nodeOutputs] in H. subst c'.
  cbn [indentLevel output nodeOutputs].
  split; [exact Hrun|]. split.
  { unfold headerLine. unfold forLine in *. cbn [nodeOutputs] in *.
    rewrite <- !app_assoc in Hbody. exact Hbody. }
  split.
  { unfold headerLine, forLine. unfold inputValue. cbn [nodeOutputs].
    rewrite <- !app_assoc. reflexivity. }
  split; [intros v Hv; unfold forLine; now rewrite Hv|].
  split; [intros Hv; unfold forLine; now rewrite Hv|].
  intros Hcalm.
  pose proof (compileNode_calm _ _ _ _ _ _ _ Hcalm Hrun) as Hlev.
  cbn [indentLevel] in Hlev. lia.
Qed.

Lemma foreach_blocks_witness :
  type (mkNode "L" "flow/foreach" (mkData (Some "each entity") None None))
  = "flow/foreach"
  /\ (0 <= indentLevel (mkCompiler 0 [] [("Q", "query_Q")]))%Z
  /\ fits 2 (connectionMapOf loopScript) (nodeMapOf loopScript)
       (mkNode "L" "flow/foreach" (mkData (Some "each entity") None None))
     = true
  /\ exists c',
       compileNode 2
         (mkNode "L" "flow/foreach" (mkData (Some "each entity") None None))
         (connectionMapOf loopScript) (nodeMapOf loopScript)
         (mkCompiler 0 [] [("Q", "query_Q")])
       = Ok (tt, c')
       /\ output c'
          = [ "// Node: each entity";
              "for item_L in query_Q.iter() {";
              "    // Node: step";
              "    let result_M = 0.0 + 0.0;";
              "    ";
              "}";
              "" ].
Proof.
  assert (H1 : type (mkNode "L" "flow/foreach"
                       (mkData (Some "each entity") None None))
               = "flow/foreach") by reflexivity.
  assert (H2 : (0 <= indentLevel (mkCompiler 0 [] [("Q", "query_Q")]))%Z)
    by (simpl; lia).
  assert (H3 : fits 2 (connectionMapOf loopScript) (nodeMapOf loopScript)
                 (mkNode "L" "flow/foreach"
                    (mkData (Some "each entity") None None)) = true)
    by reflexivity.
  split; [exact H1|]. split; [exact H2|]. split; [exact H3|].
  destruct (foreach_blocks 1 _ (connectionMapOf loopScript)
              (nodeMapOf loopScript) (mkCompiler 0 [] [("Q", "query_Q")])
              H1 H2 H3)
    as (c' & bodyBlocks & c1 & Hrun & _).
  exists c'. split; [exact Hrun|].
  vm_compute in Hrun. inversion Hrun. reflexivity.
Defined.

(** X23.  Whatever the node, the lines a successful run of [compileNode]
    appends start with the comment [// Node: <title>] at the level the
    run starts at and end with an empty line at the level it ends at,
    which is not lower.  The title is the label of the node, and its
    type when the label is missing or the empty string. *)
Theorem node_block_frame (depth : nat) (N : VisualScriptNode)
    (conns : ConnectionMap) (nodeMap : jsmap VisualScriptNode)
    (c c' : Compiler) (u : unit) :
  compileNode depth N conns nodeMap c = Ok (u, c') ->
  exists title mid,
    output c'
    = output c ++ [ pad (indentLevel c) +++ "// Node: " +++ title ] ++ mid
      ++ [ pad (indentLevel c') +++ "" ]
    /\ (forall l, label (data N) = Some l -> l <> "" -> title = l)
    /\ (label (data N) = None \/ label (data N) = Some "" -> title = type N)
    /\ (0 <= indentLevel c <= indentLevel c')%Z.
Proof.
  intros H. destruct depth as [|depth]; [discriminate|].
  rewrite compileNode_S in H. run_inv H.
  match goal with
  | Hd : dispatch _ _ _ _ _ = Ok _ |- _ =>
      apply (dispatch_grows _ _ _ _
               (fun n => compileNode_grows depth n conns nodeMap)) in Hd;
      destruct Hd as [Hl [mid Hm]]
  end.
  cbn [indentLevel output] in Hl, Hm.
  exists (nodeTitle N), mid. subst c'. cbn [indentLevel output].
  split; [rewrite Hm, <- !app_assoc; reflexivity|].
  split.
  { intros l Hlab Hne. unfold nodeTitle, JS.or_else. rewrite Hlab.
    apply String.eqb_neq in Hne. now rewrite Hne. }
  split; [|lia].
  intros [Hlab|Hlab]; unfold nodeTitle; rewrite Hlab; reflexivity.
Qed.

Lemma node_block_frame_witness :
  compileNode 1 (mkNode "G" "component/get" (mkData (Some "") None None))
    [] [] (mkCompiler 1 [] [])
  = Ok (tt, mkCompiler 1
              [ "    // Node: component/get";
                "    let comp_G = world.get_component::<Transform>(null)?;";
                "    " ]
              [ ("G", "comp_G") ])
  /\ exists mid,
       [ "    // Node: component/get";
         "    let comp_G = world.get_component::<Transform>(null)?;";
         "    " ]
       = [ "    // Node: component/get" ] ++ mid ++ [ "    " ].
Proof.
  assert (H : compileNode 1
                (mkNode "G" "component/get" (mkData (Some "") None None))
                [] [] (mkCompiler 1 [] [])
              = Ok (tt, mkCompiler 1
                          [ "    // Node: component/get";
                            "    let comp_G = world.get_component::<Transform>(null)?;";
                            "    " ]
                          [ ("G", "comp_G") ])) by reflexivity.
  split; [exact H|].
  destruct (node_block_frame 1 _ [] [] _ _ tt H)
    as (title & mid & Hout & _ & Ht & _).
  exists mid. rewrite (Ht (or_intror eq_refl)) in Hout. exact Hout.
Defined.

(** *** Margins *)

Lemma repeat_add s a b : JS.repeat s (a + b) = JS.repeat s a +++ JS.repeat s b.
Proof.
  induction a as [|a IH]; simpl; [reflexivity|].
  now rewrite IH, append_assoc.
Qed.

Lemma indentedAt_mono k k' line :
  (0 <= k <= k')%Z -> indentedAt k' line -> indentedAt k line.
Proof.
  intros Hk [rest ->]. unfold indentedAt, pad.
  replace (Z.to_nat k') with (Z.to_nat k + Z.to_nat (k' - k))%nat by lia.
  rewrite repeat_add, append_assoc. eauto.
Qed.

Lemma indentedAt_pad k rest : indentedAt k (pad k +++ rest).
Proof. now exists rest. Qed.

Lemma Forall_indentedAt_mono k k' lines :
  (0 <= k <= k')%Z ->
  List.Forall (indentedAt k') lines -> List.Forall (indentedAt k) lines.
Proof.
  intros Hk H. eapply Forall_impl; [|exact H].
  intros l. now apply indentedAt_mono.
Qed.

Lemma pad_length k : String.length (pad k) = (4 * Z.to_nat k)%nat.
Proof.
  unfold pad. induction (Z.to_nat k) as [|n IH]; [reflexivity|].
  simpl. rewrite IH. lia.
Qed.

Lemma emitsEach_margin self nodeMap cs :
  (forall n, keepsMargin (self n)) ->
  (forall n c u c', self n c = Ok (u, c') -> grows c c') ->
  forall c blocks c',
    emitsEach self nodeMap cs c blocks c' ->
    (0 <= indentLevel c)%Z ->
    List.Forall (indentedAt (indentLevel c)) (List.concat blocks)
    /\ (indentLevel c <= indentLevel c')%Z.
Proof.
  intros Hself Hgrows c blocks c' H.
  induction H as [c|conn rest n c blk c1 blks c2 Hn [Hrun Hout] _ IH
                  |conn rest c blks c2 Hn _ IH]; intros Hc.
  - split; [constructor | lia].
  - destruct (Hself n c tt c1 Hrun) as (lines & Hl & Hf).
    rewrite Hout in Hl. apply app_inv_head in Hl. subst lines.
    destruct (Hgrows n c tt c1 Hrun) as [Hlev _].
    destruct IH as [IH1 IH2]; [lia|]. simpl. split; [|lia].
    apply Forall_app. split; [exact Hf|].
    apply (Forall_indentedAt_mono _ (indentLevel c1)); [lia | exact IH1].
  - destruct (IH Hc) as [IH1 IH2]. simpl. now split.
Qed.

Ltac margin_leaf H :=
  run_inv H; subst; cbn [indentLevel output nodeOutputs];
  first
    [ eexists; split; [reflexivity|];
      repeat constructor; apply indentedAt_pad
    | exists []; split; [now rewrite app_nil_r | constructor] ].

Lemma dispatch_margin self N conns nodeMap :
  (forall n, keepsMargin (self n)) ->
  (forall n c u c', self n c = Ok (u, c') -> grows c c') ->
  keepsMargin (dispatch self N conns nodeMap).
Proof.
  intros Hself Hgrows c u c' H. unfold dispatch in H.
  destruct (String.eqb (type N) "event/update");
    [unfold compileUpdateEvent in H; margin_leaf H|].
  destruct (String.eqb (type N) "event/collision");
    [unfold compileCollisionEvent in H; margin_leaf H|].
  destruct (String.eqb (type N) "query/get_entities");
    [unfold compileGetEntities in H; margin_leaf H|].
  destruct (String.eqb (type N) "component/get");
    [unfold compileGetComponent in H; margin_leaf H|].
  destruct (String.eqb (type N) "component/set");
    [unfold compileSetComponent in H; margin_leaf H|].
  destruct (String.eqb (type N) "math/add");
    [unfold compileMathOperation in H; margin_leaf H|].
  destruct (String.eqb (type N) "math/multiply");
    [unfold compileMathOperation in H; margin_leaf H|].
  destruct (String.eqb (type N) "flow/if").
  { destruct (compileIfStatement_shape _ _ _ _ Hgrows _ _ _ H)
      as (Hc & tb & c1 & Hthen & Hl1
          & [[He ->]|[He (eb & c2 & Helse & Hl2 & ->)]]);
      cbn [indentLevel output].
    - destruct (emitsEach_margin _ _ _ Hself Hgrows _ _ _ Hthen) as [Ht _];
        [cbn [indentLevel opened]; lia|].
      cbn [indentLevel opened] in Ht.
      eexists. split; [reflexivity|].
      constructor; [apply indentedAt_pad|]. apply Forall_app. split.
      + apply (Forall_indentedAt_mono _ (indentLevel c + 1)); [lia | exact Ht].
      + constructor; [|constructor].
        apply (indentedAt_mono _ (indentLevel c1 - 1)); [lia|].
        apply indentedAt_pad.
    - destruct (emitsEach_margin _ _ _ Hself Hgrows _ _ _ Hthen) as [Ht _];
        [cbn [indentLevel opened]; lia|].
      destruct (emitsEach_margin _ _ _ Hself Hgrows _ _ _ Helse) as [Hels _];
        [cbn [indentLevel opened]; lia|].
      cbn [indentLevel opened] in Ht, Hels.
      eexists. split; [reflexivity|].
      constructor; [apply indentedAt_pad|]. apply Forall_app. split.
      + apply (Forall_indentedAt_mono _ (indentLevel c + 1)); [lia | exact Ht].
      + constructor.
        { apply (indentedAt_mono _ (indentLevel c1 - 1)); [lia|].
          apply indentedAt_pad. }
        apply Forall_app. split.
        * apply (Forall_indentedAt_mono _ (indentLevel c1 - 1 + 1));
            [lia | exact Hels].
        * constructor; [|constructor].
          apply (indentedAt_mono _ (indentLevel c2 - 1)); [lia|].
          apply indentedAt_pad. }
  destruct (String.eqb (type N) "flow/foreach").
  { destruct (compileForEach_shape _ _ _ _ Hgrows _ _ _ H)
      as (Hc & bb & c1 & Hbody & Hl1 & ->).
    cbn [indentLevel output].
    destruct (emitsEach_margin _ _ _ Hself Hgrows _ _ _ Hbody) as [Hb _];
      [cbn [indentLevel]; lia|].
    cbn [indentLevel] in Hb.
    eexists. split; [reflexivity|].
    constructor; [apply indentedAt_pad|]. apply Forall_app. split.
    - apply (Forall_indentedAt_mono _ (indentLevel c + 1)); [lia | exact Hb].
    - constructor; [|constructor].
      apply (indentedAt_mono _ (indentLevel c1 - 1)); [lia|].
      apply indentedAt_pad. }
  margin_leaf H.
Qed.

Lemma compileNode_margin depth : forall N conns nodeMap,
  keepsMargin (compileNode depth N conns nodeMap).
Proof.
  induction depth as [|depth IH]; intros N conns nodeMap c u c' H;
    [discriminate|].
  rewrite compileNode_S in H. run_inv H.
  match goal with
  | Hd : dispatch _ _ _ _ _ = Ok _ |- _ =>
      pose proof (dispatch_grows _ _ _ _
                    (fun n => compileNode_grows depth n conns nodeMap) _ _ _ Hd)
        as [Hlev _];
      apply (dispatch_margin _ _ _ _
               (fun n => IH n conns nodeMap)
               (fun n => compileNode_grows depth n conns nodeMap)) in Hd;
      destruct Hd as (lines & Hout & Hf)
  end.
  cbn [indentLevel output] in Hlev, Hout, Hf. subst c'. cbn [output].
  rewrite Hout. eexists. split; [rewrite <- !app_assoc; reflexivity|].
  constructor; [apply indentedAt_pad|]. apply Forall_app. split; [exact Hf|].
  constructor; [|constructor].
  match goal with
  | |- indentedAt _ (pad ?k +++ _) =>
      apply (indentedAt_mono _ k); [lia | apply indentedAt_pad]
  end.
Qed.

Lemma compileSorted_margin depth conns nodeMap sorted :
  keepsMargin (compileSorted depth sorted conns nodeMap).
Proof.
  induction sorted as [|[n|] rest IH]; intros c u c' H; simpl in H.
  - apply ret_Ok in H. destruct H as [_ ->]. exists [].
    split; [now rewrite app_nil_r | constructor].
  - apply bind_Ok in H. destruct H as (a & c1 & H1 & H2).
    destruct (compileNode_margin _ _ _ _ _ _ _ H1) as (l1 & Ho1 & Hf1).
    destruct (compileNode_header _ _ _ _ _ _ _ H1) as (Hc & Hl & _).
    destruct (IH _ _ _ H2) as (l2 & Ho2 & Hf2).
    exists (l1 ++ l2). split; [now rewrite Ho2, Ho1, app_assoc|].
    apply Forall_app. split; [exact Hf1|].
    apply (Forall_indentedAt_mono _ (indentLevel c1)); [lia | exact Hf2].
  - discriminate.
Qed.

(** X24.  [compileNode] never writes to the left of where it starts:
    every line a successful run appends, those of the nodes nested below
    included, starts with the indentation of the level at the start of
    the run, four spaces per level. *)
Theorem node_code_keeps_margin (depth : nat) (N : VisualScriptNode)
    (conns : ConnectionMap) (nodeMap : jsmap VisualScriptNode)
    (c c' : Compiler) (u : unit) :
  compileNode depth N conns nodeMap c = Ok (u, c') ->
  exists lines,
    output c' = output c ++ lines
    /\ List.Forall (indentedAt (indentLevel c)) lines
    /\ String.length (pad (indentLevel c)) = (4 * Z.to_nat (indentLevel c))%nat.
Proof.
  intros H. destruct (compileNode_margin depth N conns nodeMap c u c' H)
    as (lines & Hout & Hf).
  exists lines. split; [exact Hout|]. split; [exact Hf | apply pad_length].
Qed.

Lemma node_code_keeps_margin_witness :
  compileNode 2
    (mkNode "L" "flow/foreach" (mkData (Some "each entity") None None))
    (connectionMapOf loopScript) (nodeMapOf loopScript) (mkCompiler 2 [] [])
  = Ok (tt, mkCompiler 2
              [ "        // Node: each entity";
                "        for item_L in null.iter() {";
                "            // Node: step";
                "            let result_M = 0.0 + 0.0;";
                "            ";
                "        }";
                "        " ]
              [ ("L_item", "item_L"); ("M", "result_M") ])
  /\ List.Forall (indentedAt 2)
       [ "        // Node: each entity";
         "        for item_L in null.iter() {";
         "            // Node: step";
         "            let result_M = 0.0 + 0.0;";
         "            ";
         "        }";
         "        " ].
Proof.
  assert (H : compileNode 2
                (mkNode "L" "flow/foreach"
                   (mkData (Some "each entity") None None))
                (connectionMapOf loopScript) (nodeMapOf loopScript)
                (mkCompiler 2 [] [])
              = Ok (tt, mkCompiler 2
                          [ "        // Node: each entity";
                            "        for item_L in null.iter() {";
                            "            // Node: step";
                            "            let result_M = 0.0 + 0.0;";
                            "            ";
                            "        }";
                            "        " ]
                          [ ("L_item", "item_L"); ("M", "result_M") ]))
    by reflexivity.
  split; [exact H|].
  destruct (node_code_keeps_margin 2 _ _ _ _ _ tt H) as (lines & Hout & Hf & _).
  simpl in Hout. subst lines. exact Hf.
Defined.

(* ================================================================== *)
(** ** [compile] *)

Lemma fits_without_connections depth nodeMap n :
  fits (S depth) (buildConnectionMap []) nodeMap n = true.
Proof.
  simpl. unfold nested.
  destruct (String.eqb (type n) "flow/if"); [reflexivity|].
  destruct (String.eqb (type n) "flow/foreach"); reflexivity.
Qed.

Lemma blocks_nodes (bs : list (VisualScriptNode * list string)) ns :
  List.map (fun b => Some (fst b)) bs = List.map Some ns ->
  List.map fst bs = ns.
Proof.
  revert ns. induction bs as [|b bs IH]; intros [|n ns] H; simpl in *;
    try discriminate; [reflexivity|].
  inversion H. f_equal. now apply IH.
Qed.

(** X25.  A script without connections and with distinct node ids
    always compiles, with a stack of one call: the code is the opening
    lines, one block per node in the order of the node array, and the
    closing lines. *)
Theorem unconnected_nodes_in_declaration_order (depth : nat)
    (script : VisualScript) (c : Compiler) :
  connections script = [] ->
  NoDup (nodeIds (nodes script)) ->
  exists r c' (bs : list (VisualScriptNode * list string)),
    compile (S depth) script c = Ok (r, c')
    /\ List.map fst bs = nodes script
    /\ (forall n blk, In (n, blk) bs ->
          blockOf (S depth) (connectionMapOf script) (nodeMapOf script) n blk)
    /\ output c' = prelude script ++ List.concat (List.map snd bs)
                   ++ coda (indentLevel c' + 2)
    /\ code r = JS.join newline (output c').
Proof.
  intros Hcs Hn.
  destruct (topologicalSort_terminates (nodes script) (connections script))
    as [[sorted Hs]|Hs].
  2:{ exfalso. rewrite Hcs in Hs.
      destruct (topologicalSort_wellFormed (nodes script) [])
        as (done & Hd & _); [intros conn []|]. congruence. }
  pose proof Hs as Hs'. rewrite Hcs in Hs'.
  apply (topologicalSort_no_connections _ _ Hn) in Hs'.
  destruct (compile_total (S depth) script c sorted Hs) as (r & c' & Hrun).
  { intros e He. rewrite Hs' in He. apply in_map_iff in He.
    destruct He as (n & <- & _). exists n. split; [reflexivity|].
    unfold connectionMapOf. rewrite Hcs. apply fits_without_connections. }
  destruct (compile_inv _ _ _ _ _ Hrun)
    as (sorted' & bs & Hs2 & Hbs & Hblk & _ & Hout & Hr).
  exists r, c', bs. split; [exact Hrun|].
  split.
  { apply blocks_nodes. rewrite Hbs. congruence. }
  split; [exact Hblk|]. split; [exact Hout|]. now subst r.
Qed.

Lemma unconnected_nodes_in_declaration_order_witness :
  connections looseScript = []
  /\ NoDup (nodeIds (nodes looseScript))
  /\ exists r c',
       compile 1 looseScript newCompiler = Ok (r, c')
       /\ output c'
          = prelude looseScript
            ++ [ "        // Node: component/set";
                 "        world.set_component(null, null);";
                 "        ";
                 "        // Node: audio/play";
                 "        // TODO: Implement node type audio/play";
                 "        ";
                 "        // Node: component/get";
                 "        let comp_G = world.get_component::<Transform>(null)?;";
                 "        " ]
            ++ coda 2
       /\ dependencies r = [ "Sound"; "audio" ].
Proof.
  assert (H1 : connections looseScript = []) by reflexivity.
  assert (H2 : NoDup (nodeIds (nodes looseScript))).
  { repeat constructor; simpl; intuition discriminate. }
  split; [exact H1|]. split; [exact H2|].
  destruct (unconnected_nodes_in_declaration_order 0 looseScript newCompiler
              H1 H2) as (r & c' & bs & Hrun & _).
  exists r, c'. split; [exact Hrun|].
  vm_compute in Hrun. inversion Hrun. split; reflexivity.
Defined.

Lemma forallb_false_witness {A : Type} (p : A -> bool) (l : list A) :
  List.forallb p l = false -> exists x, In x l /\ p x = false.
Proof.
  induction l as [|a l IH]; simpl; [discriminate|].
  destruct (p a) eqn:E; simpl; intros H.
  - destruct (IH H) as (x & Hx & Hp). exists x. split; [now right | exact Hp].
  - exists a. split; [now left | exact E].
Qed.

Lemma compileSorted_valueOrRange depth conns nodeMap sorted :
  List.Forall (fun e => exists n : VisualScriptNode, e = Some n) sorted ->
  forall c, valueOrRange (compileSorted depth sorted conns nodeMap c).
Proof.
  induction 1 as [|e rest [n ->] _ IH]; intros c; simpl; [exact I|].
  apply valueOrRange_bind; [apply valueOrRange_compileNode|].
  intros ? ?. apply IH.
Qed.

(** X26.  The ways [compile] can fail.  It raises a [TypeError] exactly
    when [topologicalSort] does, so the node compilers never read a
    property of [undefined]; it raises a [RangeError] only when the
    blocks nested below some node of the order do not fit on the call
    stack; and it always ends. *)
Theorem compile_failures (depth : nat) (script : VisualScript) (c : Compiler) :
  (compile depth script c = TypeError
   <-> topologicalSort (nodes script) (connections script) = TypeError)
  /\ (compile depth script c = RangeError ->
      exists sorted n,
        topologicalSort (nodes script) (connections script) = Ok sorted
        /\ In (Some n) sorted
        /\ fits depth (connectionMapOf script) (nodeMapOf script) n = false)
  /\ compile depth script c <> Diverged.
Proof.
  destruct (topologicalSort_terminates (nodes script) (connections script))
    as [[sorted Hs]|Hs].
  - pose proof (topologicalSort_defined _ _ _ Hs) as Hdef.
    split; [|split; [|apply compile_never_diverges]].
    + split; [|intros H; congruence]. intros H. exfalso.
      revert H. unfold compile.
      rewrite (bind_run _ _ c tt newCompiler) by reflexivity.
      rewrite (bind_run _ _ newCompiler sorted newCompiler)
        by (unfold lift; now rewrite Hs).
      match goal with |- ?m newCompiler = _ -> _ =>
        assert (Hv : valueOrRange (m newCompiler)) end.
      { range_only; try exact I.
        apply compileSorted_valueOrRange.
        eapply Forall_impl; [|exact Hdef]. intros e (n & -> & _). now exists n. }
      intros E. rewrite E in Hv. exact Hv.
    + intros H. exists sorted.
      destruct (List.forallb
                  (fun e => match e with
                            | Some n => fits depth (connectionMapOf script)
                                          (nodeMapOf script) n
                            | None => false
                            end) sorted) eqn:Ef.
      * exfalso. rewrite forallb_forall in Ef.
        destruct (compile_total depth script c sorted Hs) as (r & c' & Hrun);
          [|congruence].
        intros e He. rewrite Forall_forall in Hdef.
        destruct (Hdef e He) as (n & -> & _). exists n. split; [reflexivity|].
        exact (Ef _ He).
      * apply forallb_false_witness in Ef. destruct Ef as (e & He & Hp).
        rewrite Forall_forall in Hdef. destruct (Hdef e He) as (n & -> & _).
        exists n. now split.
  - split; [|split; [|apply compile_never_diverges]].
    + split; [intros _; exact Hs | intros _; now apply compile_sort_fails].
    + intros H. rewrite (compile_sort_fails depth script c Hs) in H. discriminate.
Qed.

Lemma compile_failures_witness :
  compile 3 echoScript newCompiler = RangeError
  /\ (exists sorted n,
        topologicalSort (nodes echoScript) (connections echoScript) = Ok sorted
        /\ In (Some n) sorted
        /\ fits 3 (connectionMapOf echoScript) (nodeMapOf echoScript) n = false)
  /\ topologicalSort (nodes ghostSourceScript) (connections ghostSourceScript)
     = TypeError
  /\ compile 3 ghostSourceScript newCompiler = TypeError.
Proof.
  assert (H1 : compile 3 echoScript newCompiler = RangeError) by reflexivity.
  assert (H2 : topologicalSort (nodes ghostSourceScript)
                 (connections ghostSourceScript) = TypeError) by reflexivity.
  split; [exact H1|]. split; [|split; [exact H2|]].
  - exact (proj1 (proj2 (compile_failures 3 echoScript newCompiler)) H1).
  - exact (proj2 (proj1 (compile_failures 3 ghostSourceScript newCompiler)) H2).
Defined.

(** X27.  Of the strings [compile] joins into the code it returns,
    every one between the six opening ones and the two closing ones
    starts with eight spaces or more: what the node compilers hand to
    [writeLine] is written inside the body of [execute].  (A string is
    one line of the code unless a label, a type or a component name
    holds a line break itself; [writeLine] pushes it as it is.) *)
Theorem compiled_body_margin (depth : nat) (script : VisualScript)
    (c c' : Compiler) (r : CompiledSystem) :
  compile depth script c = Ok (r, c') ->
  exists body,
    output c' = prelude script ++ body ++ coda (indentLevel c' + 2)
    /\ List.Forall (indentedAt 2) body
    /\ String.length (pad 2) = 8%nat
    /\ code r = JS.join newline (output c').
Proof.
  intros H. unfold compile in H.
  apply bind_Ok in H. destruct H as (a & c0 & Hr & H).
  unfold reset in Hr. inversion Hr; subst a c0. clear Hr.
  apply bind_Ok in H. destruct H as (sorted & c1 & Hs & H).
  unfold lift in Hs.
  destruct (topologicalSort (nodes script) (connections script))
    as [sorted'| | |] eqn:Et; try discriminate.
  inversion Hs; subst sorted' c1. clear Hs.
  run_inv H.
  match goal with
  | Hc : compileSorted _ _ _ _ _ = Ok _ |- _ =>
      destruct (compileSorted_margin _ _ _ _ _ _ _ Hc) as (body & Ho & Hf)
  end.
  cbn [indentLevel output nodeOutputs] in *.
  match goal with
  | Hg : gets output _ = Ok _ |- _ => unfold gets in Hg; inversion Hg; subst
  end.
  cbn [indentLevel output nodeOutputs] in *.
  exists body. split; [|split; [|split; reflexivity]].
  - rewrite Ho. unfold prelude, coda.
    match goal with
    | |- context [pad (?k - 1 - 1 + 2 - 1)] =>
        replace (k - 1 - 1 + 2 - 1)%Z with (k - 1)%Z by lia;
        replace (k - 1 - 1 + 2 - 2)%Z with (k - 1 - 1)%Z by lia
    end.
    rewrite <- !app_assoc. reflexivity.
  - replace 2%Z with (0 + 1 + 1)%Z by lia. exact Hf.
Qed.

Lemma compiled_body_margin_witness :
  exists r c' body,
    compile 2 loopScript newCompiler = Ok (r, c')
    /\ output c' = prelude loopScript ++ body ++ coda 2
    /\ List.Forall (indentedAt 2) body.
Proof.
  destruct (compile 2 loopScript newCompiler) as [[r c']| | |] eqn:E;
    [|vm_compute in E; discriminate ..].
  destruct (compiled_body_margin 2 loopScript newCompiler c' r E)
    as (body & Hout & Hf & _).
  exists r, c', body. split; [reflexivity|]. split; [|exact Hf].
  rewrite Hout. vm_compute in E. inversion E. reflexivity.
Defined.

(** *** The symbol table *)

Lemma sanitizeId_idChars s : allChars isIdChar (sanitizeId s) = true.
Proof.
  induction s as [|c s IH]; simpl; [reflexivity|]. rewrite IH, andb_true_r.
  destruct (isIdChar c) eqn:E; [exact E | reflexivity].
Qed.

Lemma validSymbols_set m k v :
  validSymbols m -> isIdentifier v = true -> validSymbols (map_set m k v).
Proof.
  intros Hm Hv k' v'. destruct (string_dec k k') as [->|Hne].
  - rewrite map_get_set_same. intros H. now inversion H; subst.
  - rewrite map_get_set_other by assumption. apply Hm.
Qed.

Lemma prefixed_identifier (p s : string) :
  isIdentifier p = true -> allChars isIdChar s = true ->
  isIdentifier (p +++ s) = true.
Proof.
  destruct p as [|c p]; simpl; [discriminate|].
  intros H Hs. apply andb_true_iff in H as [H1 H2].
  now rewrite H1, allChars_app, H2, Hs.
Qed.

Lemma emitsEach_symbols self nodeMap cs :
  (forall n, keepsSymbols (self n)) ->
  forall c blocks c',
    emitsEach self nodeMap cs c blocks c' ->
    validSymbols (nodeOutputs c) -> validSymbols (nodeOutputs c').
Proof.
  intros Hself c blocks c' H.
  induction H as [c|conn rest n c blk c1 blks c2 Hn [Hrun Hout] _ IH
                  |conn rest c blks c2 Hn _ IH]; intros Hv.
  - exact Hv.
  - apply IH. exact (Hself n c tt c1 Hrun Hv).
  - now apply IH.
Qed.

Ltac symbols_leaf H Hv :=
  run_inv H; subst; cbn [indentLevel output nodeOutputs];
  repeat first
    [ exact Hv
    | apply validSymbols_set;
      [| first [ reflexivity
               | apply prefixed_identifier;
                 [reflexivity | apply sanitizeId_idChars] ] ] ].

Lemma dispatch_symbols self N conns nodeMap :
  (forall n, keepsSymbols (self n)) ->
  (forall n c u c', self n c = Ok (u, c') -> grows c c') ->
  keepsSymbols (dispatch self N conns nodeMap).
Proof.
  intros Hself Hgrows c u c' H Hv. unfold dispatch in H.
  destruct (String.eqb (type N) "event/update");
    [unfold compileUpdateEvent in H; symbols_leaf H Hv|].
  destruct (String.eqb (type N) "event/collision");
    [unfold compileCollisionEvent in H; symbols_leaf H Hv|].
  destruct (String.eqb (type N) "query/get_entities");
    [unfold compileGetEntities in H; symbols_leaf H Hv|].
  destruct (String.eqb (type N) "component/get");
    [unfold compileGetComponent in H; symbols_leaf H Hv|].
  destruct (String.eqb (type N) "component/set");
    [unfold compileSetComponent in H; symbols_leaf H Hv|].
  destruct (String.eqb (type N) "math/add");
    [unfold compileMathOperation in H; symbols_leaf H Hv|].
  destruct (String.eqb (type N) "math/multiply");
    [unfold compileMathOperation in H; symbols_leaf H Hv|].
  destruct (String.eqb (type N) "flow/if").
  { destruct (compileIfStatement_shape _ _ _ _ Hgrows _ _ _ H)
      as (Hc & tb & c1 & Hthen & Hl1
          & [[He ->]|[He (eb & c2 & Helse & Hl2 & ->)]]);
      cbn [nodeOutputs];
      pose proof (emitsEach_symbols _ _ _ Hself _ _ _ Hthen Hv) as H1;
      [exact H1|].
    exact (emitsEach_symbols _ _ _ Hself _ _ _ Helse H1). }
  destruct (String.eqb (type N) "flow/foreach").
  { destruct (compileForEach_shape _ _ _ _ Hgrows _ _ _ H)
      as (Hc & bb & c1 & Hbody & Hl1 & ->).
    cbn [nodeOutputs].
    apply (emitsEach_symbols _ _ _ Hself _ _ _ Hbody). cbn [nodeOutputs].
    apply validSymbols_set; [exact Hv|].
    apply prefixed_identifier; [reflexivity | apply sanitizeId_idChars]. }
  symbols_leaf H Hv.
Qed.

Lemma compileNode_symbols depth : forall N conns nodeMap,
  keepsSymbols (compileNode depth N conns nodeMap).
Proof.
  induction depth as [|depth IH]; intros N conns nodeMap c u c' H Hv;
    [discriminate|].
  rewrite compileNode_S in H. run_inv H.
  match goal with
  | Hd : dispatch _ _ _ _ _ = Ok _ |- _ =>
      pose proof (dispatch_symbols _ _ _ _
                    (fun n => IH n conns nodeMap)
                    (fun n => compileNode_grows depth n conns nodeMap)
                    _ _ _ Hd Hv) as Hs
  end.
  now subst c'.
Qed.

Lemma compileSorted_symbols depth conns nodeMap sorted :
  keepsSymbols (compileSorted depth sorted conns nodeMap).
Proof.
  induction sorted as [|[n|] rest IH]; intros c u c' H Hv; simpl in H.
  - apply ret_Ok in H. destruct H as [_ ->]. exact Hv.
  - apply bind_Ok in H. destruct H as (a & c1 & H1 & H2).
    apply (IH _ _ _ H2). exact (compileNode_symbols _ _ _ _ _ _ _ H1 Hv).
  - discriminate.
Qed.

(** X28.  Every symbol in the symbol table after [compile] is a Rust
    identifier (a letter or [_], then letters, digits and [_]), whatever
    characters the node ids hold: the sanitized id always stands behind
    a prefix of the compiler. *)
Theorem bound_symbols_are_identifiers (depth : nat) (script : VisualScript)
    (c c' : Compiler) (r : CompiledSystem) (key symbol : string) :
  compile depth script c = Ok (r, c') ->
  map_get (nodeOutputs c') key = Some symbol ->
  isIdentifier symbol = true.
Proof.
  intros H. unfold compile in H.
  apply bind_Ok in H. destruct H as (a & c0 & Hr & H).
  unfold reset in Hr. inversion Hr; subst a c0. clear Hr.
  apply bind_Ok in H. destruct H as (sorted & c1 & Hs & H).
  unfold lift in Hs.
  destruct (topologicalSort (nodes script) (connections script))
    as [sorted'| | |] eqn:Et; try discriminate.
  inversion Hs; subst sorted' c1. clear Hs.
  run_inv H.
  assert (Hempty : validSymbols (@nil (string * string)))
    by (intros k v Hk; discriminate).
  match goal with
  | Hc : compileSorted _ _ _ _ _ = Ok _ |- _ =>
      pose proof (compileSorted_symbols _ _ _ _ _ _ _ Hc Hempty) as Hv
  end.
  match goal with
  | Hg : gets output _ = Ok _ |- _ => unfold gets in Hg; inversion Hg; subst
  end.
  cbn [nodeOutputs]. apply Hv.
Qed.

Lemma bound_symbols_are_identifiers_witness :
  exists r c',
    compile 1 clashScript newCompiler = Ok (r, c')
    /\ map_get (nodeOutputs c') "a.b" = Some "result_a_b"
    /\ isIdentifier "result_a_b" = true.
Proof.
  destruct (compile 1 clashScript newCompiler) as [[r c']| | |] eqn:E;
    [|vm_compute in E; discriminate ..].
  assert (Hk : map_get (nodeOutputs c') "a.b" = Some "result_a_b").
  { pose proof E as E'. vm_compute in E'. inversion E'. reflexivity. }
  exists r, c'. split; [reflexivity|]. split; [exact Hk|].
  exact (bound_symbols_are_identifiers 1 clashScript newCompiler c' r
           "a.b" "result_a_b" E Hk).
Defined.

(** X29.  The record [compile] returns carries the name of the script
    as it is and the dependencies of all its nodes: a node asks for its
    component type there even when it is left out of the code because it
    is on a cycle. *)
Theorem result_names_all_dependencies (depth : nat) (script : VisualScript)
    (c c' : Compiler) (r : CompiledSystem) :
  compile depth script c = Ok (r, c') ->
  sys_name r = name script
  /\ dependencies r = extractDependencies (nodes script)
  /\ (forall n d, In n (nodes script) -> componentType (data n) = Some d ->
        d <> "" -> In d (dependencies r)).
Proof.
  intros H.
  destruct (compile_inv _ _ _ _ _ H) as (_ & _ & _ & _ & _ & _ & _ & ->).
  cbn [sys_name dependencies].
  split; [reflexivity|]. split; [reflexivity|].
  intros n d Hn Hd Hne. unfold extractDependencies.
  apply extractDependenciesFrom_In. right. left. split; [exact Hne|].
  now exists n.
Qed.

Lemma result_names_all_dependencies_witness :
  exists r c',
    compile 1 idleCycleScript newCompiler = Ok (r, c')
    /\ output c'
       = [ "pub struct IdleCycleSystem {";
           "    // System state";
           "}";
           "";
           "impl System for IdleCycleSystem {";
           "    fn execute(&mut self, world: &mut World, physics: &mut PhysicsWorld, dt: f32) {";
           "    }";
           "}" ]
    /\ dependencies r = [ "Health" ].
Proof.
  destruct (compile 1 idleCycleScript newCompiler) as [[r c']| | |] eqn:E;
    [|vm_compute in E; discriminate ..].
  destruct (result_names_all_dependencies _ _ _ _ _ E) as (_ & Hd & _).
  exists r, c'. split; [reflexivity|]. split.
  - pose proof E as E'. vm_compute in E'. inversion E'. reflexivity.
  - rewrite Hd. reflexivity.
Defined.
